(** * primesieve: the API, the EratMedium engine and the segmented sieve

    A shallow embedding of [src/primesieve/api.cpp], of [EratMedium.cpp]
    and of the callbacks of [PrimeSieve.h] that fill a vector, with the
    statements of the specification proved (or refuted) on it, and with
    further laws of the code.  The parts of the program that these files
    call but that are not among the sources (the wheel tables, the other
    two engines, the segment driver, the parallel sieve) are modelled from
    the specification; each such definition says so.

    Conventions.  C++ unsigned 64-bit values are [Z] with the wrap-around
    written out ([wrap64]); [int] values are [Z].  A [std::vector] and the
    sieve buffer are lists read with stdpp's lookup [!!] and updated with
    its insert; an access outside the container is undefined behaviour in
    C++ and an explicit error here.  The vectors that the callbacks fill
    carry their capacity, and their allocations can fail.  Loops whose termination depends on
    the wheel table take a fuel argument; running out of it is an error of
    its own, and sufficient fuel is exhibited where a claim needs a
    result.

    The file has two parts: the definitions, then the facts. *)

From Stdlib Require Import ZArith List Lia Bool Znumtheory String Sorted.
From stdpp Require Import base list.

Open Scope Z_scope.

(** ** Machine integers *)

Definition wrap64 (x : Z) : Z := x mod 2 ^ 64.

Definition is_u64 (x : Z) : Prop := 0 <= x < 2 ^ 64.

(** ** Results of fallible code *)

Inductive error : Type :=
| EmptyVector      (* primes_[0] or primes_.back() on an empty vector *)
| SieveOutOfBounds (* sieve[multipleIndex] outside the buffer *)
| WheelOutOfBounds (* WHEEL[wheelIndex] outside the table *)
| AssertionFailed  (* a failed assert() *)
| OutOfFuel        (* the model ran out of fuel; no C++ counterpart *)
| primesieve_error (what : string)
| stop_primesieve  (* the exception by which a callback ends the sieve *)
| bad_alloc        (* std::bad_alloc *)
| length_error.    (* std::length_error *)

Inductive result (A : Type) : Type :=
| Ok (a : A)
| Err (e : error).
Arguments Ok {A} a.
Arguments Err {A} e.

Definition bind {A B} (m : result A) (k : A -> result B) : result B :=
  match m with
  | Ok a => k a
  | Err e => Err e
  end.

Notation "'do' x <- m ; k" := (bind m (fun x => k))
  (at level 10, x pattern, m at level 100, k at level 200).

Definition of_option {A} (e : error) (o : option A) : result A :=
  match o with
  | Some a => Ok a
  | None => Err e
  end.

(** ** pmath.hpp *)

Module Pmath.

(** Modelled from the spec: [inBetween] of pmath.hpp, which is not among the
    sources; the claims read it as a clamp of [x] to [[min, max]]. *)
Definition inBetween (min x max : Z) : Z :=
  if x <? min then min
  else if x >? max then max
  else x.

(** Modelled from the spec: [floorPow2] of pmath.hpp, which is not among
    the sources; the largest power of two not above [x] (0 for [x <= 0]). *)
Definition floorPow2 (x : Z) : Z :=
  if x <=? 0 then 0 else 2 ^ Z.log2 x.

End Pmath.

(** ** Wheel.hpp: wheel tables, sieving-prime records, [unsetBit] *)

Module Wheel.

(** Each byte of the sieve covers 30 consecutive integers (config.hpp). *)
Definition NUMBERS_PER_BYTE : Z := 30.

(** Bit [b] of byte [k] of a segment stands for the integer
    [segmentLow + 30 * k + residue b]. *)
Definition residues : list Z := [1; 7; 11; 13; 17; 19; 23; 29].

Definition residue (b : nat) : Z := nth b residues 0.

(** The bit that stands for a number congruent to [r] modulo 30 (8 if [r]
    has a common factor with 30 and so has no bit). *)
Definition bitIndex (r : Z) : Z :=
  match r with
  | 1 => 0 | 7 => 1 | 11 => 2 | 13 => 3
  | 17 => 4 | 19 => 5 | 23 => 6 | 29 => 7
  | _ => 8
  end.

(** Modelled from the spec: an entry of a wheel table (Wheel.hpp is not
    among the sources): the bit to unset, the factor of the scaled prime
    in the byte increment, the correction added to it, and the successor
    wheel index. *)
Record WheelElement : Type := mkWheelElement {
  bitMask : Z;
  byteInc : Z;
  extraInc : Z;
  nextWheelIndex : Z
}.

(** The spokes of the wheel of modulus [m]: the residues coprime to [m]. *)
Definition spokes (m : Z) : list Z :=
  List.filter (fun q => Z.gcd q m =? 1) (map Z.of_nat (seq 0 (Z.to_nat m))).

(** Modelled from the spec: the entry for a sieving prime congruent to
    [residue i] modulo 30 whose current multiple has a cofactor congruent
    to spoke [j] modulo [m].  The next multiple has the next cofactor
    coprime to [m]. *)
Definition element (m : Z) (i j : nat) : WheelElement :=
  let sp := spokes m in
  let n := length sp in
  let r := residue i in
  let q := nth j sp 0 in
  let q' := if (S j <? n)%nat then nth (S j) sp 0 else nth 0 sp 0 + m in
  {| bitMask := 2 ^ bitIndex ((r * q) mod 30);
     byteInc := q' - q;
     extraInc := (r * q') / 30 - (r * q) / 30;
     nextWheelIndex := Z.of_nat (i * n + (S j) mod n) |}.

Definition wheelTable (m : Z) : list WheelElement :=
  flat_map (fun i => map (element m i) (seq 0 (length (spokes m)))) (seq 0 8).

(** Modelled from the spec: the mod-30 wheel (8 spokes) and the mod-210
    wheel (48 spokes). *)
Definition wheel30 : list WheelElement := Eval vm_compute in wheelTable 30.
Definition wheel210 : list WheelElement := Eval vm_compute in wheelTable 210.

(** Modelled from the spec: the sieving-prime record (Wheel.hpp is not
    among the sources): the prime divided by 30, the byte offset of its
    next multiple in the current segment, and its wheel index. *)
Record SievingPrime : Type := mkSievingPrime {
  getSievingPrime : Z;
  getMultipleIndex : Z;
  getWheelIndex : Z
}.

(** [primes->set(multipleIndex, wheelIndex)] keeps the scaled prime. *)
Definition set (multipleIndex wheelIndex : Z) (p : SievingPrime) : SievingPrime :=
  mkSievingPrime (getSievingPrime p) multipleIndex wheelIndex.

(** The sieve buffer: one [Z] in [[0, 256)] per byte. *)
Abbreviation Sieve := (list Z) (only parsing).

(** Modelled from the spec: [unsetBit] (Wheel.hpp is not among the
    sources): clear the bit of the current multiple, advance the multiple
    index by [scaledPrime * byteInc + extraInc], move the wheel index to
    its successor.  The two indices are C++ in-out parameters. *)
Definition unsetBit (WHEEL : list WheelElement) (sieve : Sieve)
    (sievingPrime multipleIndex wheelIndex : Z) : result (Sieve * Z * Z) :=
  do w <- of_option WheelOutOfBounds (WHEEL !! Z.to_nat wheelIndex);
  do b <- of_option SieveOutOfBounds (sieve !! Z.to_nat multipleIndex);
  let sieve := <[Z.to_nat multipleIndex := Z.ldiff b (bitMask w)]> sieve in
  let multipleIndex := wrap64 (multipleIndex + wrap64 (byteInc w * sievingPrime)) in
  let multipleIndex := wrap64 (multipleIndex + extraInc w) in
  Ok (sieve, multipleIndex, nextWheelIndex w).

(** The local variables of a cross-off loop: the scaled prime, the
    multiple index and the wheel index read from a record. *)
Record Lane : Type := mkLane {
  sievingPrime : Z;
  multipleIndex : Z;
  wheelIndex : Z
}.

Definition load (p : SievingPrime) : Lane :=
  mkLane (getSievingPrime p) (getMultipleIndex p) (getWheelIndex p).

(** [unsetBit(sieve, sievingPrime, &multipleIndex, &wheelIndex)]. *)
Definition step (WHEEL : list WheelElement) (sieve : Sieve) (l : Lane)
    : result (Sieve * Lane) :=
  do (sieve, m, w) <- unsetBit WHEEL sieve (sievingPrime l) (multipleIndex l) (wheelIndex l);
  Ok (sieve, mkLane (sievingPrime l) m w).

(** [multipleIndex -= sieveSize; primes->set(multipleIndex, wheelIndex)]. *)
Definition store (sieveSize : Z) (l : Lane) (p : SievingPrime) : SievingPrime :=
  set (wrap64 (multipleIndex l - sieveSize)) (wheelIndex l) p.

(** [while (multipleIndex < sieveSize) unsetBit(...)]. *)
Fixpoint lane (WHEEL : list WheelElement) (fuel : nat) (sieveSize : Z)
    (sieve : Sieve) (l : Lane) : result (Sieve * Lane) :=
  if multipleIndex l <? sieveSize then
    match fuel with
    | O => Err OutOfFuel
    | S fuel =>
        do (sieve, l) <- step WHEEL sieve l;
        lane WHEEL fuel sieveSize sieve l
    end
  else Ok (sieve, l).

End Wheel.

(** ** EratMedium.cpp *)

Module EratMedium.
Import Wheel.

(** The engine.  [stop_] and [sieveSize_] are what the wheel base class
    keeps of its two constructor arguments. *)
Record EratMedium : Type := mkEratMedium {
  stop_ : Z;
  sieveSize_ : Z;
  maxPrime_ : Z;
  primes_ : list SievingPrime
}.

(** [EratMedium::EratMedium(stop, sieveSize, maxPrime)].  The wheel base
    class is initialised first; the spec gives it no error condition of its
    own, so it only records its arguments here.  [primes_.reserve] changes
    the capacity of the vector, not its contents. *)
Definition new (stop sieveSize maxPrime : Z) : result EratMedium :=
  if sieveSize >? Z.shiftl 4096 10 then
    Err (primesieve_error "EratMedium: sieveSize must be <= 4096 kilobytes")
  else if maxPrime >? wrap64 (sieveSize * 5) then
    Err (primesieve_error "EratMedium: maxPrime must be <= sieveSize * 5")
  else
    Ok (mkEratMedium stop sieveSize maxPrime []).

(** [EratMedium::storeSievingPrime].  The [assert] is a checked
    precondition here; a build with [NDEBUG] does not check it. *)
Definition storeSievingPrime (prime multipleIndex wheelIndex : Z)
    (e : EratMedium) : result EratMedium :=
  if prime <=? maxPrime_ e then
    let sievingPrime := prime / NUMBERS_PER_BYTE in
    Ok (mkEratMedium (stop_ e) (sieveSize_ e) (maxPrime_ e)
          (primes_ e ++ [mkSievingPrime sievingPrime multipleIndex wheelIndex]))
  else Err AssertionFailed.

(** The engine inherits the mod-210 wheel ([Modulo210Wheel_t]). *)
Definition step := Wheel.step wheel210.
Definition lane := Wheel.lane wheel210.

(** The interleaved loop over three lanes (lines 73-80), with its two
    [break]s. *)
Fixpoint lanes3 (fuel : nat) (sieveSize : Z) (sieve : Sieve) (l0 l1 l2 : Lane)
    : result (Sieve * Lane * Lane * Lane) :=
  if multipleIndex l0 <? sieveSize then
    match fuel with
    | O => Err OutOfFuel
    | S fuel =>
        do (sieve, l0) <- step sieve l0;
        if multipleIndex l1 >=? sieveSize then Ok (sieve, l0, l1, l2)
        else
          do (sieve, l1) <- step sieve l1;
          if multipleIndex l2 >=? sieveSize then Ok (sieve, l0, l1, l2)
          else
            do (sieve, l2) <- step sieve l2;
            lanes3 fuel sieveSize sieve l0 l1 l2
    end
  else Ok (sieve, l0, l1, l2).

(** The body of the first [for] loop: three records at once. *)
Definition crossOff3 (fuel : nat) (sieveSize : Z) (sieve : Sieve)
    (p0 p1 p2 : SievingPrime) : result (Sieve * list SievingPrime) :=
  do (sieve, l0, l1, l2) <- lanes3 fuel sieveSize sieve (load p0) (load p1) (load p2);
  do (sieve, l0) <- lane fuel sieveSize sieve l0;
  do (sieve, l1) <- lane fuel sieveSize sieve l1;
  do (sieve, l2) <- lane fuel sieveSize sieve l2;
  Ok (sieve, [store sieveSize l0 p0; store sieveSize l1 p1; store sieveSize l2 p2]).

(** The body of the second [for] loop: one record. *)
Definition crossOff1 (fuel : nat) (sieveSize : Z) (sieve : Sieve)
    (p : SievingPrime) : result (Sieve * SievingPrime) :=
  do (sieve, l) <- lane fuel sieveSize sieve (load p);
  Ok (sieve, store sieveSize l p).

(** [for (; primes <= back; primes++)] over the records from [primes] on. *)
Fixpoint crossOffRest (fuel : nat) (sieveSize : Z) (sieve : Sieve)
    (primes : list SievingPrime) : result (Sieve * list SievingPrime) :=
  match primes with
  | [] => Ok (sieve, [])
  | p :: primes =>
      do (sieve, p) <- crossOff1 fuel sieveSize sieve p;
      do (sieve, primes) <- crossOffRest fuel sieveSize sieve primes;
      Ok (sieve, p :: primes)
  end.

(** [for (; primes + 3 <= back; primes += 3)] followed by the second loop.
    The argument is the part of the vector from [primes] on; [back] is its
    last element, so [primes + 3 <= back] says that it has at least four
    elements. *)
Fixpoint crossOffLoops (fuel : nat) (sieveSize : Z) (sieve : Sieve)
    (primes : list SievingPrime) : result (Sieve * list SievingPrime) :=
  match primes with
  | p0 :: p1 :: p2 :: ((_ :: _) as primes') =>
      do (sieve, done) <- crossOff3 fuel sieveSize sieve p0 p1 p2;
      do (sieve, primes') <- crossOffLoops fuel sieveSize sieve primes';
      Ok (sieve, done ++ primes')
  | _ => crossOffRest fuel sieveSize sieve primes
  end.

(** [EratMedium::crossOff(sieve, sieveSize)].  [&primes_[0]] and
    [&primes_.back()] are evaluated first and are undefined on an empty
    vector. *)
Definition crossOff (fuel : nat) (sieve : Sieve) (sieveSize : Z) (e : EratMedium)
    : result (Sieve * EratMedium) :=
  do _ <- of_option EmptyVector (primes_ e !! 0%nat);
  do _ <- of_option EmptyVector (last (primes_ e));
  do (sieve, primes) <- crossOffLoops fuel sieveSize sieve (primes_ e);
  Ok (sieve, mkEratMedium (stop_ e) (sieveSize_ e) (maxPrime_ e) primes).

End EratMedium.

(** ** What the wheel and the sieve stand for *)

Module Meaning.
Import Wheel.

(** [c] has no common factor with the wheel modulus [m]. *)
Definition coprimeb (m c : Z) : bool := Z.gcd c m =? 1.

Fixpoint scan (m : Z) (fuel : nat) (x : Z) : Z :=
  match fuel with
  | O => x
  | S fuel => if coprimeb m x then x else scan m fuel (x + 1)
  end.

(** The least number above [c] that is coprime to [m]: the cofactor of
    the multiple that follows [p * c] on the wheel of modulus [m]. *)
Definition nextCoprime (m c : Z) : Z := scan m (Z.to_nat m) (c + 1).

(** The least number from [c] on that is coprime to [m]. *)
Definition firstCoprime (m c : Z) : Z := scan m (Z.to_nat m) c.

(** The position of [x] in [l] (the length of [l] if it is not there). *)
Fixpoint posOf (x : Z) (l : list Z) : nat :=
  match l with
  | [] => O
  | y :: l => if y =? x then O else S (posOf x l)
  end.

(** The wheel index of the multiple [p * c] of the sieving prime [p]: the
    residue of [p] modulo 30 selects a block of the table, the residue of
    the cofactor [c] modulo [m] the spoke inside it. *)
Definition wheelIndexOf (m p c : Z) : Z :=
  Z.of_nat (posOf (p mod 30) residues * length (spokes m)
            + posOf (c mod m) (spokes m)).

(** The integer that bit [b] of byte [k] stands for, in a segment whose
    byte 0 covers [[30 * low, 30 * low + 30)]. *)
Definition number (low : Z) (k : nat) (b : nat) : Z :=
  30 * (low + Z.of_nat k) + residue b.

(** The record [r] is positioned at the multiple [p * c] of the prime [p],
    seen from a segment that starts at [30 * low]. *)
Definition at_multiple (m low p c : Z) (r : SievingPrime) : Prop :=
  getSievingPrime r = p / 30 /\
  getMultipleIndex r = (p * c) / 30 - low /\
  getWheelIndex r = wheelIndexOf m p c.

(** The record of the prime [p] positioned at its multiple [p * c]. *)
Definition recordAt (m low p c : Z) : SievingPrime :=
  mkSievingPrime (p / 30) ((p * c) / 30 - low) (wheelIndexOf m p c).

(** The same for the local variables of a loop. *)
Definition lane_at (m low p c : Z) (l : Lane) : Prop :=
  sievingPrime l = p / 30 /\
  multipleIndex l = (p * c) / 30 - low /\
  wheelIndex l = wheelIndexOf m p c.

(** Every multiple of [p] with a cofactor coprime to [m] from [c0] up to
    [c] (excluded) lies before the end of the segment of [sieveSize] bytes
    that starts at [30 * low], and [c] is coprime to [m] itself. *)
Definition reached (m low sieveSize p c0 c : Z) : Prop :=
  c0 <= c /\ coprimeb m c = true /\
  forall x, c0 <= x < c -> coprimeb m x = true -> (p * x) / 30 - low < sieveSize.

(** [c] is the cofactor with which the prime [p], positioned at [p * c0],
    leaves that segment: the first one whose multiple lies beyond it. *)
Definition exit_of (m low sieveSize p c0 c : Z) : Prop :=
  reached m low sieveSize p c0 c /\ sieveSize <= (p * c) / 30 - low.

(** The loop variables [l] stand at the multiple [p * c], having started
    in this segment at [p * c0]. *)
Definition tracked (m low sieveSize p c0 c : Z) (l : Lane) : Prop :=
  lane_at m low p c l /\ reached m low sieveSize p c0 c /\
  0 <= multipleIndex l < 2 ^ 63.

(** A number that can be held as a sieving prime: it has a bit in the
    sieve and fits the scaled-prime field. *)
Definition prime_ok (p : Z) : Prop := coprimeb 30 p = true /\ 0 < p < 2 ^ 32.

(** The record [r] of an engine on the wheel of modulus [m] belongs to the
    prime [fst g] and is positioned at its multiple of cofactor [snd g]. *)
Definition stored (m low : Z) (g : Z * Z) (r : SievingPrime) : Prop :=
  at_multiple m low (fst g) (snd g) r /\
  prime_ok (fst g) /\ coprimeb m (snd g) = true /\
  0 <= getMultipleIndex r < 2 ^ 63.

(** The multiples of [p] with a cofactor coprime to [m], from [p * c0] on. *)
Definition multiples_from (m p c0 x : Z) : Prop :=
  exists c, c0 <= c /\ coprimeb m c = true /\ x = p * c.

(** After [crossOff] on the segment of [sieveSize] bytes at [30 * low], the
    record [r'] of the prime [fst g], which stood at cofactor [snd g]: it
    stands at the cofactor [c'] with which the prime left the segment, its
    multiple index is the byte offset of that multiple less [sieveSize],
    and nothing wrapped around. *)
Definition written_back (m low sieveSize : Z) (g : Z * Z) (r' : SievingPrime) : Prop :=
  exists c',
    exit_of m low sieveSize (fst g) (snd g) c' /\
    getSievingPrime r' = fst g / 30 /\
    getMultipleIndex r' = ((fst g * c') / 30 - low) - sieveSize /\
    0 <= getMultipleIndex r' < 2 ^ 63 /\
    getWheelIndex r' = wheelIndexOf m (fst g) c'.

(** [x] is such a multiple for one of the primes of [ghosts], a list of
    pairs of a prime and the cofactor of its next multiple. *)
Definition crossed (m : Z) (ghosts : list (Z * Z)) (x : Z) : Prop :=
  exists g, In g ghosts /\ multiples_from m (fst g) (snd g) x.

(** [g'] is [g] after its prime has left the segment. *)
Definition advanced (m low sieveSize : Z) (g g' : Z * Z) : Prop :=
  fst g' = fst g /\ exit_of m low sieveSize (fst g) (snd g) (snd g').

(** The entry of the table [WHEEL] for the multiple [r * q] is the one the
    spec describes. *)
Definition entry_ok (m : Z) (WHEEL : list WheelElement) (r q : Z) : bool :=
  match WHEEL !! Z.to_nat (wheelIndexOf m r q) with
  | None => false
  | Some w =>
      let q' := nextCoprime m q in
      let b := bitIndex ((r * q) mod 30) in
      (bitMask w =? 2 ^ b) && (0 <=? b) && (b <? 8)
      && (residue (Z.to_nat b) =? (r * q) mod 30)
      && (byteInc w =? q' - q)
      && (extraInc w =? (r * q') / 30 - (r * q) / 30)
      && (nextWheelIndex w =? wheelIndexOf m r q')
  end.

Definition table_ok (m : Z) (WHEEL : list WheelElement) : bool :=
  forallb (fun r => forallb (entry_ok m WHEEL r) (spokes m)) residues.

(** [x] is a multiple [p * c] of [p] whose cofactor [c] is coprime to [m]
    and lies in [[c0, c1)]. *)
Definition multiple_between (m p c0 c1 x : Z) : Prop :=
  exists c, c0 <= c < c1 /\ coprimeb m c = true /\ x = p * c.

(** [sieve'] is [sieve] with exactly the bits of the numbers in [S]
    cleared. *)
Definition cleared (low : Z) (S : Z -> Prop) (sieve sieve' : Sieve) : Prop :=
  length sieve' = length sieve /\
  forall (k : nat) (byte : Z), sieve !! k = Some byte ->
    exists byte', sieve' !! k = Some byte' /\
      (forall b, (b < 8)%nat ->
         (S (number low k b) -> Z.testbit byte' (Z.of_nat b) = false) /\
         (~ S (number low k b) ->
            Z.testbit byte' (Z.of_nat b) = Z.testbit byte (Z.of_nat b))) /\
      (forall i, 8 <= i -> Z.testbit byte' i = Z.testbit byte i).

(** A small engine for concrete checks: five primes, each at its square,
    in front of the segment [[0, 15360)] of 512 bytes. *)
Definition demo_ghosts : list (Z * Z) :=
  [(101, 101); (103, 103); (107, 107); (109, 109); (113, 113)].

Definition demo_engine : EratMedium.EratMedium :=
  EratMedium.mkEratMedium 15359 512 2560
    (map (fun g => recordAt 210 0 (fst g) (snd g)) demo_ghosts).

Definition demo_sieve : Sieve := repeat 255 512.

(** A call is defined when it does not read an empty vector (the reads
    [primes_[0]] and [primes_.back()] of [crossOff]). *)
Definition defined {A} (r : result A) : Prop := r <> Err EmptyVector.

End Meaning.

(** ** The engines for small and for big sieving primes *)

Module EratSmall.
Import Wheel.

(** Modelled from the spec: the EratSmall engine (section 4.3; its source
    is not in src/).  It runs on the mod-30 wheel; each sieving prime is
    crossed off until its multiple index reaches [sieveSize], and
    [multipleIndex - sieveSize] and the wheel index are written back.  The
    8-way unrolling of the inner loop is a matter of speed and is not
    modelled. *)
Record EratSmall : Type := mkEratSmall {
  stop_ : Z;
  sieveSize_ : Z;
  maxPrime_ : Z;
  primes_ : list SievingPrime
}.

(** Modelled from the spec: construction rejects [sieveSize > 4096 KiB]. *)
Definition new (stop sieveSize maxPrime : Z) : result EratSmall :=
  if sieveSize >? Z.shiftl 4096 10 then
    Err (primesieve_error "EratSmall: sieveSize must be <= 4096 kilobytes")
  else Ok (mkEratSmall stop sieveSize maxPrime []).

Definition storeSievingPrime (prime multipleIndex wheelIndex : Z)
    (e : EratSmall) : EratSmall :=
  mkEratSmall (stop_ e) (sieveSize_ e) (maxPrime_ e)
    (primes_ e ++ [mkSievingPrime (prime / NUMBERS_PER_BYTE) multipleIndex wheelIndex]).

Fixpoint crossOffEach (fuel : nat) (sieveSize : Z) (sieve : Sieve)
    (primes : list SievingPrime) : result (Sieve * list SievingPrime) :=
  match primes with
  | [] => Ok (sieve, [])
  | p :: primes =>
      do (sieve, l) <- lane wheel30 fuel sieveSize sieve (load p);
      do (sieve, primes) <- crossOffEach fuel sieveSize sieve primes;
      Ok (sieve, store sieveSize l p :: primes)
  end.

Definition crossOff (fuel : nat) (sieve : Sieve) (sieveSize : Z) (e : EratSmall)
    : result (Sieve * EratSmall) :=
  do (sieve, primes) <- crossOffEach fuel sieveSize sieve (primes_ e);
  Ok (sieve, mkEratSmall (stop_ e) (sieveSize_ e) (maxPrime_ e) primes).

End EratSmall.

Module EratBig.
Import Wheel.

(** Modelled from the spec: the EratBig engine (section 4.5; its source is
    not in src/).  It runs on the mod-210 wheel.  Every record sits in the
    bucket of the segment of its next multiple; a bucket is named here by
    its distance from the current segment (0 is the bucket that is drained
    now), which is what the index modulo the array size stands for, and the
    multiple index of a record is relative to its own segment.  Pages,
    arena and free list are memory management and are not modelled; a
    record is kept to the end of the run. *)
Record EratBig : Type := mkEratBig {
  stop_ : Z;
  sieveSize_ : Z;
  maxPrime_ : Z;
  buckets_ : list (Z * SievingPrime)
}.

Definition new (stop sieveSize maxPrime : Z) : result EratBig :=
  if sieveSize >? Z.shiftl 4096 10 then
    Err (primesieve_error "EratBig: sieveSize must be <= 4096 kilobytes")
  else Ok (mkEratBig stop sieveSize maxPrime []).

(** The record goes to the bucket of the segment of its next multiple. *)
Definition storeSievingPrime (prime multipleIndex wheelIndex : Z)
    (e : EratBig) : EratBig :=
  let segment := multipleIndex / sieveSize_ e in
  let multipleIndex := multipleIndex mod sieveSize_ e in
  mkEratBig (stop_ e) (sieveSize_ e) (maxPrime_ e)
    (buckets_ e ++ [(segment, mkSievingPrime (prime / NUMBERS_PER_BYTE) multipleIndex wheelIndex)]).

(** A record of the current bucket fires: its multiples in the segment are
    crossed off and it moves to the bucket of its next multiple.  The other
    buckets come one segment closer. *)
Definition fire (fuel : nat) (sieveSize : Z) (sieve : Sieve)
    (b : Z * SievingPrime) : result (Sieve * (Z * SievingPrime)) :=
  if fst b =? 0 then
    do (sieve, l) <- lane wheel210 fuel sieveSize sieve (load (snd b));
    let multipleIndex := wrap64 (multipleIndex l - sieveSize) in
    let segment := multipleIndex / sieveSize in
    let multipleIndex := multipleIndex mod sieveSize in
    Ok (sieve, (segment, set multipleIndex (wheelIndex l) (snd b)))
  else Ok (sieve, (fst b - 1, snd b)).

Fixpoint drain (fuel : nat) (sieveSize : Z) (sieve : Sieve)
    (buckets : list (Z * SievingPrime)) : result (Sieve * list (Z * SievingPrime)) :=
  match buckets with
  | [] => Ok (sieve, [])
  | b :: buckets =>
      do (sieve, b) <- fire fuel sieveSize sieve b;
      do (sieve, buckets) <- drain fuel sieveSize sieve buckets;
      Ok (sieve, b :: buckets)
  end.

Definition crossOff (fuel : nat) (sieve : Sieve) (sieveSize : Z) (e : EratBig)
    : result (Sieve * EratBig) :=
  do (sieve, buckets) <- drain fuel sieveSize sieve (buckets_ e);
  Ok (sieve, mkEratBig (stop_ e) (sieveSize_ e) (maxPrime_ e) buckets).

End EratBig.

(** ** The pre-sieve and the scan of a finished segment *)

Module PreSieve.
Import Wheel Meaning.

(** Modelled from the spec: the primes whose multiples the pre-sieve
    pattern removes (section 2: "the first few primes (7..19)"). *)
Definition primes : list Z := [7; 11; 13; 17; 19].

(** The pattern repeats after this many bytes. *)
Definition size : Z := 7 * 11 * 13 * 17 * 19.

(** The byte whose bit [b] is [f b]. *)
Definition byteOf (f : nat -> bool) : Z :=
  fold_right (fun b acc => if f b then Z.lor (2 ^ Z.of_nat b) acc else acc) 0 (seq 0 8).

Definition hasFactor (n : Z) : bool := existsb (fun q => n mod q =? 0) primes.

(** Byte [j] of the static pattern: the bits of the multiples of 7..19 are
    unset. *)
Definition pattern (j : Z) : Z := byteOf (fun b => negb (hasFactor (30 * j + residue b))).

(** [n] bytes of the pattern from position [j] on, wrapping around at its
    end. *)
Fixpoint copy (n : nat) (j : Z) : Sieve :=
  match n with
  | O => []
  | S n => pattern (j mod size) :: copy n (j + 1)
  end.

(** A fresh segment of [sieveSize] bytes that starts at [30 * low]: the
    pattern, copied from the position that matches the start of the
    segment. *)
Definition apply (low sieveSize : Z) : Sieve := copy (Z.to_nat sieveSize) low.

End PreSieve.

Module Scan.
Import Wheel Meaning PreSieve.

(** [f] applied to every byte, together with the index of the byte counted
    from [low]. *)
Fixpoint mapBytes {A} (f : Z -> Z -> A) (low : Z) (sieve : Sieve) : list A :=
  match sieve with
  | [] => []
  | byte :: sieve => f low byte :: mapBytes f (low + 1) sieve
  end.

(** Clear the bits of the numbers below [start]. *)
Definition clearBelow (start low : Z) (sieve : Sieve) : Sieve :=
  mapBytes (fun k byte => Z.land byte (byteOf (fun b => start <=? 30 * k + residue b)))
    low sieve.

(** Clear the bits of the numbers above [stop]. *)
Definition clearAbove (stop low : Z) (sieve : Sieve) : Sieve :=
  mapBytes (fun k byte => Z.land byte (byteOf (fun b => 30 * k + residue b <=? stop)))
    low sieve.

(** The bits set in a byte. *)
Definition bitsOf (byte : Z) : list nat :=
  List.filter (fun b => Z.testbit byte (Z.of_nat b)) (seq 0 8).

(** Modelled from the spec: the 256-entry popcount table of the prime-count
    scan (section 4.1). *)
Definition popcount (byte : Z) : Z := Z.of_nat (length (bitsOf byte)).

(** The count of a segment. *)
Definition count (low : Z) (sieve : Sieve) : Z :=
  fold_right (fun byte acc => popcount byte + acc) 0 sieve.

(** The numbers of a segment whose bit is set, in the order in which the
    scan meets them: the arguments of the callback. *)
Definition numbers (low : Z) (sieve : Sieve) : list Z :=
  concat (mapBytes (fun k byte => map (fun b => 30 * k + residue b) (bitsOf byte))
            low sieve).

End Scan.

(** ** What a sieve stands for *)

Module Segment.
Import Wheel Meaning.

(** The bits set in [sieve], a segment that starts at [30 * low], are those
    of the numbers with the property [P]. *)
Definition represents (low : Z) (P : Z -> Prop) (sieve : Sieve) : Prop :=
  forall (k : nat) (byte : Z), sieve !! k = Some byte ->
    (forall b, (b < 8)%nat ->
       (Z.testbit byte (Z.of_nat b) = true <-> P (number low k b))) /\
    (forall i, 8 <= i -> Z.testbit byte i = false).

(** A record of the big engine: [fst b] segments ahead, and positioned for
    that segment. *)
Definition bucketed (sieveSize low : Z) (g : Z * Z) (b : Z * SievingPrime) : Prop :=
  0 <= fst b /\ stored 210 (low + fst b * sieveSize) g (snd b).

(** From the segment at [30 * low] to the next one, the prime of [g] has
    moved to the cofactor of [g']: the multiples in between lie before the
    next segment, the one of [g'] does not. *)
Definition moved (m low sieveSize : Z) (g g' : Z * Z) : Prop :=
  fst g' = fst g /\ snd g <= snd g' /\
  (forall x, snd g <= x < snd g' -> coprimeb m x = true ->
     fst g * x < 30 * (low + sieveSize)) /\
  30 * (low + sieveSize) <= fst g * snd g'.

(** Before the segment at [30 * low] of a run from [start]: the prime of
    [g] exceeds 1, its next multiple is at least its square, and the
    multiples from the square on that were passed lie below the segment
    or below [start]. *)
Definition pending (m start low : Z) (g : Z * Z) : Prop :=
  1 < fst g /\ fst g <= snd g /\
  forall x, fst g <= x < snd g -> coprimeb m x = true ->
    fst g * x < Z.max start (30 * low).

End Segment.

(** ** The segment driver *)

Module PrimeSieve.
Import Wheel Meaning.

(** Modelled from the spec: the fixed table of the small primes that the
    pre-pass reports (section 4.6: "primes <= 19 via a fixed lookup"). *)
Definition smallPrimeTable : list Z := [2; 3; 5; 7; 11; 13; 17; 19].

Definition preSieveLimit : Z := 19.

Definition smallPrimes (start stop : Z) : list Z :=
  List.filter (fun q => (start <=? q) && (q <=? stop)) smallPrimeTable.

(** The three engines of a worker. *)
Record Engines : Type := mkEngines {
  eratSmall : EratSmall.EratSmall;
  eratMedium : EratMedium.EratMedium;
  eratBig : EratBig.EratBig
}.

(** The cofactor of the first multiple of [p] that is at least
    [max (p * p) start] and lies on the wheel of modulus [m]. *)
Definition firstCofactor (m start p : Z) : Z :=
  firstCoprime m (Z.max p ((start + p - 1) / p)).

(** The cross-off loops of one segment take at most [30 * sieveSize]
    steps. *)
Definition loopFuel (sieveSize : Z) : nat := Z.to_nat (30 * sieveSize).

(** The recursion on the square root halves the number of bits. *)
Definition depthFor (stop : Z) : nat := Z.to_nat (Z.log2 stop).

Fixpoint foldM {A B} (f : B -> A -> result A) (l : list B) (a : A) : result A :=
  match l with
  | [] => Ok a
  | b :: l => do a <- f b a; foldM f l a
  end.

Section Driver.

(** The tunable of section 4.3: primes up to [sieveSize / r_s] are small. *)
Variable r_s : Z.

(** Modelled from the spec (section 4.6): the engines of a run; the medium
    engine takes the primes up to [sieveSize * 5]. *)
Definition newEngines (stop sieveSize : Z) : result Engines :=
  do es <- EratSmall.new stop sieveSize (sieveSize / r_s);
  do em <- EratMedium.new stop sieveSize (sieveSize * 5);
  do eb <- EratBig.new stop sieveSize (Z.sqrt stop);
  Ok (mkEngines es em eb).

(** Modelled from the spec (section 4.6): a sieving prime is positioned at
    its first multiple, relative to the first segment, and goes to the
    engine of its regime. *)
Definition addSievingPrime (start low : Z) (p : Z) (e : Engines) : result Engines :=
  if p <=? preSieveLimit then Ok e
  else if p <=? EratSmall.maxPrime_ (eratSmall e) then
    let c := firstCofactor 30 start p in
    Ok (mkEngines
          (EratSmall.storeSievingPrime p ((p * c) / 30 - low) (wheelIndexOf 30 p c) (eratSmall e))
          (eratMedium e) (eratBig e))
  else if p <=? EratMedium.maxPrime_ (eratMedium e) then
    let c := firstCofactor 210 start p in
    do em <- EratMedium.storeSievingPrime p ((p * c) / 30 - low) (wheelIndexOf 210 p c) (eratMedium e);
    Ok (mkEngines (eratSmall e) em (eratBig e))
  else
    let c := firstCofactor 210 start p in
    Ok (mkEngines (eratSmall e) (eratMedium e)
          (EratBig.storeSievingPrime p ((p * c) / 30 - low) (wheelIndexOf 210 p c) (eratBig e))).

(** Step 4: the three engines in order.  [EratMedium::crossOff] is only
    defined on an engine that holds a prime, so an empty one is skipped. *)
Definition crossOff (sieve : Sieve) (sieveSize : Z) (e : Engines) : result (Sieve * Engines) :=
  let fuel := loopFuel sieveSize in
  do (sieve, es) <- EratSmall.crossOff fuel sieve sieveSize (eratSmall e);
  do (sieve, em) <-
    match EratMedium.primes_ (eratMedium e) with
    | [] => Ok (sieve, eratMedium e)
    | _ :: _ => EratMedium.crossOff fuel sieve sieveSize (eratMedium e)
    end;
  do (sieve, eb) <- EratBig.crossOff fuel sieve sieveSize (eratBig e);
  Ok (sieve, mkEngines es em eb).

(** Steps 1 to 4 for the segment that starts at [30 * low]. *)
Definition sieveSegment (start stop sieveSize low : Z) (first last : bool)
    (e : Engines) : result (Sieve * Engines) :=
  let sieve := PreSieve.apply low sieveSize in
  let sieve := if first then Scan.clearBelow start low sieve else sieve in
  let sieve := if last then Scan.clearAbove stop low sieve else sieve in
  crossOff sieve sieveSize e.

(** The segments from [30 * low] on, [n] of them, each scanned by [scan]
    (step 5) as soon as it is finished. *)
Fixpoint segments {A} (scan : Z -> Sieve -> A) (start stop sieveSize : Z)
    (n : nat) (low : Z) (first : bool) (e : Engines) : result (list A) :=
  match n with
  | O => Ok []
  | S n =>
      let last := match n with O => true | S _ => false end in
      do (sieve, e) <- sieveSegment start stop sieveSize low first last e;
      do rest <- segments scan start stop sieveSize n (low + sieveSize) false e;
      Ok (scan low sieve :: rest)
  end.

(** Modelled from the spec (section 4.6): the sieve of [[start, stop]] with
    the given sieving primes.  The numbers up to 19 belong to the lookup of
    the small primes, so the sieve proper starts at 20 at the earliest; its
    first segment starts at the multiple of 30 below, so that the bits of a
    byte stand for the residues coprime to 30. *)
Definition sieve {A} (scan : Z -> Sieve -> A) (sievingPrimes : list Z)
    (start stop sieveSize : Z) : result (list A) :=
  let start := Z.max start (preSieveLimit + 1) in
  if start >? stop then Ok []
  else
    let low := start / 30 in
    do e <- newEngines stop sieveSize;
    do e <- foldM (addSievingPrime start low) sievingPrimes e;
    segments scan start stop sieveSize
      (Z.to_nat ((stop / 30 - low) / sieveSize + 1)) low true e.

(** Modelled from the spec (section 4.6): the sieving primes, all primes
    up to [sqrt stop], come from a recursive run of the sieve. *)
Fixpoint sievingPrimes (depth : nat) (sieveSize stop : Z) : result (list Z) :=
  let limit := Z.sqrt stop in
  if limit <=? preSieveLimit then Ok []
  else
    match depth with
    | O => Err OutOfFuel
    | S depth =>
        do sp <- sievingPrimes depth sieveSize limit;
        do found <- sieve Scan.numbers sp 0 limit sieveSize;
        Ok (smallPrimes 0 limit ++ concat found)
    end.

(** [generatePrimes(start, stop, callback)]: the arguments of the calls of
    the callback, in the order of the calls. *)
Definition generatePrimes (sieveSize start stop : Z) : result (list Z) :=
  if start >? stop then Err (primesieve_error "STOP must be >= START")
  else
    do sp <- sievingPrimes (depthFor stop) sieveSize stop;
    do found <- sieve Scan.numbers sp start stop sieveSize;
    Ok (smallPrimes start stop ++ concat found).

(** [countPrimes(start, stop)]: the small primes of the lookup plus the
    popcounts of the segments. *)
Definition countPrimes (sieveSize start stop : Z) : result Z :=
  if start >? stop then Err (primesieve_error "STOP must be >= START")
  else
    do sp <- sievingPrimes (depthFor stop) sieveSize stop;
    do counts <- sieve Scan.count sp start stop sieveSize;
    Ok (Z.of_nat (length (smallPrimes start stop)) + fold_right Z.add 0 counts).

End Driver.

(** The scans of a list of finished segments, the first of which starts
    at [30 * low]. *)
Fixpoint scanned {A} (scan : Z -> Sieve -> A) (sieveSize low : Z)
    (sieves : list Sieve) : list A :=
  match sieves with
  | [] => []
  | s :: sieves => scan low s :: scanned scan sieveSize (low + sieveSize) sieves
  end.

(** Every one of these segments has [sieveSize] bytes and holds the numbers
    with the property [P]. *)
Fixpoint finished (P : Z -> Prop) (sieveSize low : Z) (sieves : list Sieve) : Prop :=
  match sieves with
  | [] => True
  | s :: sieves =>
      length s = Z.to_nat sieveSize /\ Segment.represents low P s /\
      finished P sieveSize (low + sieveSize) sieves
  end.

(** The engines hold records for the ghosts [gsS], [gsM] and [gsB],
    positioned for the segment at [30 * low] of a run from [start]. *)
Definition engines_at (start sieveSize low : Z) (gsS gsM gsB : list (Z * Z))
    (e : Engines) : Prop :=
  Forall2 (stored 30 low) gsS (EratSmall.primes_ (eratSmall e)) /\
  Forall2 (stored 210 low) gsM (EratMedium.primes_ (eratMedium e)) /\
  Forall2 (Segment.bucketed sieveSize low) gsB (EratBig.buckets_ (eratBig e)) /\
  Forall (Segment.pending 30 start low) gsS /\
  Forall (Segment.pending 210 start low) gsM /\
  Forall (Segment.pending 210 start low) gsB.

(** With [depth] levels of recursion the sieving primes are found for
    every [stop] below this bound. *)
Fixpoint depthBound (depth : nat) : Z :=
  match depth with
  | O => 400
  | S depth => depthBound depth * depthBound depth
  end.

(** One of the engines holds the prime [p]. *)
Definition held (gsS gsM gsB : list (Z * Z)) (p : Z) : Prop :=
  In p (map fst gsS) \/ In p (map fst gsM) \/ In p (map fst gsB).

(** What the three engines cross off. *)
Definition crossedAll (gsS gsM gsB : list (Z * Z)) (x : Z) : Prop :=
  crossed 30 gsS x \/ crossed 210 gsM x \/ crossed 210 gsB x.

End PrimeSieve.

(** ** The parallel sieve *)

Module ParallelPrimeSieve.
Import Pmath.

(** Modelled from the spec: the parallel sieve (sections 4.7 and 5; its
    source is not in src/): a sieve size in kilobytes and a number of
    threads. *)
Record ParallelPrimeSieve : Type := mkParallelPrimeSieve {
  sieveSize_ : Z;
  numThreads_ : Z
}.

(** The number of threads of the machine, at least one. *)
Definition getMaxThreads (hardware : Z) : Z := Z.max 1 hardware.

Definition new (hardware : Z) : ParallelPrimeSieve :=
  mkParallelPrimeSieve 32 (getMaxThreads hardware).

(** Modelled from the spec (section 6): the sieve size lies between a
    minimum, here one kilobyte, and 4096 kilobytes. *)
Definition setSieveSize (kilobytes : Z) (pps : ParallelPrimeSieve) : ParallelPrimeSieve :=
  mkParallelPrimeSieve (inBetween 1 kilobytes 4096) (numThreads_ pps).

Definition setNumThreads (hardware threads : Z) (pps : ParallelPrimeSieve)
    : ParallelPrimeSieve :=
  mkParallelPrimeSieve (sieveSize_ pps) (inBetween 1 threads (getMaxThreads hardware)).

Definition sieveBytes (pps : ParallelPrimeSieve) : Z := sieveSize_ pps * 1024.

Definition max_stop : Z := 2 ^ 64 - 1.

Section Run.

Variable r_s : Z.

(** The estimate of the distance from [start] to its nth prime
    (section 4.7: [n * ln(start + n * 20) + padding], a floating-point
    computation). *)
Variable estimate : Z -> Z -> Z.

(** The length of the interval of one worker: a multiple of 30 such that
    the workers cover [[start, stop]]. *)
Definition threadInterval (threads start stop : Z) : Z :=
  30 * ((stop / 30 - start / 30) / threads + 1).

(** Worker [i] counts the primes of its part of [[start, stop]]; the parts
    are cut at multiples of 30. *)
Definition worker (sieveSize start stop interval : Z) (i : nat) : result Z :=
  let low := 30 * (start / 30) + Z.of_nat i * interval in
  let a := Z.max start low in
  let b := Z.min stop (low + interval - 1) in
  if a >? b then Ok 0
  else PrimeSieve.countPrimes r_s sieveSize a b.

Fixpoint join (counts : list (result Z)) : result Z :=
  match counts with
  | [] => Ok 0
  | c :: counts => do x <- c; do y <- join counts; Ok (x + y)
  end.

(** Modelled from the spec (section 5): the interval is split into
    disjoint aligned intervals, one per worker, and the results are merged
    after joining. *)
Definition countPrimes (pps : ParallelPrimeSieve) (start stop : Z) : result Z :=
  if start >? stop then Err (primesieve_error "STOP must be >= START")
  else
    let threads := numThreads_ pps in
    let interval := threadInterval threads start stop in
    join (map (worker (sieveBytes pps) start stop interval) (seq 0 (Z.to_nat threads))).

(** Modelled from the spec (section 4.7): sieve the estimated interval and
    count; with fewer than [n] primes, extend beyond it; otherwise locate
    the nth one. *)
Fixpoint nthPrimeForward (fuel : nat) (sieveSize n start : Z) : result Z :=
  match fuel with
  | O => Err OutOfFuel
  | S fuel =>
      if start >? max_stop then Err (primesieve_error "nth prime > 2^64")
      else
        let stop := Z.min max_stop (start + Z.max 0 (estimate n start)) in
        do primes <- PrimeSieve.generatePrimes r_s sieveSize start stop;
        let count := Z.of_nat (length primes) in
        if count <? n then nthPrimeForward fuel sieveSize (n - count) (stop + 1)
        else of_option OutOfFuel (primes !! Z.to_nat (n - 1))
  end.

(** The same downwards, for a negative [n]: the nth prime at or below
    [stop]. *)
Fixpoint nthPrimeBackward (fuel : nat) (sieveSize n stop : Z) : result Z :=
  match fuel with
  | O => Err OutOfFuel
  | S fuel =>
      if stop <? 2 then Err (primesieve_error "nth prime < 2")
      else
        let start := Z.max 0 (stop - Z.max 0 (estimate n stop)) in
        do primes <- PrimeSieve.generatePrimes r_s sieveSize start stop;
        let count := Z.of_nat (length primes) in
        if count <? n then nthPrimeBackward fuel sieveSize (n - count) (start - 1)
        else of_option OutOfFuel (primes !! Z.to_nat (count - n))
  end.

Definition nthPrime (fuel : nat) (pps : ParallelPrimeSieve) (n start : Z) : result Z :=
  if n >? 0 then nthPrimeForward fuel (sieveBytes pps) n start
  else if n <? 0 then nthPrimeBackward fuel (sieveBytes pps) (- n) start
  else Err (primesieve_error "nth prime: n must not be 0").

End Run.

End ParallelPrimeSieve.

(** ** api.cpp *)

Module Api.
Import Pmath.

(** The two file-level globals of api.cpp. *)
Record Globals : Type := mkGlobals {
  sieve_size : Z;   (* int, kilobytes; 0 = not set *)
  num_threads : Z   (* int; 0 = not set *)
}.

Definition initial : Globals := mkGlobals 0 0.

(** What [cpuInfo] reports (CpuInfo.hpp is not among the sources): three
    cache sizes in bytes, each a [size_t]. *)
Record CpuInfo : Type := mkCpuInfo {
  l1CacheSize : Z;
  l2CacheSize : Z;
  l3CacheSize : Z
}.

Definition set_sieve_size (kilobytes : Z) (g : Globals) : Globals :=
  let s := inBetween 1 kilobytes 2048 in
  let s := floorPow2 s in
  mkGlobals s (num_threads g).

Definition get_sieve_size (cpuInfo : CpuInfo) (g : Globals) : Z :=
  if negb (sieve_size g =? 0) then sieve_size g
  else
    let l1 := l1CacheSize cpuInfo / 1024 in
    let l2 := l2CacheSize cpuInfo / 1024 in
    let l3 := l3CacheSize cpuInfo / 1024 in
    if (l2 >? l1) && (l2 >? 0) && (l3 >? 0) then
      let l2 := inBetween 32 l2 2048 in
      floorPow2 l2
    else
      let l1 := if l1 =? 0 then 32 else l1 in
      let l1 := inBetween 8 l1 2048 in
      floorPow2 l1.

(** The size in bytes that a setting in kilobytes stands for. *)
Definition bytes_of_kilobytes (kb : Z) : Z := kb * 1024.

(** [std::numeric_limits<uint64_t>::max()]. *)
Definition get_max_stop : Z := 2 ^ 64 - 1.

Section Calls.

(** What the machine reports, and the two quantities that the spec leaves
    open: the tunable [r_s] of the small regime and the estimate of the
    distance to the nth prime. *)
Variable cpuInfo : CpuInfo.
Variable maxThreads : Z.
Variable r_s : Z.
Variable estimate : Z -> Z -> Z.

Definition get_num_threads (g : Globals) : Z :=
  if negb (num_threads g =? 0) then num_threads g
  else ParallelPrimeSieve.getMaxThreads maxThreads.

Definition set_num_threads (threads : Z) (g : Globals) : Globals :=
  mkGlobals (sieve_size g)
    (inBetween 1 threads (ParallelPrimeSieve.getMaxThreads maxThreads)).

Definition configured (g : Globals) : ParallelPrimeSieve.ParallelPrimeSieve :=
  let pps := ParallelPrimeSieve.new maxThreads in
  let pps := ParallelPrimeSieve.setSieveSize (get_sieve_size cpuInfo g) pps in
  ParallelPrimeSieve.setNumThreads maxThreads (get_num_threads g) pps.

(** [nth_prime(n, start)]; [fuel] bounds the rounds of the search. *)
Definition nth_prime (fuel : nat) (g : Globals) (n start : Z) : result Z :=
  ParallelPrimeSieve.nthPrime r_s estimate fuel (configured g) n start.

(** [count_primes(start, stop)]. *)
Definition count_primes (g : Globals) (start stop : Z) : result Z :=
  ParallelPrimeSieve.countPrimes r_s (configured g) start stop.

End Calls.

End Api.


(** ** The reference *)

Module Oracle.

(** Trial division by every number from 2 to [n - 1]. *)
Definition trialDivision (n : Z) : bool :=
  (1 <? n) && forallb (fun d => negb (n mod d =? 0))
                (map Z.of_nat (seq 2 (Z.to_nat n - 2))).

(** The numbers from [a] to [b]. *)
Definition range (a b : Z) : list Z :=
  map (fun i => a + Z.of_nat i) (seq 0 (Z.to_nat (b - a + 1))).

Definition primesBetween (a b : Z) : list Z := List.filter trialDivision (range a b).

Definition countBetween (a b : Z) : Z := Z.of_nat (length (primesBetween a b)).

(** The product of the numbers from 1 to [n], for the proof that the
    primes do not end. *)
Fixpoint factorial (n : nat) : Z :=
  match n with
  | O => 1
  | S n => Z.of_nat (S n) * factorial n
  end.

End Oracle.

(** ** [EratMedium::crossOff] seen without the meaning of the records *)

Module Shape.
Import Wheel EratMedium.

(** Every byte of [sieve'] is the byte of [sieve] at the same place with
    some of its bits cleared. *)
Definition only_cleared (sieve sieve' : Sieve) : Prop :=
  Forall2 (fun byte byte' => Z.land byte' byte = byte') sieve sieve'.

(** A record that fits the packed fields and the bounds that the
    constructor of the engine checks, whatever prime and multiple it
    stands for: a scaled prime of at least 1 (a prime from 30 on) with
    [30 * sievingPrime <= sieveSize * 5] (a prime of at most
    [maxPrime <= sieveSize * 5]), a multiple index below 2^23, and a wheel
    index inside the table of 8 * 48 entries. *)
Definition well_formed (sieveSize : Z) (r : SievingPrime) : Prop :=
  1 <= getSievingPrime r /\ 30 * getSievingPrime r <= sieveSize * 5 /\
  0 <= getMultipleIndex r < 2 ^ 23 /\
  0 <= getWheelIndex r < 384.

(** The same for the local variables of a loop, whose multiple index runs
    up to [sieveSize] beyond what is written back. *)
Definition well_formed_lane (sieveSize : Z) (l : Lane) : Prop :=
  1 <= sievingPrime l /\ 30 * sievingPrime l <= sieveSize * 5 /\
  0 <= multipleIndex l < sieveSize + 2 ^ 23 /\
  0 <= wheelIndex l < 384.

(** What the table must give for that: increments that move the multiple
    index forward and a successor inside the table. *)
Definition entry_safe (w : WheelElement) : bool :=
  (2 <=? byteInc w) && (byteInc w <=? 10)
  && (0 <=? extraInc w) && (extraInc w <=? 10)
  && (0 <=? nextWheelIndex w) && (nextWheelIndex w <? 384).

(** The record [r] with its multiple index moved to the next segment and
    nothing else changed. *)
Definition skip (sieveSize : Z) (r : SievingPrime) : SievingPrime :=
  set (getMultipleIndex r - sieveSize) (getWheelIndex r) r.

(** [run sieveSize sieve l n sieve' l']: the loop
    [while (multipleIndex < sieveSize) unsetBit(...)] started on [sieve]
    with the variables [l] ends after [n] iterations on [sieve'] with the
    variables [l']. *)
Inductive run (sieveSize : Z) : Sieve -> Lane -> nat -> Sieve -> Lane -> Prop :=
| run_done sieve l :
    sieveSize <= multipleIndex l -> run sieveSize sieve l 0 sieve l
| run_step sieve l sieve1 l1 n sieve' l' :
    multipleIndex l < sieveSize ->
    step sieve l = Ok (sieve1, l1) ->
    run sieveSize sieve1 l1 n sieve' l' ->
    run sieveSize sieve l (S n) sieve' l'.

(** A witness engine for the statements on well-formed records: four
    records that stand for no particular multiple, in front of 64 bytes. *)
Definition plain_engine : EratMedium :=
  mkEratMedium 1919 64 320
    [mkSievingPrime 1 0 0; mkSievingPrime 2 5 100; mkSievingPrime 3 70 383;
     mkSievingPrime 7 13 48].

Definition plain_sieve : Sieve := repeat 255 64.

(** The same records in the opposite order. *)
Definition shuffled_engine : EratMedium :=
  mkEratMedium 1919 64 320 (rev (primes_ plain_engine)).

(** Four records that all stand beyond a segment of 64 bytes. *)
Definition idle_engine : EratMedium :=
  mkEratMedium 1919 64 320
    [mkSievingPrime 1 64 0; mkSievingPrime 2 100 100; mkSievingPrime 3 70 383;
     mkSievingPrime 7 1000 48].

End Shape.

(** ** The sieving-prime records in their packed form *)

Module Packed.

(** The width of the multiple index in the packed record (section 3 of
    the spec, I5, and the comment in the constructor of [EratMedium]). *)
Definition MULTIPLE_BITS : Z := 23.

Section Layout.

(** The widths of the scaled prime and of the wheel index. *)
Variables primeBits wheelBits : Z.

(** The three fields fit a 64-bit word. *)
Definition layout_ok : Prop :=
  0 <= primeBits /\ 0 <= wheelBits /\ primeBits + MULTIPLE_BITS + wheelBits <= 64.

(** Modelled from the spec: the sieving-prime record of section 3 (its
    class is not in src/), three fields packed in one 64-bit word: the
    scaled prime in the low [primeBits] bits, above it the multiple index
    in 23 bits, above it the wheel index in [wheelBits] bits.  A value is
    cut to the width of its field. *)
Definition pack (sievingPrime multipleIndex wheelIndex : Z) : Z :=
  Z.lor (Z.land sievingPrime (Z.ones primeBits))
    (Z.lor (Z.shiftl (Z.land multipleIndex (Z.ones MULTIPLE_BITS)) primeBits)
       (Z.shiftl (Z.land wheelIndex (Z.ones wheelBits)) (primeBits + MULTIPLE_BITS))).

(** Modelled from the spec: the three fields read back. *)
Definition getSievingPrime (word : Z) : Z := Z.land word (Z.ones primeBits).

Definition getMultipleIndex (word : Z) : Z :=
  Z.land (Z.shiftr word primeBits) (Z.ones MULTIPLE_BITS).

Definition getWheelIndex (word : Z) : Z :=
  Z.land (Z.shiftr word (primeBits + MULTIPLE_BITS)) (Z.ones wheelBits).

(** The record that a word holds. *)
Definition unpack (word : Z) : Wheel.SievingPrime :=
  Wheel.mkSievingPrime (getSievingPrime word) (getMultipleIndex word)
    (getWheelIndex word).

(** The engine as it lies in memory: [primes_] is a vector of words. *)
Record EratMedium : Type := mkEratMedium {
  stop_ : Z;
  sieveSize_ : Z;
  maxPrime_ : Z;
  primes_ : list Z
}.

(** [EratMedium::storeSievingPrime], where
    [primes_.emplace_back(sievingPrime, multipleIndex, wheelIndex)] builds
    the packed record.  The [assert] is a checked precondition, as in the
    engine of triples. *)
Definition storeSievingPrime (prime multipleIndex wheelIndex : Z)
    (e : EratMedium) : result EratMedium :=
  if prime <=? maxPrime_ e then
    let sievingPrime := prime / Wheel.NUMBERS_PER_BYTE in
    Ok (mkEratMedium (stop_ e) (sieveSize_ e) (maxPrime_ e)
          (primes_ e ++ [pack sievingPrime multipleIndex wheelIndex]))
  else Err AssertionFailed.

(** The engine that the words stand for. *)
Definition view (e : EratMedium) : EratMedium.EratMedium :=
  EratMedium.mkEratMedium (stop_ e) (sieveSize_ e) (maxPrime_ e)
    (map unpack (primes_ e)).

End Layout.

End Packed.

(** ** The buffers that reach [EratMedium::crossOff] *)

Module Buffer.
Import Wheel Meaning.

(** The pre-sieve has run over [sieve], a segment that starts at
    [30 * low]: the bit of every multiple of 7 is clear.  The driver hands
    no other buffer to an engine, since it fills every segment with the
    pre-sieve pattern first and the steps in between only clear bits. *)
Definition presieved (low : Z) (sieve : Sieve) : Prop :=
  forall (k b : nat) (byte : Z),
    sieve !! k = Some byte -> (b < 8)%nat ->
    (7 | number low k b) -> Z.testbit byte (Z.of_nat b) = false.

(** A worker whose medium engine is [demo_engine] and whose other engines
    are empty, for concrete checks. *)
Definition demo_engines : PrimeSieve.Engines :=
  PrimeSieve.mkEngines
    (EratSmall.mkEratSmall 399 512 128 [])
    demo_engine
    (EratBig.mkEratBig 399 512 20 []).

End Buffer.

(** ** Sequences of calls of the setters of api.cpp *)

Module ApiCalls.
Import Api.

Inductive Call : Type :=
| SetSieveSize (kilobytes : Z)
| SetNumThreads (threads : Z).

Definition call (maxThreads : Z) (g : Globals) (c : Call) : Globals :=
  match c with
  | SetSieveSize kilobytes => set_sieve_size kilobytes g
  | SetNumThreads threads => set_num_threads maxThreads threads g
  end.

(** The globals after the calls [calls], made in this order from the
    start of the program. *)
Definition after (maxThreads : Z) (calls : list Call) : Globals :=
  fold_left (call maxThreads) calls initial.

(** The cache sizes are [size_t] values. *)
Definition plausible (cpuInfo : CpuInfo) : Prop :=
  0 <= l1CacheSize cpuInfo /\ 0 <= l2CacheSize cpuInfo /\ 0 <= l3CacheSize cpuInfo.

(** The test of [get_sieve_size] for a private L2 cache. *)
Definition privateL2 (cpuInfo : CpuInfo) : bool :=
  (l2CacheSize cpuInfo / 1024 >? l1CacheSize cpuInfo / 1024)
  && (l2CacheSize cpuInfo / 1024 >? 0)
  && (l3CacheSize cpuInfo / 1024 >? 0).

End ApiCalls.

(** ** PrimeSieve.h: the callbacks that fill a vector *)

(** *** [std::vector] *)

(** What a [std::vector] needs from the machine: an allocator, whose state
    is a [Heap] and which grants room for [n] elements, leaving a new
    state, or refuses; the largest number of elements a vector accepts;
    and the capacity that a full vector of a given capacity asks for. *)
Record Memory : Type := mkMemory {
  Heap : Type;
  alloc : Z -> Heap -> option Heap;
  max_size : Z;
  grow : Z -> Z
}.

Module StdVector.

(** The elements of a vector and the number of elements it has room
    for. *)
Record vector : Type := mkVector {
  elems : list Z;
  capacity : Z
}.

Definition size (v : vector) : Z := Z.of_nat (length (elems v)).

Section Memory.

Variable M : Memory.

(** A vector and the state of the allocator. *)
Definition placed : Type := vector * Heap M.

(** [reserve(n)] as the C++ standard has it: [std::length_error] beyond
    [max_size()], nothing when the capacity suffices, and otherwise new
    room for [n] elements or [std::bad_alloc]; the elements are kept. *)
Definition reserve (n : Z) (p : placed) : result placed :=
  let (v, h) := p in
  if n >? max_size M then Err length_error
  else if n <=? capacity v then Ok (v, h)
  else
    match alloc M n h with
    | Some h => Ok (mkVector (elems v) n, h)
    | None => Err bad_alloc
    end.

(** [push_back(x)]: a full vector asks for new room first, for one more
    element at least, and throws as [reserve] does; the vector is as it
    was when it throws. *)
Definition push_back (x : Z) (p : placed) : result placed :=
  let (v, h) := p in
  if size v <? capacity v then Ok (mkVector (elems v ++ [x]) (capacity v), h)
  else if size v >=? max_size M then Err length_error
  else
    let n := Z.max (size v + 1) (grow M (capacity v)) in
    match alloc M n h with
    | Some h => Ok (mkVector (elems v ++ [x]) n, h)
    | None => Err bad_alloc
    end.

(** The vector after [added] has been pushed into room it had. *)
Definition pushed (added : list Z) (p : placed) : placed :=
  (mkVector (elems (fst p) ++ added) (capacity (fst p)), snd p).

End Memory.

(** An allocator with [h] elements left to hand out, for concrete checks;
    a full vector asks for twice its capacity. *)
Definition counted_memory : Memory :=
  mkMemory Z (fun n h => if n <=? h then Some (h - n) else None) (2 ^ 60)
    (fun c => 2 * c).

(** An allocator that refuses nothing. *)
Definition plentiful_memory : Memory :=
  mkMemory unit (fun _ h => Some h) (2 ^ 60) (fun c => 2 * c).

End StdVector.

(** *** Callbacks *)

(** How a call of a callback ends: it returns or it throws. *)
Inductive ending : Type :=
| Returned
| Thrown (e : error).

(** [ps.generatePrimes(start, stop, this)] calls [this->callback] on the
    primes of the interval, one after the other, until the callback
    throws.  A callback is a function from the prime and the state of its
    object to the new state and to how the call ended; the state is kept
    when it throws, since the vector is held by reference. *)
Fixpoint deliver {St : Type} (callback : Z -> St -> St * ending)
    (calls : list Z) (st : St) : St * ending :=
  match calls with
  | [] => (st, Returned)
  | prime :: calls =>
      let (st, e) := callback prime st in
      match e with
      | Returned => deliver callback calls st
      | Thrown _ => (st, e)
      end
  end.

(** The floating-point arithmetic of [approxPrimeCount], whatever the
    machine makes of it: the type [double], the conversions from and to
    [uint64_t], the constants 0 and 1.1, the operations and [std::log]. *)
Record Floats : Type := mkFloats {
  double : Type;
  of_uint64 : Z -> double;
  to_uint64 : double -> Z;
  zero : double;
  one_point_one : double;
  fadd : double -> double -> double;
  fsub : double -> double -> double;
  fdiv : double -> double -> double;
  flog : double -> double
}.

Module PushBackPrimes1.
Import StdVector.

Section Vector.

Variable F : Floats.
Variable M : Memory.

(** [static_cast<T>] on a [uint64_t]. *)
Variable cast : Z -> Z.

(** The primes that [PrimeSieve::generatePrimes(start, stop, callback)]
    hands to its callback, in the order of the calls, or its exception;
    the header only declares it. *)
Variable sieve : Z -> Z -> result (list Z).

(** [approxPrimeCount(start, stop)]. *)
Definition approxPrimeCount (start stop : Z) : Z :=
  let count := zero F in
  if start >? stop then 0
  else
    let count :=
      if stop >? 10 then
        fadd F count
          (fdiv F (of_uint64 F stop) (fsub F (flog F (of_uint64 F stop)) (one_point_one F)))
      else count in
    let count :=
      if start >? 10 then
        fsub F count
          (fsub F (fdiv F (of_uint64 F start) (flog F (of_uint64 F start))) (one_point_one F))
      else count in
    to_uint64 F count.

(** [callback(prime)]: [primes_.push_back(static_cast<T>(prime))]. *)
Definition callback (prime : Z) (primes_ : placed M) : placed M * ending :=
  match push_back M (cast prime) primes_ with
  | Ok primes_ => (primes_, Returned)
  | Err e => (primes_, Thrown e)
  end.

(** [generatePrimes(start, stop, ps)]: room is reserved for the estimated
    number of primes, then the sieve runs. *)
Definition generatePrimes (start stop : Z) (primes_ : placed M) : result (placed M) :=
  do primes_ <-
    reserve M (wrap64 (size (fst primes_) + approxPrimeCount start stop)) primes_;
  do calls <- sieve start stop;
  match deliver callback calls primes_ with
  | (primes_, Returned) => Ok primes_
  | (_, Thrown e) => Err e
  end.

End Vector.

End PushBackPrimes1.

Module PushBackPrimes2.
Import StdVector.

Section Vector.

Variable M : Memory.

(** The members of the callback object: the vector and the number of
    primes still to come. *)
Record State : Type := mkState {
  primes_ : placed M;
  n_ : Z
}.

Variable cast : Z -> Z.
Variable sieve : Z -> Z -> result (list Z).

(** [callback(prime)]: push the prime, and throw [stop_primesieve] when
    the decremented counter is 0. *)
Definition callback (prime : Z) (st : State) : State * ending :=
  match push_back M (cast prime) (primes_ st) with
  | Ok primes_ =>
      let st := mkState primes_ (wrap64 (n_ st - 1)) in
      (st, if n_ st =? 0 then Thrown stop_primesieve else Returned)
  | Err e => (st, Thrown e)
  end.

(** The vector has room for the primes still to come. *)
Definition roomy (st : State) : Prop :=
  size (fst (primes_ st)) + n_ st <= capacity (fst (primes_ st)).

(** The [while (n_ > 0)] loop inside the [try] block; [fuel] bounds the
    number of its iterations.  [stop_primesieve] ends the loop and is
    caught; any other exception of the callback, and an exception of the
    sieve itself, is not. *)
Fixpoint loop (fuel : nat) (start : Z) (st : State) : result State :=
  if n_ st >? 0 then
    match fuel with
    | O => Err OutOfFuel
    | S fuel =>
        let stop := wrap64 (wrap64 (start + wrap64 (n_ st * 50)) + 10000) in
        do calls <- sieve start stop;
        match deliver callback calls st with
        | (st, Returned) => loop fuel (wrap64 (stop + 1)) st
        | (st, Thrown stop_primesieve) => Ok st
        | (_, Thrown e) => Err e
        end
    end
  else Ok st.

(** [generate_N_Primes(start, n, ps)]: [n_ = n], room is reserved for [n_]
    more elements, then the loop runs. *)
Definition generate_N_Primes (fuel : nat) (start n : Z) (primes : placed M)
    : result (placed M) :=
  let st := mkState primes n in
  do primes <- reserve M (wrap64 (size (fst (primes_ st)) + n_ st)) (primes_ st);
  do st <- loop fuel start (mkState primes (n_ st));
  Ok (primes_ st).

End Vector.

End PushBackPrimes2.

(** The two member templates of [PrimeSieve] that fill a vector; a null
    pointer is [None] and nothing is done for it. *)
Module Vectors.
Import StdVector.

Section Vector.

Variable F : Floats.
Variable M : Memory.
Variable cast : Z -> Z.
Variable sieve : Z -> Z -> result (list Z).

Definition generatePrimes (start stop : Z) (vect : option vector) (h : Heap M)
    : result (option vector * Heap M) :=
  match vect with
  | Some primes =>
      do (primes, h) <- PushBackPrimes1.generatePrimes F M cast sieve start stop (primes, h);
      Ok (Some primes, h)
  | None => Ok (None, h)
  end.

Definition generate_N_Primes (fuel : nat) (start n : Z) (vect : option vector)
    (h : Heap M) : result (option vector * Heap M) :=
  match vect with
  | Some primes =>
      do (primes, h) <- PushBackPrimes2.generate_N_Primes M cast sieve fuel start n (primes, h);
      Ok (Some primes, h)
  | None => Ok (None, h)
  end.

(** The sieve behind it delivers the primes of the interval in ascending
    order, as long as the interval is one. *)
Definition sieve_ok : Prop :=
  forall start stop, 0 <= start -> start <= stop -> stop < 2 ^ 64 ->
    sieve start stop = Ok (Oracle.primesBetween start stop).

End Vector.

(** [static_cast<uint32_t>]. *)
Definition cast32 (x : Z) : Z := x mod 2 ^ 32.

(** The sieve of the segment driver, with a buffer of 1 KiB, for concrete
    checks. *)
Definition model_sieve (start stop : Z) : result (list Z) :=
  PrimeSieve.generatePrimes 4 1024 start stop.

(** Integers in the place of floating-point numbers, with the binary
    logarithm for [std::log] and 1 for 1.1, for concrete checks. *)
Definition coarse_floats : Floats :=
  mkFloats Z (fun x => x) (fun x => Z.max 0 x) 0 1 Z.add Z.sub Z.div Z.log2.

End Vectors.

Module WheelFacts.
Import Wheel Meaning.

Lemma coprimeb_mod m c : coprimeb m (c mod m) = coprimeb m c.
Proof.
  unfold coprimeb. destruct (Z.eq_dec m 0) as [->|Hm].
  - now rewrite Z.mod_0_r.
  - now rewrite Z.gcd_mod, Z.gcd_comm.
Qed.

Lemma coprimeb_add m c t : coprimeb m (c + m * t) = coprimeb m c.
Proof.
  destruct (Z.eq_dec m 0) as [->|Hm].
  - now rewrite Z.mul_0_l, Z.add_0_r.
  - rewrite <- (coprimeb_mod m (c + m * t)), <- (coprimeb_mod m c).
    f_equal. rewrite Z.mul_comm. now apply Z.mod_add.
Qed.

Lemma scan_shift m t fuel x : scan m fuel (x + m * t) = scan m fuel x + m * t.
Proof.
  revert x. induction fuel as [|fuel IH]; intros x; simpl; [reflexivity|].
  rewrite coprimeb_add. destruct (coprimeb m x); [reflexivity|].
  replace (x + m * t + 1) with (x + 1 + m * t) by lia. apply IH.
Qed.

Lemma scan_spec m fuel x y :
  x <= y < x + Z.of_nat fuel -> coprimeb m y = true ->
  x <= scan m fuel x <= y /\ coprimeb m (scan m fuel x) = true /\
  forall z, x <= z < scan m fuel x -> coprimeb m z = false.
Proof.
  revert x. induction fuel as [|fuel IH]; intros x Hy Hc; [lia|].
  simpl. destruct (coprimeb m x) eqn:E.
  - repeat split; try lia. exact E.
  - assert (x <> y) by (intros ->; congruence).
    destruct (IH (x + 1)) as (H1 & H2 & H3); [lia|exact Hc|].
    repeat split; try lia; [exact H2|].
    intros z Hz. destruct (Z.eq_dec z x) as [->|]; [exact E|]. apply H3. lia.
Qed.

Lemma coprime_exists m x : 1 < m -> exists y, x <= y < x + m /\ coprimeb m y = true.
Proof.
  intros Hm. exists (x + (1 - x) mod m).
  pose proof (Z.mod_pos_bound (1 - x) m ltac:(lia)).
  split; [lia|].
  rewrite <- coprimeb_mod. rewrite Zplus_mod_idemp_r.
  replace (x + (1 - x)) with 1 by lia.
  rewrite coprimeb_mod. unfold coprimeb. rewrite Z.gcd_1_l. reflexivity.
Qed.

Lemma firstCoprime_spec m c : 1 < m ->
  c <= firstCoprime m c < c + m /\ coprimeb m (firstCoprime m c) = true /\
  forall z, c <= z < firstCoprime m c -> coprimeb m z = false.
Proof.
  intros Hm. destruct (coprime_exists m c Hm) as (y & Hy & Hc).
  unfold firstCoprime.
  destruct (scan_spec m (Z.to_nat m) c y) as (H1 & H2 & H3); [lia|exact Hc|].
  repeat split; try lia; assumption.
Qed.

Lemma nextCoprime_spec m c : 1 < m ->
  c < nextCoprime m c <= c + m /\ coprimeb m (nextCoprime m c) = true /\
  forall z, c < z < nextCoprime m c -> coprimeb m z = false.
Proof.
  intros Hm. destruct (firstCoprime_spec m (c + 1) Hm) as (H1 & H2 & H3).
  unfold nextCoprime. unfold firstCoprime in *.
  repeat split; try lia; [exact H2|]. intros z Hz. apply H3. lia.
Qed.

Lemma nextCoprime_shift m c t : nextCoprime m (c + m * t) = nextCoprime m c + m * t.
Proof.
  unfold nextCoprime. replace (c + m * t + 1) with (c + 1 + m * t) by lia.
  apply scan_shift.
Qed.

Lemma nextCoprime_mod m c : m <> 0 ->
  nextCoprime m c = nextCoprime m (c mod m) + m * (c / m).
Proof.
  intros Hm. rewrite <- nextCoprime_shift. f_equal.
  rewrite Z.add_comm. apply Z.div_mod. exact Hm.
Qed.

End WheelFacts.

Module WheelFacts2.
Import Wheel Meaning WheelFacts.

Lemma range_check (P : Z -> bool) (n : nat) :
  forallb P (map Z.of_nat (seq 0 n)) = true ->
  forall x, 0 <= x < Z.of_nat n -> P x = true.
Proof.
  intros H x Hx. rewrite forallb_forall in H. apply H.
  apply in_map_iff. exists (Z.to_nat x). split; [lia|].
  apply in_seq. lia.
Qed.

Lemma residues_coprime p : coprimeb 30 p = true -> In (p mod 30) residues.
Proof.
  intros H. rewrite <- coprimeb_mod in H.
  pose proof (Z.mod_pos_bound p 30 ltac:(lia)) as B.
  revert H. generalize dependent (p mod 30). intros r B.
  assert (C : forallb (fun r => implb (coprimeb 30 r)
             (existsb (Z.eqb r) residues)) (map Z.of_nat (seq 0 30)) = true)
    by (vm_compute; reflexivity).
  pose proof (range_check _ _ C r ltac:(lia)) as C'. cbv beta in C'.
  intros E. rewrite E in C'. unfold implb in C'.
  apply existsb_exists in C'. destruct C' as (y & Hy & Ey).
  apply Z.eqb_eq in Ey. now subst.
Qed.

Lemma spokes_coprime m c : 0 < m -> coprimeb m c = true -> In (c mod m) (spokes m).
Proof.
  intros Hm H. unfold spokes. apply filter_In. split.
  - pose proof (Z.mod_pos_bound c m Hm).
    apply in_map_iff. exists (Z.to_nat (c mod m)). split; [lia|].
    apply in_seq. lia.
  - rewrite <- coprimeb_mod in H. exact H.
Qed.

Lemma wheelIndexOf_mod m p c :
  wheelIndexOf m (p mod 30) (c mod m) = wheelIndexOf m p c.
Proof.
  unfold wheelIndexOf. rewrite (Z.mod_mod p 30) by lia.
  destruct (Z.eq_dec m 0) as [->|Hm].
  - now rewrite !Z.mod_0_r.
  - now rewrite Z.mod_mod.
Qed.

Lemma wheelIndexOf_nonneg m p c : 0 <= wheelIndexOf m p c.
Proof. unfold wheelIndexOf. lia. Qed.

Lemma mul_div30 m' p x t :
  (p * (x + 30 * m' * t)) / 30
  = (p / 30) * (x + 30 * m' * t) + (p mod 30) * m' * t + ((p mod 30) * x) / 30.
Proof.
  rewrite <- Z.div_add_l by lia. f_equal.
  pose proof (Z.div_mod p 30 ltac:(lia)). nia.
Qed.

Lemma mul_mod30 m' p c : m' <> 0 ->
  (p * c) mod 30 = ((p mod 30) * (c mod (30 * m'))) mod 30.
Proof.
  intros Hm.
  rewrite (Z.mul_mod p c) by lia.
  rewrite (Z.mul_mod (p mod 30) (c mod (30 * m'))) by lia.
  rewrite Z.mod_mod by lia.
  f_equal. f_equal.
  pose proof (Z.div_mod c (30 * m') ltac:(lia)) as D.
  rewrite D at 1.
  replace (30 * m' * (c / (30 * m')) + c mod (30 * m'))
    with (c mod (30 * m') + (m' * (c / (30 * m'))) * 30) by lia.
  apply Z.mod_add. lia.
Qed.

(** What the table holds for the multiple [p * c]. *)
Lemma wheel_entry m' WHEEL p c :
  let m := 30 * m' in
  0 < m' -> table_ok m WHEEL = true ->
  coprimeb 30 p = true -> coprimeb m c = true ->
  exists w, WHEEL !! Z.to_nat (wheelIndexOf m p c) = Some w /\
    bitMask w = 2 ^ bitIndex ((p * c) mod 30) /\
    0 <= bitIndex ((p * c) mod 30) < 8 /\
    residue (Z.to_nat (bitIndex ((p * c) mod 30))) = (p * c) mod 30 /\
    byteInc w = nextCoprime m c - c /\
    0 <= extraInc w /\
    byteInc w * (p / 30) + extraInc w = (p * nextCoprime m c) / 30 - (p * c) / 30 /\
    nextWheelIndex w = wheelIndexOf m p (nextCoprime m c).
Proof.
  intros m Hm T Hp Hc.
  pose proof (eq_refl : m = 30 * m') as Em. clearbody m.
  pose proof (mul_mod30 m' p c ltac:(lia)) as M30. rewrite <- Em in M30.
  unfold table_ok in T. rewrite forallb_forall in T.
  specialize (T _ (residues_coprime p Hp)). rewrite forallb_forall in T.
  specialize (T _ (spokes_coprime m c ltac:(lia) Hc)).
  unfold entry_ok in T. rewrite wheelIndexOf_mod in T.
  destruct (WHEEL !! Z.to_nat (wheelIndexOf m p c)) as [w|]; [|discriminate].
  exists w. split; [reflexivity|].
  rewrite <- M30 in T.
  rewrite !andb_true_iff in T.
  destruct T as ((((((T1 & T2) & T3) & T4) & T5) & T6) & T7).
  apply Z.eqb_eq in T1, T4, T5, T6, T7. apply Z.leb_le in T2. apply Z.ltb_lt in T3.
  assert (N : nextCoprime m c = nextCoprime m (c mod m) + m * (c / m))
    by (apply nextCoprime_mod; lia).
  pose proof (Z.div_mod c m ltac:(lia)) as D.
  pose proof (nextCoprime_spec m (c mod m) ltac:(lia)) as (NS & _).
  pose proof (Z.mod_pos_bound p 30 ltac:(lia)) as Bp.
  assert (0 <= extraInc w).
  { rewrite T6. apply Zle_minus_le_0. apply Z.div_le_mono; [lia|]. nia. }
  repeat split; try assumption; try lia.
  - rewrite T6, T5.
    assert (E1 : (p * nextCoprime m c) / 30
                 = (p / 30) * nextCoprime m c + (p mod 30) * m' * (c / m)
                   + ((p mod 30) * nextCoprime m (c mod m)) / 30).
    { rewrite N. generalize (nextCoprime m (c mod m)). intros q'.
      replace (q' + m * (c / m)) with (q' + 30 * m' * (c / m)) by lia.
      apply mul_div30. }
    assert (E2 : (p * c) / 30
                 = (p / 30) * c + (p mod 30) * m' * (c / m)
                   + ((p mod 30) * (c mod m)) / 30).
    { replace c with (c mod m + 30 * m' * (c / m)) at 1 2 by lia.
      apply mul_div30. }
    rewrite E1, E2. lia.
  - rewrite T7. rewrite <- (wheelIndexOf_mod m p (nextCoprime m c)).
    rewrite <- (wheelIndexOf_mod m (p mod 30) (nextCoprime m (c mod m))).
    rewrite Z.mod_mod by lia. f_equal.
    rewrite N. replace (m * (c / m)) with ((c / m) * m) by lia.
    rewrite Z.mod_add by lia. reflexivity.
Qed.

Lemma wheel210_ok : table_ok 210 wheel210 = true.
Proof. vm_compute. reflexivity. Qed.

Lemma wheel30_ok : table_ok 30 wheel30 = true.
Proof. vm_compute. reflexivity. Qed.

End WheelFacts2.

Module SieveFacts.
Import Wheel Meaning WheelFacts WheelFacts2.

Lemma wrap64_small x : is_u64 x -> wrap64 x = x.
Proof. intros H. unfold wrap64. apply Z.mod_small. exact H. Qed.

Lemma residue_bounds b : (b < 8)%nat -> 0 < residue b < 30.
Proof.
  intros H. unfold residue.
  do 8 (destruct b as [|b]; [simpl; lia|]). lia.
Qed.

Lemma residue_inj b b' : (b < 8)%nat -> (b' < 8)%nat -> residue b = residue b' -> b = b'.
Proof.
  intros H H'. unfold residue.
  do 8 (destruct b as [|b]; [do 8 (destruct b' as [|b']; [simpl; intros; try lia; try reflexivity|]); lia|]).
  lia.
Qed.

Lemma number_inj low k b k' b' :
  (b < 8)%nat -> (b' < 8)%nat -> number low k b = number low k' b' -> k = k' /\ b = b'.
Proof.
  intros H H' E. unfold number in E.
  pose proof (residue_bounds b H). pose proof (residue_bounds b' H').
  assert (k = k') by lia. subst k'. split; [reflexivity|].
  apply residue_inj; try assumption. lia.
Qed.

(** The number whose bit a step clears. *)
Lemma number_of_multiple low x :
  0 <= x / 30 - low -> 0 <= bitIndex (x mod 30) < 8 ->
  residue (Z.to_nat (bitIndex (x mod 30))) = x mod 30 ->
  number low (Z.to_nat (x / 30 - low)) (Z.to_nat (bitIndex (x mod 30))) = x.
Proof.
  intros H B R. unfold number. rewrite R. rewrite Z2Nat.id by lia.
  pose proof (Z.div_mod x 30 ltac:(lia)). lia.
Qed.

Lemma cleared_refl low (S : Z -> Prop) sieve :
  (forall x, ~ S x) -> cleared low S sieve sieve.
Proof.
  intros H. split; [reflexivity|]. intros k byte E. exists byte. split; [exact E|].
  split; [|reflexivity]. intros b Hb. split; [|reflexivity]. intros F. now apply H in F.
Qed.

Lemma cleared_ext low (S S' : Z -> Prop) sieve sieve' :
  (forall (k b : nat), (k < length sieve)%nat -> (b < 8)%nat ->
     (S (number low k b) <-> S' (number low k b))) ->
  cleared low S sieve sieve' -> cleared low S' sieve sieve'.
Proof.
  intros E (L & C). split; [exact L|]. intros k byte Hk.
  destruct (C k byte Hk) as (byte' & H1 & H2 & H3).
  exists byte'. split; [exact H1|]. split; [|exact H3].
  intros b Hb. destruct (H2 b Hb) as (H4 & H5).
  assert (Hlt : (k < length sieve)%nat) by (apply lookup_lt_is_Some; eauto).
  specialize (E k b Hlt Hb).
  split; intros F; [apply H4|apply H5]; tauto.
Qed.

(** Clearing one more bit. *)
Lemma cleared_bit low (S : Z -> Prop) sieve sieve1 k b byte1 :
  cleared low S sieve sieve1 -> sieve1 !! k = Some byte1 -> (b < 8)%nat ->
  cleared low (fun x => S x \/ x = number low k b) sieve
    (<[k := Z.ldiff byte1 (2 ^ Z.of_nat b)]> sieve1).
Proof.
  intros (L & C) E Hb. split; [now rewrite length_insert|].
  intros k' byte Hk'.
  destruct (C k' byte Hk') as (byte' & H1 & H2 & H3).
  destruct (Nat.eq_dec k k') as [<-|NE].
  - exists (Z.ldiff byte1 (2 ^ Z.of_nat b)).
    assert (byte' = byte1) by congruence. subst byte'.
    split; [apply list_lookup_insert_eq; apply lookup_lt_is_Some; eauto|].
    split.
    + intros b' Hb'. destruct (H2 b' Hb') as (H4 & H5).
      rewrite Z.ldiff_spec, Z.pow2_bits_eqb by lia.
      split.
      * intros [F|F].
        -- rewrite (H4 F). reflexivity.
        -- apply number_inj in F; try assumption. destruct F as (_ & ->).
           rewrite Z.eqb_refl. apply andb_false_r.
      * intros F. destruct (Z.eqb_spec (Z.of_nat b) (Z.of_nat b')) as [Eb|Eb].
        -- exfalso. apply F. right. f_equal. lia.
        -- simpl. rewrite andb_true_r. apply H5. tauto.
    + intros i Hi. rewrite Z.ldiff_spec, Z.pow2_bits_eqb by lia.
      destruct (Z.eqb_spec (Z.of_nat b) i); [lia|].
      simpl. rewrite andb_true_r. now apply H3.
  - exists byte'. split; [now rewrite list_lookup_insert_ne|].
    split; [|exact H3].
    intros b' Hb'. destruct (H2 b' Hb') as (H4 & H5). split.
    + intros [F|F]; [now apply H4|].
      apply number_inj in F; try assumption. lia.
    + intros F. apply H5. tauto.
Qed.

Section Wheel.

Variable m' : Z.
Variable WHEEL : list WheelElement.
Let m := 30 * m'.
Hypothesis m'_pos : 0 < m'.
Hypothesis WHEEL_ok : table_ok m WHEEL = true.

Variables low sieveSize p : Z.
Hypothesis p_coprime : coprimeb 30 p = true.
Hypothesis p_pos : 0 < p.
Hypothesis p_bound : p < 2 ^ 32.
Hypothesis sieveSize_bound : sieveSize <= 2 ^ 32.

Lemma multiple_mono c c' : c <= c' -> (p * c) / 30 <= (p * c') / 30.
Proof. intros H. apply Z.div_le_mono; [lia|]. nia. Qed.

Lemma next_multiple_bound c : 0 < m' <= 7 ->
  (p * nextCoprime m c) / 30 <= (p * c) / 30 + 7 * p.
Proof.
  intros Hm. destruct (nextCoprime_spec m c ltac:(unfold m; lia)) as (H1 & _).
  transitivity ((p * c + (7 * p) * 30) / 30).
  - apply Z.div_le_mono; [lia|]. unfold m in *. nia.
  - rewrite Z.div_add by lia. lia.
Qed.

Hypothesis m'_bound : m' <= 7.

(** One [unsetBit]: the bit of [p * c] is cleared and the lane moves to the
    next multiple on the wheel. *)
Lemma step_spec (S : Z -> Prop) sieve0 sieve l c :
  lane_at m low p c l -> coprimeb m c = true ->
  0 <= multipleIndex l < sieveSize ->
  (Z.to_nat sieveSize <= length sieve)%nat ->
  cleared low S sieve0 sieve ->
  exists sieve' l',
    step WHEEL sieve l = Ok (sieve', l') /\
    lane_at m low p (nextCoprime m c) l' /\
    cleared low (fun x => S x \/ x = p * c) sieve0 sieve'.
Proof.
  intros (A1 & A2 & A3) Hc Hmi Hlen Hcl.
  destruct (wheel_entry m' WHEEL p c m'_pos WHEEL_ok p_coprime Hc)
    as (w & W0 & W1 & W2 & W3 & W4 & W5 & W6 & W7).
  fold m in W0, W4, W6, W7.
  destruct (lookup_lt_is_Some_2 sieve (Z.to_nat (multipleIndex l))) as (byte & Hb); [lia|].
  pose proof (next_multiple_bound c ltac:(lia)) as NB.
  pose proof (nextCoprime_spec m c ltac:(unfold m; lia)) as (N1 & _).
  pose proof (Z.div_pos p 30 ltac:(lia) ltac:(lia)) as Hs.
  assert (Hinc : 0 <= byteInc w * (p / 30)) by nia.
  unfold step, unsetBit. rewrite A3, W0, Hb. simpl.
  rewrite A1.
  rewrite (wrap64_small (byteInc w * (p / 30))) by (unfold is_u64; lia).
  rewrite (wrap64_small (multipleIndex l + _)) by (unfold is_u64; lia).
  rewrite wrap64_small by (unfold is_u64; lia).
  eexists _, _. split; [reflexivity|]. split.
  - unfold lane_at; simpl. repeat split; [lia|exact W7].
  - rewrite W1.
    pose proof (cleared_bit low S sieve0 sieve _ (Z.to_nat (bitIndex ((p * c) mod 30)))
                  byte Hcl Hb ltac:(lia)) as CB.
    rewrite Z2Nat.id in CB by lia.
    assert (Hn : number low (Z.to_nat (multipleIndex l))
                   (Z.to_nat (bitIndex ((p * c) mod 30))) = p * c)
      by (rewrite A2; apply number_of_multiple; [lia|lia|exact W3]).
    rewrite Hn in CB. exact CB.
Qed.

Lemma between_empty c x : ~ multiple_between m p c c x.
Proof. intros (y & H & _). lia. Qed.

Lemma between_next c x : coprimeb m c = true ->
  multiple_between m p c (nextCoprime m c) x <-> x = p * c.
Proof.
  intros Hc. destruct (nextCoprime_spec m c ltac:(unfold m; lia)) as (N1 & N2 & N3).
  split.
  - intros (y & Hy & Cy & ->). destruct (Z.eq_dec y c) as [->|NE]; [reflexivity|].
    rewrite N3 in Cy by lia. discriminate.
  - intros ->. exists c. repeat split; try lia. exact Hc.
Qed.

Lemma between_app c c' c'' x : c <= c' <= c'' ->
  multiple_between m p c c' x \/ multiple_between m p c' c'' x
  <-> multiple_between m p c c'' x.
Proof.
  intros H. split.
  - intros [(y & Hy & Cy & ->)|(y & Hy & Cy & ->)]; exists y; repeat split; try lia; exact Cy.
  - intros (y & Hy & Cy & ->). destruct (Z_lt_le_dec y c').
    + left. exists y. repeat split; try lia; exact Cy.
    + right. exists y. repeat split; try lia; exact Cy.
Qed.

(** One [unsetBit] on a tracked lane. *)
Lemma tracked_step (S : Z -> Prop) sieve0 sieve l c0 c :
  tracked m low sieveSize p c0 c l -> multipleIndex l < sieveSize ->
  (Z.to_nat sieveSize <= length sieve0)%nat ->
  cleared low S sieve0 sieve ->
  exists sieve' l',
    step WHEEL sieve l = Ok (sieve', l') /\
    tracked m low sieveSize p c0 (nextCoprime m c) l' /\
    c < nextCoprime m c /\
    cleared low (fun x => S x \/ multiple_between m p c (nextCoprime m c) x) sieve0 sieve'.
Proof.
  intros (A & (R1 & R2 & R3) & B) Hlt Hlen Hcl.
  destruct (step_spec S sieve0 sieve l c A R2 ltac:(lia)) as (sieve' & l' & E & A' & C');
    [destruct Hcl as (L & _); lia|exact Hcl|].
  destruct (nextCoprime_spec m c ltac:(unfold m; lia)) as (N1 & N2 & N3).
  exists sieve', l'. split; [exact E|]. split; [|split; [lia|]].
  - split; [exact A'|]. split.
    + split; [lia|]. split; [exact N2|]. intros x Hx Cx.
      destruct (Z_lt_le_dec x c) as [L|G]; [apply R3; [lia|exact Cx]|].
      destruct (Z.eq_dec x c) as [->|NE].
      * destruct A as (_ & A2 & _). lia.
      * rewrite N3 in Cx by lia. discriminate.
    + destruct A' as (_ & A2' & _). destruct A as (_ & A2 & _).
      pose proof (next_multiple_bound c ltac:(lia)).
      pose proof (multiple_mono c (nextCoprime m c) ltac:(lia)). lia.
  - eapply cleared_ext; [|exact C']. intros k b _ _. cbv beta.
    rewrite between_next by exact R2. tauto.
Qed.

(** The scalar loop: the lane leaves the segment, and exactly the
    multiples it passed on the way have their bits cleared. *)
Lemma lane_spec fuel : forall (S : Z -> Prop) sieve0 sieve l c0 c,
  tracked m low sieveSize p c0 c l ->
  (Z.to_nat sieveSize <= length sieve0)%nat ->
  cleared low S sieve0 sieve ->
  30 * (low + sieveSize) - p * c <= Z.of_nat fuel ->
  exists sieve' l' c',
    lane WHEEL fuel sieveSize sieve l = Ok (sieve', l') /\
    tracked m low sieveSize p c0 c' l' /\
    sieveSize <= multipleIndex l' /\ c <= c' /\
    cleared low (fun x => S x \/ multiple_between m p c c' x) sieve0 sieve'.
Proof.
  induction fuel as [|fuel IH]; intros S sieve0 sieve l c0 c T Hlen Hcl Hfuel.
  - assert (G : sieveSize <= multipleIndex l).
    { destruct T as ((_ & A2 & _) & _ & _).
      change (Z.of_nat 0) with 0 in Hfuel.
      pose proof (Z.div_le_lower_bound (p * c) 30 (low + sieveSize) ltac:(lia) ltac:(lia)).
      lia. }
    exists sieve, l, c. simpl. destruct (Z.ltb_spec (multipleIndex l) sieveSize); [lia|].
    repeat split; try assumption; try lia; try apply T; try apply Hcl.
    intros k byte Hk. destruct Hcl as (_ & C). destruct (C k byte Hk) as (byte' & H1 & H2 & H3).
    exists byte'. split; [exact H1|]. split; [|exact H3].
    intros b Hb. destruct (H2 b Hb) as (H4 & H5). split.
    + intros [F|F]; [now apply H4|now apply between_empty in F].
    + intros F. apply H5. tauto.
  - simpl. destruct (Z.ltb_spec (multipleIndex l) sieveSize) as [L|G].
    + destruct (tracked_step S sieve0 sieve l c0 c T L Hlen Hcl)
        as (sieve1 & l1 & E1 & T1 & N1 & C1).
      rewrite E1. simpl.
      destruct (IH _ sieve0 sieve1 l1 c0 (nextCoprime m c) T1 Hlen C1 ltac:(nia))
        as (sieve' & l' & c' & E' & T' & G' & Hc' & C').
      exists sieve', l', c'. split; [exact E'|]. split; [exact T'|].
      split; [exact G'|]. split; [lia|].
      eapply cleared_ext; [|exact C']. intros k b _ _. cbv beta.
      rewrite <- (between_app c (nextCoprime m c) c') by lia. tauto.
    + exists sieve, l, c. split; [reflexivity|]. split; [exact T|].
      split; [lia|]. split; [lia|].
      eapply cleared_ext; [|exact Hcl]. intros k b _ _. cbv beta.
      pose proof (between_empty c (number low k b)). tauto.
Qed.

End Wheel.

End SieveFacts.

Module RecordFacts.
Import Wheel Meaning WheelFacts WheelFacts2 SieveFacts.

Section Records.

Variable m' : Z.
Variable WHEEL : list WheelElement.
Let m := 30 * m'.
Hypothesis m'_bounds : 0 < m' <= 7.
Hypothesis WHEEL_ok : table_ok m WHEEL = true.
Variables low sieveSize : Z.
Hypothesis sieveSize_bounds : 0 <= sieveSize <= 2 ^ 32.

Lemma tracked_load g r :
  stored m low g r -> tracked m low sieveSize (fst g) (snd g) (snd g) (load r).
Proof.
  intros (A & _ & C & B). split; [exact A|]. split; [|exact B].
  split; [lia|]. split; [exact C|]. intros x Hx. lia.
Qed.

Lemma stored_store g c' l r :
  stored m low g r ->
  tracked m low sieveSize (fst g) (snd g) c' l -> sieveSize <= multipleIndex l ->
  stored m (low + sieveSize) (fst g, c') (store sieveSize l r) /\
  advanced m low sieveSize g (fst g, c').
Proof.
  intros (A & (P & B) & C & B') ((T1 & T2 & T3) & R & T4) G.
  assert (W : wrap64 (multipleIndex l - sieveSize) = multipleIndex l - sieveSize)
    by (apply wrap64_small; unfold is_u64; lia).
  split.
  - unfold stored, store, set, at_multiple; simpl. rewrite W.
    destruct A as (A1 & _). destruct R as (_ & R2 & _).
    repeat split; try assumption; try lia.
  - split; [reflexivity|]. simpl. split; [exact R|]. lia.
Qed.

(** In the segment, the multiples passed before the exit are all the
    multiples from the first one on. *)
Lemma between_exit p c c' k b :
  0 < p ->
  exit_of m low sieveSize p c c' -> (k < Z.to_nat sieveSize)%nat -> (b < 8)%nat ->
  multiple_between m p c c' (number low k b) <-> multiples_from m p c (number low k b).
Proof.
  intros Hp ((E1 & E2 & E3) & E4) Hk Hb. split.
  - intros (y & Hy & Cy & ->). exists y. repeat split; try lia; exact Cy.
  - intros (y & Hy & Cy & E). exists y. repeat split; try lia; try assumption.
    destruct (Z_lt_le_dec y c') as [L|G]; [exact L|exfalso].
    assert ((p * c') / 30 <= (p * y) / 30) by (apply Z.div_le_mono; [lia|nia]).
    rewrite <- E in H. unfold number in H.
    pose proof (residue_bounds b Hb).
    assert ((30 * (low + Z.of_nat k) + residue b) / 30 = low + Z.of_nat k).
    { rewrite Z.mul_comm, Z.div_add_l by lia. rewrite Z.div_small by lia. lia. }
    lia.
Qed.

(** One record, crossed off by the scalar loop. *)
Lemma record_spec fuel (S : Z -> Prop) sieve0 sieve g r :
  stored m low g r ->
  length sieve0 = Z.to_nat sieveSize ->
  cleared low S sieve0 sieve ->
  30 * sieveSize <= Z.of_nat fuel ->
  exists sieve' l' g',
    lane WHEEL fuel sieveSize sieve (load r) = Ok (sieve', l') /\
    stored m (low + sieveSize) g' (store sieveSize l' r) /\
    advanced m low sieveSize g g' /\
    cleared low (fun x => S x \/ multiples_from m (fst g) (snd g) x) sieve0 sieve'.
Proof.
  intros St Hlen Hcl Hfuel.
  pose proof (tracked_load g r St) as T. pose proof St as St0.
  destruct St as (A & (P & B) & C & B').
  assert (Hf : 30 * (low + sieveSize) - fst g * snd g <= Z.of_nat fuel).
  { destruct A as (_ & A2 & _).
    pose proof (Z.mul_div_le (fst g * snd g) 30 ltac:(lia)). lia. }
  destruct (lane_spec m' WHEEL ltac:(lia) WHEEL_ok low sieveSize (fst g) P ltac:(lia) ltac:(lia)
              ltac:(lia) ltac:(lia) fuel S sieve0 sieve (load r) (snd g) (snd g) T ltac:(lia) Hcl Hf)
    as (sieve' & l' & c' & E & T' & G & Hc & C').
  destruct (stored_store g c' l' r St0 T' G) as (St' & Ad).
  exists sieve', l', (fst g, c'). split; [exact E|]. split; [exact St'|]. split; [exact Ad|].
  eapply cleared_ext; [|exact C']. intros k b Hk Hb. cbv beta.
  assert (BE : multiple_between m (fst g) (snd g) c' (number low k b)
               <-> multiples_from m (fst g) (snd g) (number low k b)).
  { apply between_exit; [lia| |lia|exact Hb]. destruct Ad as (_ & Ad). exact Ad. }
  unfold m in *. tauto.
Qed.

End Records.

End RecordFacts.

Module MediumFacts.
Import Wheel Meaning WheelFacts WheelFacts2 SieveFacts RecordFacts EratMedium.

Lemma crossed_cons m g gs x :
  crossed m (g :: gs) x <-> multiples_from m (fst g) (snd g) x \/ crossed m gs x.
Proof.
  unfold crossed. split.
  - intros (h & [<-|H] & M); [now left|right; eauto].
  - intros [M|(h & H & M)]; [exists g|exists h]; simpl; tauto.
Qed.

Lemma crossed_nil m x : ~ crossed m [] x.
Proof. intros (h & [] & _). Qed.

Lemma crossed_app m gs hs x :
  crossed m (gs ++ hs) x <-> crossed m gs x \/ crossed m hs x.
Proof.
  unfold crossed. split.
  - intros (h & H & M). apply in_app_or in H. destruct H; eauto.
  - intros [(h & H & M)|(h & H & M)]; exists h; (split; [apply in_or_app; tauto|exact M]).
Qed.

Section Segment.

Variables low sieveSize : Z.
Hypothesis sieveSize_bounds : 0 <= sieveSize <= 2 ^ 32.

Lemma step210 p (S : Z -> Prop) sieve0 sieve l c0 c :
  prime_ok p ->
  tracked 210 low sieveSize p c0 c l -> multipleIndex l < sieveSize ->
  (Z.to_nat sieveSize <= length sieve0)%nat ->
  cleared low S sieve0 sieve ->
  exists sieve' l',
    step sieve l = Ok (sieve', l') /\
    tracked 210 low sieveSize p c0 (nextCoprime 210 c) l' /\
    c < nextCoprime 210 c /\
    cleared low (fun x => S x \/ multiple_between 210 p c (nextCoprime 210 c) x) sieve0 sieve'.
Proof.
  intros (P1 & P2).
  exact (tracked_step 7 wheel210 ltac:(lia) wheel210_ok low sieveSize p P1
           ltac:(lia) ltac:(lia) ltac:(lia) ltac:(lia) S sieve0 sieve l c0 c).
Qed.

Lemma cleared_length S sieve0 sieve : cleared low S sieve0 sieve -> length sieve = length sieve0.
Proof. now intros (L & _). Qed.

(** The interleaved loop only ever steps a lane that is inside the
    segment, so it leaves each of the three lanes somewhere on its way. *)
Lemma lanes3_spec p0 p1 p2 a0 a1 a2 fuel :
  prime_ok p0 -> prime_ok p1 -> prime_ok p2 ->
  forall (S : Z -> Prop) sieve0 sieve l0 l1 l2 c0 c1 c2,
  tracked 210 low sieveSize p0 a0 c0 l0 ->
  tracked 210 low sieveSize p1 a1 c1 l1 ->
  tracked 210 low sieveSize p2 a2 c2 l2 ->
  (Z.to_nat sieveSize <= length sieve0)%nat ->
  cleared low S sieve0 sieve ->
  30 * (low + sieveSize) - p0 * c0 <= Z.of_nat fuel ->
  exists sieve' l0' l1' l2' c0' c1' c2',
    lanes3 fuel sieveSize sieve l0 l1 l2 = Ok (sieve', l0', l1', l2') /\
    tracked 210 low sieveSize p0 a0 c0' l0' /\
    tracked 210 low sieveSize p1 a1 c1' l1' /\
    tracked 210 low sieveSize p2 a2 c2' l2' /\
    c0 <= c0' /\ c1 <= c1' /\ c2 <= c2' /\
    cleared low (fun x => S x \/ multiple_between 210 p0 c0 c0' x
                          \/ multiple_between 210 p1 c1 c1' x
                          \/ multiple_between 210 p2 c2 c2' x) sieve0 sieve'.
Proof.
  intros P0 P1 P2.
  induction fuel as [|fuel IH]; intros S sieve0 sieve l0 l1 l2 c0 c1 c2 T0 T1 T2 Hlen Hcl Hfuel.
  - assert (G : sieveSize <= multipleIndex l0).
    { destruct T0 as ((_ & A2 & _) & _ & _). destruct P0 as (_ & P0).
      change (Z.of_nat 0) with 0 in Hfuel.
      pose proof (Z.div_le_lower_bound (p0 * c0) 30 (low + sieveSize) ltac:(lia) ltac:(lia)).
      lia. }
    exists sieve, l0, l1, l2, c0, c1, c2. simpl.
    destruct (Z.ltb_spec (multipleIndex l0) sieveSize); [lia|].
    repeat (split; [reflexivity || assumption || lia|]).
    eapply cleared_ext; [|exact Hcl]. intros k b _ _. cbv beta.
    pose proof (between_empty 7 p0 c0 (number low k b)).
    pose proof (between_empty 7 p1 c1 (number low k b)).
    pose proof (between_empty 7 p2 c2 (number low k b)).
    change (30 * 7) with 210 in *. tauto.
  - simpl. destruct (Z.ltb_spec (multipleIndex l0) sieveSize) as [L0|G0].
    + destruct (step210 p0 S sieve0 sieve l0 a0 c0 P0 T0 L0 Hlen Hcl)
        as (sieve1 & l0' & E0 & T0' & N0 & C0).
      rewrite E0. simpl.
      destruct (Z.geb_spec (multipleIndex l1) sieveSize) as [G1|L1].
      { exists sieve1, l0', l1, l2, (nextCoprime 210 c0), c1, c2.
        repeat (split; [reflexivity || assumption || lia|]).
        eapply cleared_ext; [|exact C0]. intros k b _ _. cbv beta.
        pose proof (between_empty 7 p1 c1 (number low k b)).
        pose proof (between_empty 7 p2 c2 (number low k b)).
        change (30 * 7) with 210 in *. tauto. }
      destruct (step210 p1 _ sieve0 sieve1 l1 a1 c1 P1 T1 L1 Hlen C0)
        as (sieve2 & l1' & E1 & T1' & N1 & C1).
      rewrite E1. simpl.
      destruct (Z.geb_spec (multipleIndex l2) sieveSize) as [G2|L2].
      { exists sieve2, l0', l1', l2, (nextCoprime 210 c0), (nextCoprime 210 c1), c2.
        repeat (split; [reflexivity || assumption || lia|]).
        eapply cleared_ext; [|exact C1]. intros k b _ _. cbv beta.
        pose proof (between_empty 7 p2 c2 (number low k b)).
        change (30 * 7) with 210 in *. tauto. }
      destruct (step210 p2 _ sieve0 sieve2 l2 a2 c2 P2 T2 L2 Hlen C1)
        as (sieve3 & l2' & E2 & T2' & N2 & C2).
      rewrite E2. simpl.
      destruct (IH _ sieve0 sieve3 l0' l1' l2' _ _ _ T0' T1' T2' Hlen C2)
        as (sieve' & m0 & m1 & m2 & d0 & d1 & d2 & E & U0 & U1 & U2 & D0 & D1 & D2 & C).
      { destruct P0 as (_ & P0). nia. }
      exists sieve', m0, m1, m2, d0, d1, d2.
      split; [exact E|].
      repeat (split; [assumption || lia|]).
      eapply cleared_ext; [|exact C]. intros k b _ _. cbv beta.
      pose proof (between_app 7 p0 c0 (nextCoprime 210 c0) d0 (number low k b) ltac:(lia)).
      pose proof (between_app 7 p1 c1 (nextCoprime 210 c1) d1 (number low k b) ltac:(lia)).
      pose proof (between_app 7 p2 c2 (nextCoprime 210 c2) d2 (number low k b) ltac:(lia)).
      change (30 * 7) with 210 in *. tauto.
    + exists sieve, l0, l1, l2, c0, c1, c2.
      repeat (split; [reflexivity || assumption || lia|]).
      eapply cleared_ext; [|exact Hcl]. intros k b _ _. cbv beta.
      pose proof (between_empty 7 p0 c0 (number low k b)).
      pose proof (between_empty 7 p1 c1 (number low k b)).
      pose proof (between_empty 7 p2 c2 (number low k b)).
      change (30 * 7) with 210 in *. tauto.
Qed.

Lemma lane210 p fuel (S : Z -> Prop) sieve0 sieve l c0 c :
  prime_ok p ->
  tracked 210 low sieveSize p c0 c l ->
  (Z.to_nat sieveSize <= length sieve0)%nat ->
  cleared low S sieve0 sieve ->
  30 * (low + sieveSize) - p * c <= Z.of_nat fuel ->
  exists sieve' l' c',
    lane fuel sieveSize sieve l = Ok (sieve', l') /\
    tracked 210 low sieveSize p c0 c' l' /\
    sieveSize <= multipleIndex l' /\ c <= c' /\
    cleared low (fun x => S x \/ multiple_between 210 p c c' x) sieve0 sieve'.
Proof.
  intros (P1 & P2).
  exact (lane_spec 7 wheel210 ltac:(lia) wheel210_ok low sieveSize p P1
           ltac:(lia) ltac:(lia) ltac:(lia) ltac:(lia) fuel S sieve0 sieve l c0 c).
Qed.

Lemma stored_fuel g r fuel c :
  stored 210 low g r -> 30 * sieveSize <= Z.of_nat fuel -> snd g <= c ->
  30 * (low + sieveSize) - fst g * c <= Z.of_nat fuel.
Proof.
  intros ((_ & A2 & _) & (_ & P) & _ & B) Hf Hc.
  pose proof (Z.mul_div_le (fst g * snd g) 30 ltac:(lia)). nia.
Qed.

(** The body of the first loop. *)
Lemma crossOff3_spec fuel (S : Z -> Prop) sieve0 sieve g0 g1 g2 r0 r1 r2 :
  stored 210 low g0 r0 -> stored 210 low g1 r1 -> stored 210 low g2 r2 ->
  length sieve0 = Z.to_nat sieveSize ->
  cleared low S sieve0 sieve ->
  30 * sieveSize <= Z.of_nat fuel ->
  exists sieve' rs' gs',
    crossOff3 fuel sieveSize sieve r0 r1 r2 = Ok (sieve', rs') /\
    Forall2 (stored 210 (low + sieveSize)) gs' rs' /\
    Forall2 (advanced 210 low sieveSize) [g0; g1; g2] gs' /\
    cleared low (fun x => S x \/ crossed 210 [g0; g1; g2] x) sieve0 sieve'.
Proof.
  intros S0 S1 S2 Hlen Hcl Hfuel.
  pose proof S0 as (_ & P0 & _). pose proof S1 as (_ & P1 & _). pose proof S2 as (_ & P2 & _).
  destruct (lanes3_spec (fst g0) (fst g1) (fst g2) (snd g0) (snd g1) (snd g2) fuel P0 P1 P2
              S sieve0 sieve _ _ _ _ _ _
              (tracked_load 7 low sieveSize g0 r0 S0)
              (tracked_load 7 low sieveSize g1 r1 S1)
              (tracked_load 7 low sieveSize g2 r2 S2) ltac:(lia) Hcl)
    as (sieve1 & l0 & l1 & l2 & c0 & c1 & c2 & E & T0 & T1 & T2 & D0 & D1 & D2 & C).
  { eapply stored_fuel; [exact S0|exact Hfuel|lia]. }
  destruct (lane210 (fst g0) fuel _ sieve0 sieve1 l0 (snd g0) c0 P0 T0 ltac:(lia) C)
    as (sieve2 & l0' & c0' & E0 & T0' & G0 & D0' & C0).
  { eapply stored_fuel; [exact S0|exact Hfuel|lia]. }
  destruct (lane210 (fst g1) fuel _ sieve0 sieve2 l1 (snd g1) c1 P1 T1 ltac:(lia) C0)
    as (sieve3 & l1' & c1' & E1 & T1' & G1 & D1' & C1).
  { eapply stored_fuel; [exact S1|exact Hfuel|lia]. }
  destruct (lane210 (fst g2) fuel _ sieve0 sieve3 l2 (snd g2) c2 P2 T2 ltac:(lia) C1)
    as (sieve4 & l2' & c2' & E2 & T2' & G2 & D2' & C2).
  { eapply stored_fuel; [exact S2|exact Hfuel|lia]. }
  destruct (stored_store 7 low sieveSize sieveSize_bounds g0 c0' l0' r0 S0 T0' G0) as (St0 & A0).
  destruct (stored_store 7 low sieveSize sieveSize_bounds g1 c1' l1' r1 S1 T1' G1) as (St1 & A1).
  destruct (stored_store 7 low sieveSize sieveSize_bounds g2 c2' l2' r2 S2 T2' G2) as (St2 & A2).
  exists sieve4, [store sieveSize l0' r0; store sieveSize l1' r1; store sieveSize l2' r2],
    [(fst g0, c0'); (fst g1, c1'); (fst g2, c2')].
  split; [unfold crossOff3; rewrite E; simpl; rewrite E0; simpl; rewrite E1; simpl;
          rewrite E2; reflexivity|].
  change (30 * 7) with 210 in *.
  split; [repeat (constructor; [assumption|]); constructor|].
  split; [repeat (constructor; [assumption|]); constructor|].
  eapply cleared_ext; [|exact C2]. intros k b Hk Hb. cbv beta.
  rewrite !crossed_cons.
  pose proof (crossed_nil 210 (number low k b)).
  pose proof (between_app 7 (fst g0) (snd g0) c0 c0' (number low k b) ltac:(lia)).
  pose proof (between_app 7 (fst g1) (snd g1) c1 c1' (number low k b) ltac:(lia)).
  pose proof (between_app 7 (fst g2) (snd g2) c2 c2' (number low k b) ltac:(lia)).
  pose proof (between_exit 7 low sieveSize sieveSize_bounds (fst g0) (snd g0) c0' k b
                ltac:(destruct P0; lia) (proj2 A0) ltac:(lia) Hb).
  pose proof (between_exit 7 low sieveSize sieveSize_bounds (fst g1) (snd g1) c1' k b
                ltac:(destruct P1; lia) (proj2 A1) ltac:(lia) Hb).
  pose proof (between_exit 7 low sieveSize sieveSize_bounds (fst g2) (snd g2) c2' k b
                ltac:(destruct P2; lia) (proj2 A2) ltac:(lia) Hb).
  change (30 * 7) with 210 in *. tauto.
Qed.

(** The body of the second loop. *)
Lemma crossOff1_spec fuel (S : Z -> Prop) sieve0 sieve g r :
  stored 210 low g r ->
  length sieve0 = Z.to_nat sieveSize ->
  cleared low S sieve0 sieve ->
  30 * sieveSize <= Z.of_nat fuel ->
  exists sieve' r' g',
    crossOff1 fuel sieveSize sieve r = Ok (sieve', r') /\
    stored 210 (low + sieveSize) g' r' /\
    advanced 210 low sieveSize g g' /\
    cleared low (fun x => S x \/ multiples_from 210 (fst g) (snd g) x) sieve0 sieve'.
Proof.
  intros St Hlen Hcl Hfuel.
  destruct (record_spec 7 wheel210 ltac:(lia) wheel210_ok low sieveSize sieveSize_bounds
              fuel S sieve0 sieve g r St Hlen Hcl Hfuel)
    as (sieve' & l' & g' & E & St' & A & C).
  exists sieve', (store sieveSize l' r), g'.
  split; [unfold crossOff1, lane; rewrite E; reflexivity|].
  split; [exact St'|]. split; [exact A|exact C].
Qed.

Lemma crossOffRest_spec fuel gs rs :
  Forall2 (stored 210 low) gs rs ->
  forall (S : Z -> Prop) sieve0 sieve,
  length sieve0 = Z.to_nat sieveSize ->
  cleared low S sieve0 sieve ->
  30 * sieveSize <= Z.of_nat fuel ->
  exists sieve' rs' gs',
    crossOffRest fuel sieveSize sieve rs = Ok (sieve', rs') /\
    Forall2 (stored 210 (low + sieveSize)) gs' rs' /\
    Forall2 (advanced 210 low sieveSize) gs gs' /\
    cleared low (fun x => S x \/ crossed 210 gs x) sieve0 sieve'.
Proof.
  induction 1 as [|g r gs rs St F IH]; intros S sieve0 sieve Hlen Hcl Hfuel.
  - exists sieve, [], []. split; [reflexivity|]. split; [constructor|]. split; [constructor|].
    eapply cleared_ext; [|exact Hcl]. intros k b _ _. cbv beta.
    pose proof (crossed_nil 210 (number low k b)). tauto.
  - destruct (crossOff1_spec fuel S sieve0 sieve g r St Hlen Hcl Hfuel)
      as (sieve1 & r' & g' & E & St' & A & C).
    destruct (IH _ sieve0 sieve1 Hlen C Hfuel) as (sieve' & rs' & gs' & E' & F' & A' & C').
    exists sieve', (r' :: rs'), (g' :: gs').
    split; [simpl; rewrite E; simpl; rewrite E'; reflexivity|].
    split; [constructor; assumption|]. split; [constructor; assumption|].
    eapply cleared_ext; [|exact C']. intros k b _ _. cbv beta.
    rewrite crossed_cons. tauto.
Qed.

Lemma Forall2_app_intro {A B} (R : A -> B -> Prop) l1 l2 k1 k2 :
  Forall2 R l1 k1 -> Forall2 R l2 k2 -> Forall2 R (l1 ++ l2) (k1 ++ k2).
Proof. induction 1; simpl; [trivial|]. intros. constructor; auto. Qed.

Lemma crossOffLoops_spec fuel n : forall gs rs,
  (length rs <= n)%nat ->
  Forall2 (stored 210 low) gs rs ->
  forall (S : Z -> Prop) sieve0 sieve,
  length sieve0 = Z.to_nat sieveSize ->
  cleared low S sieve0 sieve ->
  30 * sieveSize <= Z.of_nat fuel ->
  exists sieve' rs' gs',
    crossOffLoops fuel sieveSize sieve rs = Ok (sieve', rs') /\
    Forall2 (stored 210 (low + sieveSize)) gs' rs' /\
    Forall2 (advanced 210 low sieveSize) gs gs' /\
    cleared low (fun x => S x \/ crossed 210 gs x) sieve0 sieve'.
Proof.
  induction n as [|n IH]; intros gs rs Hn F S sieve0 sieve Hlen Hcl Hfuel.
  - destruct rs; [|simpl in Hn; lia].
    exact (crossOffRest_spec fuel gs _ F S sieve0 sieve Hlen Hcl Hfuel).
  - destruct rs as [|r0 [|r1 [|r2 [|r3 rs]]]];
      try exact (crossOffRest_spec fuel gs _ F S sieve0 sieve Hlen Hcl Hfuel).
    inversion F as [|g0 ? gs0 ? S0 F0]; subst.
    inversion F0 as [|g1 ? gs1 ? S1 F1]; subst.
    inversion F1 as [|g2 ? gs2 ? S2 F2]; subst.
    destruct (crossOff3_spec fuel S sieve0 sieve g0 g1 g2 r0 r1 r2 S0 S1 S2 Hlen Hcl Hfuel)
      as (sieve1 & rs1 & gs1' & E1 & St1 & A1 & C1).
    destruct (IH gs2 (r3 :: rs) ltac:(simpl in *; lia) F2 _ sieve0 sieve1 Hlen C1 Hfuel)
      as (sieve' & rs' & gs' & E' & St' & A' & C').
    exists sieve', (rs1 ++ rs'), (gs1' ++ gs').
    split.
    { change (crossOffLoops fuel sieveSize sieve (r0 :: r1 :: r2 :: r3 :: rs))
        with (do (sieve, done) <- crossOff3 fuel sieveSize sieve r0 r1 r2;
              do (sieve, primes') <- crossOffLoops fuel sieveSize sieve (r3 :: rs);
              Ok (sieve, done ++ primes')).
      rewrite E1. cbn [bind]. rewrite E'. reflexivity. }
    split; [now apply Forall2_app_intro|].
    split; [now apply (Forall2_app_intro _ [g0; g1; g2])|].
    eapply cleared_ext; [|exact C']. intros k b _ _. cbv beta.
    change (g0 :: g1 :: g2 :: gs2) with ([g0; g1; g2] ++ gs2).
    rewrite crossed_app. tauto.
Qed.

(** [crossOff] on a non-empty engine whose records are positioned for the
    segment that starts at [30 * low]. *)
Lemma crossOff_spec fuel gs e sieve :
  Forall2 (stored 210 low) gs (primes_ e) -> primes_ e <> [] ->
  length sieve = Z.to_nat sieveSize ->
  30 * sieveSize <= Z.of_nat fuel ->
  exists sieve' e' gs',
    crossOff fuel sieve sieveSize e = Ok (sieve', e') /\
    stop_ e' = stop_ e /\ sieveSize_ e' = sieveSize_ e /\ maxPrime_ e' = maxPrime_ e /\
    Forall2 (stored 210 (low + sieveSize)) gs' (primes_ e') /\
    Forall2 (advanced 210 low sieveSize) gs gs' /\
    cleared low (crossed 210 gs) sieve sieve'.
Proof.
  intros F NE Hlen Hfuel.
  destruct (crossOffLoops_spec fuel (length (primes_ e)) gs (primes_ e) ltac:(lia) F
              (fun _ => False) sieve sieve Hlen ltac:(apply cleared_refl; tauto) Hfuel)
    as (sieve' & rs' & gs' & E & St & A & C).
  exists sieve', (mkEratMedium (stop_ e) (sieveSize_ e) (maxPrime_ e) rs'), gs'.
  split.
  - unfold crossOff. destruct (primes_ e) as [|r rs] eqn:Ep; [congruence|].
    change ((r :: rs) !! 0%nat) with (Some r). cbn [of_option bind].
    destruct (last (r :: rs)) as [x|] eqn:El.
    + cbn [of_option bind]. rewrite E. reflexivity.
    + apply last_None in El. discriminate.
  - repeat (split; [reflexivity || assumption|]).
    eapply cleared_ext; [|exact C]. intros k b _ _. cbv beta. tauto.
Qed.

End Segment.

End MediumFacts.

(** ** Prime numbers *)

Module PrimeFacts.
Import Meaning WheelFacts Oracle.

Lemma prime_ge_2' p : prime p -> 2 <= p.
Proof. intros (H & _). lia. Qed.

(** Every number above 1 has a prime divisor. *)
Lemma prime_divisor n : 1 < n -> exists p, prime p /\ (p | n).
Proof.
  intros Hn. assert (Hn' : 0 <= n) by lia. revert Hn.
  pattern n. apply (Z_lt_induction); [|exact Hn']. clear n Hn'.
  intros n IH Hn. destruct (prime_dec n) as [P|NP].
  - exists n. split; [exact P|apply Z.divide_refl].
  - destruct (not_prime_divide n Hn NP) as (d & Hd & Dd).
    destruct (IH d ltac:(lia) ltac:(lia)) as (p & Pp & Dp).
    exists p. split; [exact Pp|]. now apply Z.divide_trans with d.
Qed.

(** A composite number is a prime times a cofactor that is not smaller. *)
Lemma composite_factor n : 1 < n -> ~ prime n ->
  exists p q, prime p /\ p <= q /\ n = p * q.
Proof.
  intros Hn NP.
  destruct (not_prime_divide n Hn NP) as (d & Hd & (e & He)).
  assert (1 < e) by nia.
  (* take the smaller of the two factors *)
  set (a := Z.min d e). set (b := Z.max d e).
  assert (Hab : n = a * b /\ 1 < a <= b) by (unfold a, b; lia).
  destruct Hab as (Hab & Ha).
  destruct (prime_divisor a ltac:(lia)) as (p & Pp & (t & Ht)).
  pose proof (prime_ge_2' p Pp).
  exists p, (t * b). split; [exact Pp|]. split; [|nia].
  assert (0 < t) by nia. nia.
Qed.

Lemma prime_not_product p c : 1 < p -> 1 < c -> ~ prime (p * c).
Proof.
  intros Hp Hc (_ & H).
  destruct (H p ltac:(nia)) as [_ _ G].
  destruct (G p (Z.divide_refl p) (Z.divide_factor_l p c)) as (q & Hq).
  assert (p = 1 \/ p = -1) by (apply Z.mul_eq_1 with q; lia). lia.
Qed.

(** A prime that divides a prime is that prime. *)
Lemma prime_divides_prime p q : prime p -> prime q -> (p | q) -> p = q.
Proof.
  intros Pp Pq D. apply prime_alt in Pp, Pq. exact (Z.divide_prime_prime p q Pp Pq D).
Qed.

Lemma coprimeb_true m c : coprimeb m c = true <-> Z.gcd c m = 1.
Proof. unfold coprimeb. apply Z.eqb_eq. Qed.

(** A number is coprime to [m] when no prime divides both. *)
Lemma coprimeb_intro m c : 0 < m ->
  (forall q, prime q -> (q | m) -> ~ (q | c)) -> coprimeb m c = true.
Proof.
  intros Hm H. apply coprimeb_true.
  pose proof (Z.gcd_nonneg c m) as G0.
  destruct (Z.eq_dec (Z.gcd c m) 1) as [E|NE]; [exact E|exfalso].
  assert (Z.gcd c m <> 0).
  { intros E0. apply Z.gcd_eq_0_r in E0. lia. }
  destruct (prime_divisor (Z.gcd c m) ltac:(lia)) as (q & Pq & Dq).
  apply (H q Pq).
  - apply Z.divide_trans with (Z.gcd c m); [exact Dq|apply Z.gcd_divide_r].
  - apply Z.divide_trans with (Z.gcd c m); [exact Dq|apply Z.gcd_divide_l].
Qed.

Lemma coprimeb_elim m c q :
  coprimeb m c = true -> 1 < q -> (q | m) -> ~ (q | c).
Proof.
  intros H Hq Dm Dc. apply coprimeb_true in H.
  assert (D : (q | Z.gcd c m)) by (apply Z.gcd_greatest; assumption).
  rewrite H in D. apply Z.divide_1_r_nonneg in D; lia.
Qed.

Lemma prime_no_divisor p d : prime p -> 1 < d < p -> ~ (d | p).
Proof.
  intros Pp Hd. apply prime_alt in Pp. destruct Pp as (_ & H). now apply H.
Qed.

(** The prime divisors of 30 and of 210. *)
Lemma prime_divides_30 q : prime q -> (q | 30) -> q = 2 \/ q = 3 \/ q = 5.
Proof.
  intros Pq D. pose proof (prime_ge_2' q Pq).
  assert (q <= 30) by (apply Z.divide_pos_le; [lia|exact D]).
  assert (Hq : In q (map Z.of_nat (seq 2 29))).
  { apply in_map_iff. exists (Z.to_nat q). split; [lia|]. apply in_seq. lia. }
  destruct D as (t & Ht). simpl in Hq.
  repeat (destruct Hq as [<-|Hq];
          [first [ lia
                 | exfalso; apply (prime_no_divisor _ 2 Pq);
                   [lia|match goal with |- (?d | ?n) => exists (n / d); reflexivity end]
                 | exfalso; apply (prime_no_divisor _ 3 Pq);
                   [lia|match goal with |- (?d | ?n) => exists (n / d); reflexivity end] ]|]).
  contradiction.
Qed.

Lemma prime_divides_210 q : prime q -> (q | 210) -> q = 2 \/ q = 3 \/ q = 5 \/ q = 7.
Proof.
  intros Pq D. change 210 with (7 * 30) in D.
  apply Z.divide_prime_mul in D; [|apply prime_alt; exact Pq].
  destruct D as [D|D].
  - right. right. right. pose proof (prime_ge_2' q Pq).
    assert (q <= 7) by (apply Z.divide_pos_le; [lia|exact D]).
    destruct D as (t & Ht).
    assert (Hq : q = 2 \/ q = 3 \/ q = 4 \/ q = 5 \/ q = 6 \/ q = 7) by lia.
    destruct Hq as [-> | [-> | [-> | [-> | [-> | -> ]]]]]; lia.
  - apply prime_divides_30 in D; [tauto|exact Pq].
Qed.

(** *** The reference *)

Lemma trialDivision_prime n : trialDivision n = true <-> prime n.
Proof.
  unfold trialDivision. rewrite andb_true_iff, forallb_forall. split.
  - intros (H1 & H2). apply Z.ltb_lt in H1. apply prime_alt. split; [exact H1|].
    intros d Hd Dd.
    specialize (H2 d). rewrite negb_true_iff in H2.
    assert (E : (n mod d =? 0) = false).
    { apply H2. apply in_map_iff. exists (Z.to_nat d). split; [lia|]. apply in_seq. lia. }
    apply Z.eqb_neq in E. apply E. apply Z.mod_divide; [lia|exact Dd].
  - intros P. pose proof (prime_ge_2' n P). split; [apply Z.ltb_lt; lia|].
    intros d Hd. apply in_map_iff in Hd. destruct Hd as (k & <- & Hk). apply in_seq in Hk.
    rewrite negb_true_iff. apply Z.eqb_neq. intros E.
    apply Z.mod_divide in E; [|lia].
    apply (prime_no_divisor n (Z.of_nat k) P); [lia|exact E].
Qed.

Lemma in_range a b x : In x (range a b) <-> a <= x <= b.
Proof.
  unfold range. rewrite in_map_iff. split.
  - intros (i & <- & Hi). apply in_seq in Hi. lia.
  - intros H. exists (Z.to_nat (x - a)). split; [lia|]. apply in_seq. lia.
Qed.

Lemma in_primesBetween a b x :
  In x (primesBetween a b) <-> a <= x <= b /\ prime x.
Proof.
  unfold primesBetween. rewrite filter_In, in_range, trialDivision_prime. tauto.
Qed.

Lemma range_sorted a n : StronglySorted Z.lt (map (fun i => a + Z.of_nat i) (seq 0 n)).
Proof.
  assert (G : forall s, StronglySorted Z.lt (map (fun i => a + Z.of_nat i) (seq s n))).
  { induction n as [|n IH]; intros s; simpl; constructor; [apply IH|].
    apply List.Forall_forall. intros x Hx. apply in_map_iff in Hx.
    destruct Hx as (i & <- & Hi). apply in_seq in Hi. lia. }
  apply G.
Qed.

Lemma filter_sorted (f : Z -> bool) l :
  StronglySorted Z.lt l -> StronglySorted Z.lt (List.filter f l).
Proof.
  induction 1 as [|x l S IH F]; simpl; [constructor|].
  destruct (f x); [|exact IH]. constructor; [exact IH|].
  apply List.Forall_forall. intros y Hy. apply filter_In in Hy.
  rewrite List.Forall_forall in F. apply F. tauto.
Qed.

Lemma primesBetween_sorted a b : StronglySorted Z.lt (primesBetween a b).
Proof. apply filter_sorted. apply range_sorted. Qed.

(** Two strictly increasing lists with the same elements are equal. *)
Lemma sorted_ext (l1 l2 : list Z) :
  StronglySorted Z.lt l1 -> StronglySorted Z.lt l2 ->
  (forall x, In x l1 <-> In x l2) -> l1 = l2.
Proof.
  intros S1. revert l2. induction S1 as [|x l1 S1 IH F1]; intros l2 S2 E.
  - destruct l2 as [|y l2]; [reflexivity|]. exfalso. apply (E y). now left.
  - destruct S2 as [|y l2 S2 F2].
    + exfalso. apply (E x). now left.
    + rewrite List.Forall_forall in F1, F2.
      assert (x = y).
      { destruct (proj1 (E x) (or_introl eq_refl)) as [->|Hx]; [reflexivity|].
        destruct (proj2 (E y) (or_introl eq_refl)) as [->|Hy]; [reflexivity|].
        specialize (F1 _ Hy). specialize (F2 _ Hx). lia. }
      subst y. f_equal. apply IH; [exact S2|].
      intros z. split; intros Hz.
      * destruct (proj1 (E z) (or_intror Hz)) as [->|H]; [|exact H].
        specialize (F1 _ Hz). lia.
      * destruct (proj2 (E z) (or_intror Hz)) as [->|H]; [|exact H].
        specialize (F2 _ Hz). lia.
Qed.

(** *** There is a prime above every number *)

Lemma factorial_pos n : 0 < factorial n.
Proof. induction n as [|n IH]; simpl factorial; lia. Qed.

Lemma factorial_divide n : forall d, (0 < d <= n)%nat -> (Z.of_nat d | factorial n).
Proof.
  induction n as [|n IH]; intros d Hd; [lia|].
  change (factorial (S n)) with (Z.of_nat (S n) * factorial n).
  destruct (Nat.eq_dec d (S n)) as [->|NE].
  - apply Z.divide_factor_l.
  - apply Z.divide_mul_r. apply IH. lia.
Qed.

Lemma prime_above N : exists p, prime p /\ N < p.
Proof.
  set (n := Z.to_nat N).
  pose proof (factorial_pos n) as F.
  destruct (prime_divisor (factorial n + 1) ltac:(lia)) as (p & Pp & Dp).
  exists p. split; [exact Pp|].
  pose proof (prime_ge_2' p Pp).
  destruct (Z_lt_le_dec N p) as [L|G]; [exact L|exfalso].
  assert (D : (p | factorial n)).
  { replace p with (Z.of_nat (Z.to_nat p)) by lia. apply factorial_divide. lia. }
  assert (D1 : (p | 1)).
  { replace 1 with (factorial n + 1 - factorial n) by lia. now apply Z.divide_sub_r. }
  apply Z.divide_1_r_nonneg in D1; lia.
Qed.

End PrimeFacts.

(** ** The pre-sieve and the scan *)

Module ScanFacts.
Import Wheel Meaning Segment PreSieve Scan WheelFacts WheelFacts2 SieveFacts PrimeFacts.

Lemma byteOf_fold (f : nat -> bool) (l : list nat) i :
  Z.testbit (fold_right (fun b acc => if f b then Z.lor (2 ^ Z.of_nat b) acc else acc) 0 l) i
  = existsb (fun b => f b && (Z.of_nat b =? i)) l.
Proof.
  induction l as [|b l IH]; simpl; [apply Z.bits_0|].
  destruct (f b); simpl.
  - rewrite Z.lor_spec, Z.pow2_bits_eqb by lia. now rewrite IH.
  - exact IH.
Qed.

Lemma byteOf_spec (f : nat -> bool) (b : nat) :
  (b < 8)%nat -> Z.testbit (byteOf f) (Z.of_nat b) = f b.
Proof.
  intros Hb. unfold byteOf. rewrite byteOf_fold.
  do 8 (destruct b as [|b]; [simpl; now rewrite ?andb_true_r, ?andb_false_r, ?orb_false_r|]).
  lia.
Qed.

Lemma byteOf_high (f : nat -> bool) i : 8 <= i -> Z.testbit (byteOf f) i = false.
Proof.
  intros Hi. unfold byteOf. rewrite byteOf_fold.
  apply not_true_is_false. intros E. apply existsb_exists in E.
  destruct E as (b & Hb & E). apply in_seq in Hb.
  apply andb_true_iff in E. destruct E as (_ & E). apply Z.eqb_eq in E. lia.
Qed.

Lemma hasFactor_true n : hasFactor n = true <-> exists q, In q primes /\ (q | n).
Proof.
  unfold hasFactor. rewrite existsb_exists. split.
  - intros (q & Hq & E). exists q. split; [exact Hq|].
    apply Z.eqb_eq in E. apply Z.mod_divide; [|exact E].
    simpl in Hq. intuition lia.
  - intros (q & Hq & D). exists q. split; [exact Hq|].
    apply Z.eqb_eq. apply Z.mod_divide; [|exact D].
    simpl in Hq. intuition lia.
Qed.

Lemma hasFactor_false n : hasFactor n = false <-> forall q, In q primes -> ~ (q | n).
Proof.
  rewrite <- not_true_iff_false, hasFactor_true. split.
  - intros H q Hq D. apply H. eauto.
  - intros H (q & Hq & D). now apply (H q).
Qed.

(** The pattern repeats after [size] bytes. *)
Lemma hasFactor_period x r : hasFactor (30 * (x mod size) + r) = hasFactor (30 * x + r).
Proof.
  assert (E : 30 * x + r = 30 * (x mod size) + r + (30 * (x / size)) * size).
  { pose proof (Z.div_mod x size ltac:(unfold size; lia)). lia. }
  rewrite E. generalize (30 * (x mod size) + r). intros y.
  generalize (30 * (x / size)). intros t.
  unfold hasFactor, primes, size. simpl existsb.
  replace (y + t * (7 * 11 * 13 * 17 * 19)) with (y + (t * 46189) * 7) at 1 by lia.
  replace (y + t * (7 * 11 * 13 * 17 * 19)) with (y + (t * 29393) * 11) at 1 by lia.
  replace (y + t * (7 * 11 * 13 * 17 * 19)) with (y + (t * 24871) * 13) at 1 by lia.
  replace (y + t * (7 * 11 * 13 * 17 * 19)) with (y + (t * 19019) * 17) at 1 by lia.
  replace (y + t * (7 * 11 * 13 * 17 * 19)) with (y + (t * 17017) * 19) at 1 by lia.
  now rewrite !Z.mod_add by lia.
Qed.

Lemma copy_length n : forall j, length (copy n j) = n.
Proof. induction n as [|n IH]; intros j; simpl; [reflexivity|]. now rewrite IH. Qed.

Lemma copy_lookup n : forall j (k : nat), (k < n)%nat ->
  copy n j !! k = Some (pattern ((j + Z.of_nat k) mod size)).
Proof.
  induction n as [|n IH]; intros j k Hk; [lia|].
  destruct k as [|k]; simpl.
  - now rewrite Z.add_0_r.
  - rewrite IH by lia. do 3 f_equal. lia.
Qed.

Lemma apply_length low sieveSize : length (apply low sieveSize) = Z.to_nat sieveSize.
Proof. apply copy_length. Qed.

(** A fresh segment holds the numbers without a factor among 7..19. *)
Lemma apply_represents low sieveSize :
  represents low (fun x => hasFactor x = false) (apply low sieveSize).
Proof.
  intros k byte Hk.
  assert (Hlt : (k < Z.to_nat sieveSize)%nat).
  { rewrite <- (apply_length low sieveSize). apply lookup_lt_is_Some. eauto. }
  unfold apply in Hk. rewrite copy_lookup in Hk by exact Hlt. injection Hk as <-.
  split.
  - intros b Hb. unfold pattern. rewrite byteOf_spec by exact Hb.
    rewrite hasFactor_period. unfold number. rewrite negb_true_iff. reflexivity.
  - intros i Hi. now apply byteOf_high.
Qed.

Lemma represents_ext low (P Q : Z -> Prop) sieve :
  (forall (k b : nat), (k < length sieve)%nat -> (b < 8)%nat ->
     (P (number low k b) <-> Q (number low k b))) ->
  represents low P sieve -> represents low Q sieve.
Proof.
  intros E R k byte Hk. destruct (R k byte Hk) as (R1 & R2). split; [|exact R2].
  intros b Hb. rewrite (R1 b Hb). apply E; [|exact Hb].
  apply lookup_lt_is_Some. eauto.
Qed.

(** Crossing off removes the crossed numbers. *)
Lemma represents_cleared low (P S : Z -> Prop) sieve sieve' :
  represents low P sieve -> cleared low S sieve sieve' ->
  represents low (fun x => P x /\ ~ S x) sieve'.
Proof.
  intros R (L & C) k byte' Hk.
  assert (Hlt : (k < length sieve)%nat) by (rewrite <- L; apply lookup_lt_is_Some; eauto).
  destruct (lookup_lt_is_Some_2 sieve k Hlt) as (byte & Hb).
  destruct (C k byte Hb) as (byte2 & H1 & H2 & H3).
  assert (byte2 = byte') by congruence. subst byte2.
  destruct (R k byte Hb) as (R1 & R2). split.
  - intros b Hlb. destruct (H2 b Hlb) as (H4 & H5). split.
    + intros T. assert (NS : ~ S (number low k b)).
      { intros HS. rewrite (H4 HS) in T. discriminate. }
      split; [|exact NS]. apply R1; [exact Hlb|]. now rewrite <- (H5 NS).
    + intros (HP & NS). rewrite (H5 NS). now apply R1.
  - intros i Hi. rewrite (H3 i Hi). now apply R2.
Qed.

Lemma mapBytes_length {A} (f : Z -> Z -> A) sieve : forall low,
  length (mapBytes f low sieve) = length sieve.
Proof. induction sieve as [|x l IH]; intros low; simpl; [reflexivity|]. now rewrite IH. Qed.

Lemma mapBytes_lookup {A} (f : Z -> Z -> A) sieve : forall low (k : nat),
  mapBytes f low sieve !! k = f (low + Z.of_nat k) <$> sieve !! k.
Proof.
  induction sieve as [|x l IH]; intros low k; [now destruct k|].
  destruct k as [|k]; simpl.
  - now rewrite Z.add_0_r.
  - rewrite IH. do 2 f_equal. lia.
Qed.

Lemma represents_mask low (P : Z -> Prop) (g : Z -> bool) sieve :
  represents low P sieve ->
  represents low (fun x => P x /\ g x = true)
    (mapBytes (fun k byte => Z.land byte (byteOf (fun b => g (30 * k + residue b)))) low sieve).
Proof.
  intros R k byte' Hk. rewrite mapBytes_lookup in Hk.
  destruct (sieve !! k) as [byte|] eqn:Hb; [|discriminate]. injection Hk as <-.
  destruct (R k byte Hb) as (R1 & R2). split.
  - intros b Hlb. rewrite Z.land_spec, byteOf_spec by exact Hlb.
    rewrite andb_true_iff, (R1 b Hlb). reflexivity.
  - intros i Hi. rewrite Z.land_spec, (R2 i Hi). reflexivity.
Qed.

Lemma clearBelow_represents low start (P : Z -> Prop) sieve :
  represents low P sieve ->
  represents low (fun x => P x /\ start <= x) (clearBelow start low sieve).
Proof.
  intros R. eapply represents_ext; [|apply (represents_mask low P (fun x => start <=? x) sieve R)].
  intros k b _ _. cbv beta. now rewrite Z.leb_le.
Qed.

Lemma clearAbove_represents low stop (P : Z -> Prop) sieve :
  represents low P sieve ->
  represents low (fun x => P x /\ x <= stop) (clearAbove stop low sieve).
Proof.
  intros R. eapply represents_ext; [|apply (represents_mask low P (fun x => x <=? stop) sieve R)].
  intros k b _ _. cbv beta. now rewrite Z.leb_le.
Qed.

Lemma clearBelow_length start low sieve : length (clearBelow start low sieve) = length sieve.
Proof. apply mapBytes_length. Qed.

Lemma clearAbove_length stop low sieve : length (clearAbove stop low sieve) = length sieve.
Proof. apply mapBytes_length. Qed.

(** *** The scan *)

Lemma in_bitsOf byte b : In b (bitsOf byte) <-> (b < 8)%nat /\ Z.testbit byte (Z.of_nat b) = true.
Proof. unfold bitsOf. rewrite filter_In, in_seq. intuition lia. Qed.

Lemma residue_mono a b : (a < b)%nat -> (b < 8)%nat -> residue a < residue b.
Proof.
  intros H1 H2. unfold residue.
  do 8 (destruct b as [|b]; [do 8 (destruct a as [|a]; [simpl; lia|]); lia|]). lia.
Qed.

Lemma sorted_app (l1 l2 : list Z) :
  StronglySorted Z.lt l1 -> StronglySorted Z.lt l2 ->
  (forall x y, In x l1 -> In y l2 -> x < y) -> StronglySorted Z.lt (l1 ++ l2).
Proof.
  induction 1 as [|x l1 S1 IH F]; intros S2 H; simpl; [exact S2|].
  constructor.
  - apply IH; [exact S2|]. intros a b Ha Hb. apply H; [now right|exact Hb].
  - apply List.Forall_forall. intros y Hy. apply in_app_or in Hy. destruct Hy as [Hy|Hy].
    + rewrite List.Forall_forall in F. now apply F.
    + apply H; [now left|exact Hy].
Qed.

Lemma bits_sorted (f : nat -> bool) (g : nat -> Z) (s n : nat) :
  (forall a b, (a < b)%nat -> (b < s + n)%nat -> g a < g b) ->
  StronglySorted Z.lt (map g (List.filter f (seq s n))).
Proof.
  revert s. induction n as [|n IH]; intros s H; simpl; [constructor|].
  assert (IH' : StronglySorted Z.lt (map g (List.filter f (seq (S s) n)))).
  { apply IH. intros a b Hab Hb. apply H; lia. }
  destruct (f s); [|exact IH']. simpl. constructor; [exact IH'|].
  apply List.Forall_forall. intros y Hy. apply in_map_iff in Hy.
  destruct Hy as (b & <- & Hb). apply filter_In in Hb. destruct Hb as (Hb & _).
  apply in_seq in Hb. apply H; lia.
Qed.

Lemma numbers_cons low byte sieve :
  numbers low (byte :: sieve)
  = map (fun b => 30 * low + residue b) (bitsOf byte) ++ numbers (low + 1) sieve.
Proof. reflexivity. Qed.

Lemma in_numbers sieve : forall low x,
  In x (numbers low sieve) <->
  exists (k : nat) byte (b : nat),
    sieve !! k = Some byte /\ (b < 8)%nat /\
    Z.testbit byte (Z.of_nat b) = true /\ x = number low k b.
Proof.
  induction sieve as [|byte sieve IH]; intros low x.
  - split; [intros []|intros (k & byte & b & H & _); now destruct k].
  - rewrite numbers_cons, in_app_iff, in_map_iff, IH. split.
    + intros [(b & <- & Hb)|(k & byte' & b & H1 & H2 & H3 & ->)].
      * apply in_bitsOf in Hb. exists 0%nat, byte, b.
        split; [reflexivity|]. split; [tauto|]. split; [tauto|]. unfold number. lia.
      * exists (S k), byte', b. split; [exact H1|]. split; [exact H2|]. split; [exact H3|].
        unfold number. lia.
    + intros (k & byte' & b & H1 & H2 & H3 & ->). destruct k as [|k].
      * left. injection H1 as <-. exists b. split; [unfold number; lia|].
        apply in_bitsOf. tauto.
      * right. exists k, byte', b. split; [exact H1|]. split; [exact H2|]. split; [exact H3|].
        unfold number. lia.
Qed.

Lemma numbers_bounds sieve low x :
  In x (numbers low sieve) -> 30 * low < x < 30 * (low + Z.of_nat (length sieve)).
Proof.
  intros H. apply in_numbers in H. destruct H as (k & byte & b & H1 & H2 & _ & ->).
  assert (k < length sieve)%nat by (apply lookup_lt_is_Some; eauto).
  pose proof (residue_bounds b H2). unfold number. lia.
Qed.

(** The callback sees the numbers of a segment in increasing order. *)
Lemma numbers_sorted sieve : forall low, StronglySorted Z.lt (numbers low sieve).
Proof.
  induction sieve as [|byte sieve IH]; intros low; [constructor|].
  rewrite numbers_cons. apply sorted_app; [|apply IH|].
  - apply bits_sorted. intros a b Hab Hb. pose proof (residue_mono a b Hab Hb). lia.
  - intros x y Hx Hy. apply in_map_iff in Hx. destruct Hx as (b & <- & Hb).
    apply in_bitsOf in Hb. pose proof (residue_bounds b (proj1 Hb)).
    apply numbers_bounds in Hy. lia.
Qed.

(** The popcounts of a segment add up to the number of calls of the
    callback. *)
Lemma count_numbers sieve : forall low,
  count low sieve = Z.of_nat (length (numbers low sieve)).
Proof.
  induction sieve as [|byte sieve IH]; intros low; [reflexivity|].
  rewrite numbers_cons, length_app, length_map. unfold count in *. simpl.
  rewrite (IH (low + 1)). unfold popcount. lia.
Qed.

(** The numbers that a segment can hold: those coprime to 30. *)
Lemma number_exists low (n : nat) x :
  30 * low <= x < 30 * (low + Z.of_nat n) -> coprimeb 30 x = true ->
  exists (k b : nat), (k < n)%nat /\ (b < 8)%nat /\ x = number low k b.
Proof.
  intros Hx C.
  pose proof (residues_coprime x C) as R.
  pose proof (Z.div_mod x 30 ltac:(lia)) as D.
  pose proof (Z.mod_pos_bound x 30 ltac:(lia)) as B.
  assert (Hk : low <= x / 30 < low + Z.of_nat n).
  { split; [apply Z.div_le_lower_bound; lia|apply Z.div_lt_upper_bound; lia]. }
  exists (Z.to_nat (x / 30 - low)).
  apply In_nth with (d := 0) in R. destruct R as (b & Hb & Eb).
  exists b. split; [lia|]. split; [exact Hb|].
  unfold number, residue. rewrite Eb. lia.
Qed.

Lemma number_coprime low k b : (b < 8)%nat -> coprimeb 30 (number low k b) = true.
Proof.
  intros Hb. unfold number.
  rewrite <- coprimeb_mod.
  replace (30 * (low + Z.of_nat k) + residue b) with (residue b + (low + Z.of_nat k) * 30) by lia.
  rewrite Z.mod_add by lia. rewrite coprimeb_mod.
  unfold residue. do 8 (destruct b as [|b]; [reflexivity|]). lia.
Qed.

End ScanFacts.

(** ** The engines for small and big primes *)

Module EngineSpecs.
Import Wheel Meaning Segment WheelFacts WheelFacts2 SieveFacts RecordFacts MediumFacts.

Section Segment.

Variables low sieveSize : Z.
Hypothesis sieveSize_bounds : 0 < sieveSize <= 2 ^ 32.

Lemma advanced_moved m' g g' :
  0 < fst g ->
  advanced (30 * m') low sieveSize g g' -> moved (30 * m') low sieveSize g g'.
Proof.
  intros Hp (E & (R1 & R2 & R3) & X). split; [exact E|]. split; [exact R1|]. split.
  - intros x Hx Cx. specialize (R3 x Hx Cx).
    pose proof (Z.div_mod (fst g * x) 30 ltac:(lia)).
    pose proof (Z.mod_pos_bound (fst g * x) 30 ltac:(lia)). lia.
  - pose proof (Z.mul_div_le (fst g * snd g') 30 ltac:(lia)). lia.
Qed.

(** A number of the segment lies below [30 * (low + sieveSize)]. *)
Lemma number_in_segment (k b : nat) :
  (k < Z.to_nat sieveSize)%nat -> (b < 8)%nat ->
  30 * low < number low k b < 30 * (low + sieveSize).
Proof.
  intros Hk Hb. pose proof (residue_bounds b Hb). unfold number. lia.
Qed.

(** *** EratSmall *)

Lemma small_crossOffEach_spec fuel gs rs :
  Forall2 (stored 30 low) gs rs ->
  forall (S : Z -> Prop) sieve0 sieve,
  length sieve0 = Z.to_nat sieveSize ->
  cleared low S sieve0 sieve ->
  30 * sieveSize <= Z.of_nat fuel ->
  exists sieve' rs' gs',
    EratSmall.crossOffEach fuel sieveSize sieve rs = Ok (sieve', rs') /\
    Forall2 (stored 30 (low + sieveSize)) gs' rs' /\
    Forall2 (moved 30 low sieveSize) gs gs' /\
    cleared low (fun x => S x \/ crossed 30 gs x) sieve0 sieve'.
Proof.
  induction 1 as [|g r gs rs St F IH]; intros S sieve0 sieve Hlen Hcl Hfuel.
  - exists sieve, [], []. split; [reflexivity|]. split; [constructor|]. split; [constructor|].
    eapply cleared_ext; [|exact Hcl]. intros k b _ _. cbv beta.
    pose proof (crossed_nil 30 (number low k b)). tauto.
  - destruct (record_spec 1 wheel30 ltac:(lia) wheel30_ok low sieveSize ltac:(lia)
                fuel S sieve0 sieve g r St Hlen Hcl Hfuel)
      as (sieve1 & l' & g' & E & St' & A & C).
    change (30 * 1) with 30 in *.
    destruct (IH _ sieve0 sieve1 Hlen C Hfuel) as (sieve' & rs' & gs' & E' & F' & A' & C').
    exists sieve', (store sieveSize l' r :: rs'), (g' :: gs').
    split; [simpl; rewrite E; simpl; rewrite E'; reflexivity|].
    split; [constructor; assumption|]. split.
    + constructor; [|assumption].
      apply (advanced_moved 1); [|exact A]. destruct St as (_ & (_ & P) & _). lia.
    + eapply cleared_ext; [|exact C']. intros k b _ _. cbv beta.
      rewrite crossed_cons. tauto.
Qed.

(** *** EratBig *)

Lemma fire_spec fuel (S : Z -> Prop) sieve0 sieve g b :
  bucketed sieveSize low g b ->
  length sieve0 = Z.to_nat sieveSize ->
  cleared low S sieve0 sieve ->
  30 * sieveSize <= Z.of_nat fuel ->
  exists sieve' b' g',
    EratBig.fire fuel sieveSize sieve b = Ok (sieve', b') /\
    bucketed sieveSize (low + sieveSize) g' b' /\
    moved 210 low sieveSize g g' /\
    cleared low (fun x => S x \/ multiples_from 210 (fst g) (snd g) x) sieve0 sieve'.
Proof.
  intros (Hk & St) Hlen Hcl Hfuel. unfold EratBig.fire.
  destruct (Z.eqb_spec (fst b) 0) as [K0|KN].
  - rewrite K0, Z.mul_0_l, Z.add_0_r in St.
    destruct (record_spec 7 wheel210 ltac:(lia) wheel210_ok low sieveSize ltac:(lia)
                fuel S sieve0 sieve g (snd b) St Hlen Hcl Hfuel)
      as (sieve1 & l' & g' & E & St' & A & C).
    change (30 * 7) with 210 in *.
    rewrite E. cbn [bind].
    set (mi := wrap64 (multipleIndex l' - sieveSize)).
    exists sieve1, (mi / sieveSize, set (mi mod sieveSize) (wheelIndex l') (snd b)), g'.
    split; [reflexivity|].
    destruct St' as ((A1 & A2 & A3) & P & Cc & B).
    unfold store, set in A1, A2, A3, B. cbn in A1, A2, A3, B. fold mi in A2, B.
    pose proof (Z.div_mod mi sieveSize ltac:(lia)) as D.
    pose proof (Z.mod_pos_bound mi sieveSize ltac:(lia)) as M.
    pose proof (Z.div_pos mi sieveSize ltac:(lia) ltac:(lia)) as Q.
    split; [|split].
    + split; [exact Q|]. cbn [fst snd]. unfold stored, at_multiple, set. cbn.
      repeat split; try assumption; try lia; apply P.
    + apply (advanced_moved 7); [|exact A]. destruct St as (_ & (_ & Pg) & _). lia.
    + exact C.
  - exists sieve, (fst b - 1, snd b), g. split; [reflexivity|].
    pose proof St as St0.
    destruct St as ((A1 & A2 & A3) & (P1 & P2) & Cc & B).
    assert (Hge : 30 * (low + sieveSize) <= fst g * snd g).
    { pose proof (Z.mul_div_le (fst g * snd g) 30 ltac:(lia)). nia. }
    split; [|split].
    + split; [cbn; lia|]. cbn [fst snd].
      replace (low + sieveSize + (fst b - 1) * sieveSize) with (low + fst b * sieveSize) by lia.
      exact St0.
    + split; [reflexivity|]. split; [lia|]. split; [intros x Hx; lia|exact Hge].
    + eapply cleared_ext; [|exact Hcl]. intros k bb Hlt Hb. cbv beta.
      split; [tauto|]. intros [HS|(c & Hc & _ & En)]; [exact HS|exfalso].
      pose proof (number_in_segment k bb ltac:(lia) Hb). nia.
Qed.

Lemma drain_spec fuel gs bs :
  Forall2 (bucketed sieveSize low) gs bs ->
  forall (S : Z -> Prop) sieve0 sieve,
  length sieve0 = Z.to_nat sieveSize ->
  cleared low S sieve0 sieve ->
  30 * sieveSize <= Z.of_nat fuel ->
  exists sieve' bs' gs',
    EratBig.drain fuel sieveSize sieve bs = Ok (sieve', bs') /\
    Forall2 (bucketed sieveSize (low + sieveSize)) gs' bs' /\
    Forall2 (moved 210 low sieveSize) gs gs' /\
    cleared low (fun x => S x \/ crossed 210 gs x) sieve0 sieve'.
Proof.
  induction 1 as [|g b gs bs St F IH]; intros S sieve0 sieve Hlen Hcl Hfuel.
  - exists sieve, [], []. split; [reflexivity|]. split; [constructor|]. split; [constructor|].
    eapply cleared_ext; [|exact Hcl]. intros k b _ _. cbv beta.
    pose proof (crossed_nil 210 (number low k b)). tauto.
  - destruct (fire_spec fuel S sieve0 sieve g b St Hlen Hcl Hfuel)
      as (sieve1 & b' & g' & E & St' & A & C).
    destruct (IH _ sieve0 sieve1 Hlen C Hfuel) as (sieve' & bs' & gs' & E' & F' & A' & C').
    exists sieve', (b' :: bs'), (g' :: gs').
    split; [simpl; rewrite E; cbn [bind]; rewrite E'; reflexivity|].
    split; [constructor; assumption|]. split; [constructor; assumption|].
    eapply cleared_ext; [|exact C']. intros k bb _ _. cbv beta.
    rewrite crossed_cons. tauto.
Qed.

(** *** EratMedium, in the same terms *)

Lemma Forall2_advanced_moved gs : forall gs',
  Forall (fun g => 0 < fst g) gs ->
  Forall2 (advanced 210 low sieveSize) gs gs' -> Forall2 (moved 210 low sieveSize) gs gs'.
Proof.
  induction gs as [|g gs IH]; intros gs' P A; inversion A; subst; [constructor|].
  inversion P; subst. constructor; [|now apply IH].
  now apply (advanced_moved 7).
Qed.

Lemma stored_pos m l gs rs :
  Forall2 (stored m l) gs rs -> Forall (fun g => 0 < fst g) gs.
Proof.
  induction 1 as [|g r gs rs (_ & (_ & P) & _) F IH]; constructor; [lia|exact IH].
Qed.

End Segment.

End EngineSpecs.

(** ** One segment of the driver *)

Module SegmentFacts.
Import Wheel Meaning Segment PrimeSieve.
Import WheelFacts WheelFacts2 SieveFacts RecordFacts MediumFacts PrimeFacts ScanFacts EngineSpecs.

Lemma cleared_trans low (S1 S2 : Z -> Prop) s0 s1 s2 :
  cleared low S1 s0 s1 -> cleared low S2 s1 s2 ->
  cleared low (fun x => S1 x \/ S2 x) s0 s2.
Proof.
  intros (L1 & C1) (L2 & C2). split; [congruence|].
  intros k byte Hk.
  destruct (C1 k byte Hk) as (byte1 & H1 & B1 & T1).
  destruct (C2 k byte1 H1) as (byte2 & H2 & B2 & T2).
  exists byte2. split; [exact H2|]. split.
  - intros b Hb. destruct (B1 b Hb) as (B1a & B1b). destruct (B2 b Hb) as (B2a & B2b).
    split.
    + intros HS. apply not_true_is_false. intros E.
      assert (N2 : ~ S2 (number low k b)) by (intros F; rewrite (B2a F) in E; discriminate).
      rewrite (B2b N2) in E. destruct HS as [HS|HS]; [|contradiction].
      rewrite (B1a HS) in E. discriminate.
    + intros N. rewrite B2b by tauto. apply B1b. tauto.
  - intros i Hi. rewrite (T2 i Hi). now apply T1.
Qed.

Lemma Forall2_moved_fst m low sieveSize gs gs' :
  Forall2 (moved m low sieveSize) gs gs' -> map fst gs' = map fst gs.
Proof. induction 1 as [|g g' gs gs' (E & _) F IH]; simpl; [reflexivity|]. now rewrite E, IH. Qed.

Lemma pending_moved m start low sieveSize g g' :
  0 < sieveSize ->
  pending m start low g -> moved m low sieveSize g g' ->
  pending m start (low + sieveSize) g'.
Proof.
  intros Hs (P1 & P2 & P3) (M1 & M2 & M3 & M4). unfold pending. rewrite M1.
  split; [exact P1|]. split; [lia|]. intros x Hx Cx.
  destruct (Z_lt_le_dec x (snd g)) as [L|G].
  - specialize (P3 x ltac:(lia) Cx). lia.
  - specialize (M3 x ltac:(lia) Cx). lia.
Qed.

Lemma Forall_pending_moved m start low sieveSize gs : forall gs',
  0 < sieveSize ->
  Forall (pending m start low) gs -> Forall2 (moved m low sieveSize) gs gs' ->
  Forall (pending m start (low + sieveSize)) gs'.
Proof.
  induction gs as [|g gs IH]; intros gs' Hs P M; inversion M; subst; [constructor|].
  inversion P; subst. constructor; [|now apply IH].
  now apply pending_moved with g.
Qed.

(** A pending prime crosses off all its multiples that lie in or beyond
    the segment. *)
Lemma pending_crossed m start low g q :
  pending m start low g ->
  fst g <= q -> coprimeb m q = true -> Z.max start (30 * low) <= fst g * q ->
  multiples_from m (fst g) (snd g) (fst g * q).
Proof.
  intros (P1 & P2 & P3) Hq Cq Hge. exists q. split; [|split; [exact Cq|reflexivity]].
  destruct (Z_lt_le_dec q (snd g)) as [L|G]; [|exact G].
  specialize (P3 q ltac:(lia) Cq). lia.
Qed.

Lemma crossed_composite m start low gs x :
  Forall (pending m start low) gs -> crossed m gs x -> ~ prime x.
Proof.
  intros P (g & Hg & c & Hc & _ & ->).
  rewrite List.Forall_forall in P. destruct (P g Hg) as (P1 & P2 & _).
  apply prime_not_product; lia.
Qed.

Lemma small_prime_cases p : prime p -> p < 23 -> In p smallPrimeTable.
Proof.
  intros Pp Hp. pose proof (prime_ge_2' p Pp).
  assert (Hq : In p (map Z.of_nat (seq 2 21))).
  { apply in_map_iff. exists (Z.to_nat p). split; [lia|]. apply in_seq. lia. }
  simpl in Hq. unfold smallPrimeTable.
  repeat (destruct Hq as [<-|Hq];
          [first [ simpl; tauto
                 | exfalso; apply (prime_no_divisor _ 2 Pp);
                   [lia|match goal with |- (?d | ?n) => exists (n / d); reflexivity end]
                 | exfalso; apply (prime_no_divisor _ 3 Pp);
                   [lia|match goal with |- (?d | ?n) => exists (n / d); reflexivity end] ]|]).
  contradiction.
Qed.

Lemma held_ghost (gs : list (Z * Z)) p :
  In p (map fst gs) -> exists g, In g gs /\ fst g = p.
Proof. intros H. apply in_map_iff in H. destruct H as (g & E & H). eauto. Qed.

Section Segment.

Variables start stop sieveSize : Z.
Hypothesis sieveSize_bounds : 0 < sieveSize <= 2 ^ 32.

(** Step 4 of the driver. *)
Lemma engines_crossOff_spec low gsS gsM gsB e sieve :
  engines_at start sieveSize low gsS gsM gsB e ->
  length sieve = Z.to_nat sieveSize ->
  exists sieve' e' gsS' gsM' gsB',
    crossOff sieve sieveSize e = Ok (sieve', e') /\
    engines_at start sieveSize (low + sieveSize) gsS' gsM' gsB' e' /\
    map fst gsS' = map fst gsS /\ map fst gsM' = map fst gsM /\
    map fst gsB' = map fst gsB /\
    cleared low (crossedAll gsS gsM gsB) sieve sieve'.
Proof.
  intros (FS & FM & FB & PS & PM & PB) Hlen.
  assert (Hfuel : 30 * sieveSize <= Z.of_nat (loopFuel sieveSize))
    by (unfold loopFuel; lia).
  unfold crossOff.
  (* EratSmall *)
  destruct (small_crossOffEach_spec low sieveSize sieveSize_bounds (loopFuel sieveSize)
              gsS _ FS (fun _ => False) sieve sieve Hlen
              ltac:(apply cleared_refl; tauto) Hfuel)
    as (sieve1 & rsS & gsS' & ES & FS' & MS & CS).
  unfold EratSmall.crossOff. rewrite ES. cbn [bind].
  assert (L1 : length sieve1 = Z.to_nat sieveSize) by (destruct CS as (L & _); lia).
  (* EratMedium *)
  assert (EM : exists sieve2 em gsM',
             match EratMedium.primes_ (eratMedium e) with
             | [] => Ok (sieve1, eratMedium e)
             | _ :: _ => EratMedium.crossOff (loopFuel sieveSize) sieve1 sieveSize (eratMedium e)
             end = Ok (sieve2, em) /\
             Forall2 (stored 210 (low + sieveSize)) gsM' (EratMedium.primes_ em) /\
             Forall2 (moved 210 low sieveSize) gsM gsM' /\
             cleared low (crossed 210 gsM) sieve1 sieve2).
  { destruct (EratMedium.primes_ (eratMedium e)) as [|r rs] eqn:Ep.
    - inversion FM; subst. exists sieve1, (eratMedium e), [].
      split; [reflexivity|]. rewrite Ep. split; [constructor|]. split; [constructor|].
      apply cleared_refl. apply crossed_nil.
    - rewrite <- Ep in FM.
      destruct (MediumFacts.crossOff_spec low sieveSize ltac:(lia) (loopFuel sieveSize)
                  gsM (eratMedium e) sieve1 FM ltac:(rewrite Ep; discriminate) L1 Hfuel)
        as (sieve2 & em & gsM' & E & _ & _ & _ & St & A & C).
      exists sieve2, em, gsM'. split; [exact E|]. split; [exact St|]. split; [|exact C].
      apply Forall2_advanced_moved; [eapply stored_pos; exact FM|exact A]. }
  destruct EM as (sieve2 & em & gsM' & EM & FM' & MM & CM).
  rewrite EM. cbn [bind].
  assert (L2 : length sieve2 = Z.to_nat sieveSize) by (destruct CM as (L & _); lia).
  (* EratBig *)
  destruct (drain_spec low sieveSize sieveSize_bounds (loopFuel sieveSize)
              gsB _ FB (fun _ => False) sieve2 sieve2 L2
              ltac:(apply cleared_refl; tauto) Hfuel)
    as (sieve3 & bsB & gsB' & EB & FB' & MB & CB).
  unfold EratBig.crossOff. rewrite EB. cbn [bind].
  eexists sieve3, _, gsS', gsM', gsB'. split; [reflexivity|].
  split; [|split; [|split; [|split]]].
  - unfold engines_at. cbn.
    split; [exact FS'|]. split; [exact FM'|]. split; [exact FB'|].
    split; [exact (Forall_pending_moved 30 start low sieveSize gsS gsS' ltac:(lia) PS MS)|].
    split; [exact (Forall_pending_moved 210 start low sieveSize gsM gsM' ltac:(lia) PM MM)|].
    exact (Forall_pending_moved 210 start low sieveSize gsB gsB' ltac:(lia) PB MB).
  - eapply Forall2_moved_fst; eauto.
  - eapply Forall2_moved_fst; eauto.
  - eapply Forall2_moved_fst; eauto.
  - pose proof (cleared_trans _ _ _ _ _ _ (cleared_trans _ _ _ _ _ _ CS CM) CB) as C.
    eapply cleared_ext; [|exact C]. intros k b _ _. unfold crossedAll. cbv beta. tauto.
Qed.

(** What survives the pre-sieve, the clearing outside of [[start, stop]]
    and the three engines is prime, and every prime survives. *)
Lemma survivor_prime low gsS gsM gsB n :
  20 <= start ->
  Forall (pending 30 start low) gsS ->
  Forall (pending 210 start low) gsM ->
  Forall (pending 210 start low) gsB ->
  (forall p, prime p -> 19 < p -> p * p <= stop -> held gsS gsM gsB p) ->
  coprimeb 30 n = true -> 30 * low <= n ->
  (((PreSieve.hasFactor n = false /\ start <= n) /\ n <= stop) /\ ~ crossedAll gsS gsM gsB n)
  <-> (start <= n <= stop /\ prime n).
Proof.
  intros Hstart PS PM PB Held Cn Hlow. split.
  - intros (((HF & H1) & H2) & NC). split; [lia|].
    destruct (prime_dec n) as [Pn|NP]; [exact Pn|exfalso].
    destruct (composite_factor n ltac:(lia) NP) as (p & q & Pp & Hpq & En).
    pose proof (prime_ge_2' p Pp) as Hp2.
    assert (Dp : (p | n)) by (exists q; lia).
    assert (Dq : (q | n)) by (exists p; lia).
    rewrite hasFactor_false in HF.
    (* the least factor is beyond the pre-sieve *)
    assert (Hp : 19 < p).
    { destruct (Z_lt_le_dec p 23) as [L|G]; [exfalso|lia].
      apply small_prime_cases in L; [|exact Pp].
      unfold smallPrimeTable in L. simpl in L.
      destruct L as [<-|[<-|[<-|L]]].
      - apply (coprimeb_elim 30 n 2 Cn); [lia|exists 15; lia|exact Dp].
      - apply (coprimeb_elim 30 n 3 Cn); [lia|exists 10; lia|exact Dp].
      - apply (coprimeb_elim 30 n 5 Cn); [lia|exists 6; lia|exact Dp].
      - apply (HF p); [|exact Dp]. unfold PreSieve.primes. simpl. tauto. }
    (* the cofactor is on both wheels *)
    assert (C210 : coprimeb 210 q = true).
    { apply coprimeb_intro; [lia|]. intros r Pr Dr Drq.
      assert (Drn : (r | n)) by (apply Z.divide_trans with q; assumption).
      apply prime_divides_210 in Dr; [|exact Pr].
      destruct Dr as [-> | [-> | [-> | -> ]]].
      - apply (coprimeb_elim 30 n 2 Cn); [lia|exists 15; lia|exact Drn].
      - apply (coprimeb_elim 30 n 3 Cn); [lia|exists 10; lia|exact Drn].
      - apply (coprimeb_elim 30 n 5 Cn); [lia|exists 6; lia|exact Drn].
      - apply (HF 7); [unfold PreSieve.primes; simpl; tauto|exact Drn]. }
    assert (C30 : coprimeb 30 q = true).
    { apply coprimeb_intro; [lia|]. intros r Pr Dr Drq.
      apply (coprimeb_elim 210 q r C210); [pose proof (prime_ge_2' r Pr); lia| |exact Drq].
      apply Z.divide_trans with 30; [exact Dr|exists 7; lia]. }
    apply NC. assert (Hpp : p * p <= stop) by nia.
    destruct (Held p Pp Hp Hpp) as [H|[H|H]]; apply held_ghost in H;
      destruct H as (g & Hg & <-).
    + left. exists g. split; [exact Hg|]. rewrite En.
      rewrite List.Forall_forall in PS.
      apply (pending_crossed 30 start low g q (PS g Hg)); [exact Hpq|exact C30|lia].
    + right. left. exists g. split; [exact Hg|]. rewrite En.
      rewrite List.Forall_forall in PM.
      apply (pending_crossed 210 start low g q (PM g Hg)); [exact Hpq|exact C210|lia].
    + right. right. exists g. split; [exact Hg|]. rewrite En.
      rewrite List.Forall_forall in PB.
      apply (pending_crossed 210 start low g q (PB g Hg)); [exact Hpq|exact C210|lia].
  - intros (Hn & Pn). split; [split; [split|]|]; try lia.
    + apply hasFactor_false. intros q Hq Dq.
      assert (1 < q < n) by (unfold PreSieve.primes in Hq; simpl in Hq; intuition lia).
      now apply (prime_no_divisor n q Pn).
    + intros [C|[C|C]].
      * exact (crossed_composite 30 start low gsS n PS C Pn).
      * exact (crossed_composite 210 start low gsM n PM C Pn).
      * exact (crossed_composite 210 start low gsB n PB C Pn).
Qed.

(** Steps 1 to 4 leave the primes of the segment that lie in
    [[start, stop]], and the engines positioned for the next segment. *)
Lemma sieveSegment_spec low (first last : bool) gsS gsM gsB e :
  20 <= start ->
  engines_at start sieveSize low gsS gsM gsB e ->
  (forall p, prime p -> 19 < p -> p * p <= stop -> held gsS gsM gsB p) ->
  start / 30 <= low ->
  (first = false -> start / 30 < low) ->
  (last = false -> low + sieveSize <= stop / 30) ->
  exists sieve' e' gsS' gsM' gsB',
    sieveSegment start stop sieveSize low first last e = Ok (sieve', e') /\
    length sieve' = Z.to_nat sieveSize /\
    represents low (fun x => start <= x <= stop /\ prime x) sieve' /\
    engines_at start sieveSize (low + sieveSize) gsS' gsM' gsB' e' /\
    (forall p, held gsS gsM gsB p -> held gsS' gsM' gsB' p).
Proof.
  intros Hstart EA Held Hlow Hfirst Hlast.
  unfold sieveSegment.
  pose proof (apply_represents low sieveSize) as R0.
  pose proof (apply_length low sieveSize) as L0.
  set (s0 := PreSieve.apply low sieveSize) in *.
  set (s1 := if first then Scan.clearBelow start low s0 else s0).
  assert (L1 : length s1 = Z.to_nat sieveSize).
  { unfold s1. destruct first; [rewrite clearBelow_length|]; exact L0. }
  assert (R1 : represents low (fun x => PreSieve.hasFactor x = false /\ start <= x) s1).
  { unfold s1. destruct first; [now apply clearBelow_represents|].
    eapply represents_ext; [|exact R0]. intros k b Hk Hb. cbv beta.
    specialize (Hfirst eq_refl).
    pose proof (residue_bounds b Hb). unfold number.
    pose proof (Z.div_mod start 30 ltac:(lia)).
    pose proof (Z.mod_pos_bound start 30 ltac:(lia)).
    split; [intros H2; split; [exact H2|lia]|tauto]. }
  set (s2 := if last then Scan.clearAbove stop low s1 else s1).
  assert (L2 : length s2 = Z.to_nat sieveSize).
  { unfold s2. destruct last; [rewrite clearAbove_length|]; exact L1. }
  assert (R2 : represents low (fun x => (PreSieve.hasFactor x = false /\ start <= x) /\ x <= stop) s2).
  { unfold s2. destruct last; [now apply clearAbove_represents|].
    eapply represents_ext; [|exact R1]. intros k b Hk Hb. cbv beta.
    specialize (Hlast eq_refl). rewrite L1 in Hk.
    pose proof (number_in_segment low sieveSize sieveSize_bounds k b Hk Hb).
    pose proof (Z.mul_div_le stop 30 ltac:(lia)).
    split; [intros H2; split; [exact H2|lia]|tauto]. }
  destruct (engines_crossOff_spec low gsS gsM gsB e s2 EA L2)
    as (sieve' & e' & gsS' & gsM' & gsB' & E & EA' & FS & FM & FB & C).
  exists sieve', e', gsS', gsM', gsB'. split; [exact E|].
  split; [destruct C as (L & _); lia|]. split; [|split; [exact EA'|]].
  - pose proof (represents_cleared low _ _ s2 sieve' R2 C) as R3.
    eapply represents_ext; [|exact R3]. intros k b Hk Hb. cbv beta.
    destruct EA as (_ & _ & _ & PS & PM & PB).
    apply (survivor_prime low gsS gsM gsB); try assumption.
    + now apply number_coprime.
    + unfold number. pose proof (residue_bounds b Hb). lia.
  - unfold held. rewrite FS, FM, FB. tauto.
Qed.

(** Step 5, for all segments: each holds the primes of its part of
    [[start, stop]], whatever the scan is. *)
Lemma segments_spec n : forall low (first : bool) gsS gsM gsB e,
  20 <= start ->
  engines_at start sieveSize low gsS gsM gsB e ->
  (forall p, prime p -> 19 < p -> p * p <= stop -> held gsS gsM gsB p) ->
  start / 30 <= low ->
  (first = false -> start / 30 < low) ->
  (n <> O -> low + (Z.of_nat n - 1) * sieveSize <= stop / 30) ->
  exists sieves,
    length sieves = n /\
    finished (fun x => start <= x <= stop /\ prime x) sieveSize low sieves /\
    forall A (scan : Z -> Sieve -> A),
      segments scan start stop sieveSize n low first e
      = Ok (scanned scan sieveSize low sieves).
Proof.
  induction n as [|n IH]; intros low first gsS gsM gsB e Hstart EA Held Hlow Hfirst Hn.
  - exists []. split; [reflexivity|]. split; [exact I|]. reflexivity.
  - specialize (Hn ltac:(discriminate)).
    destruct (sieveSegment_spec low first (match n with O => true | S _ => false end)
                gsS gsM gsB e Hstart EA Held Hlow Hfirst)
      as (sieve' & e' & gsS' & gsM' & gsB' & E & L & R & EA' & Held').
    { destruct n; [discriminate|]. intros _. nia. }
    destruct (IH (low + sieveSize) false gsS' gsM' gsB' e' Hstart EA')
      as (sieves & Ls & F & Eq).
    + intros p Pp Hp Hpp. apply Held'. now apply Held.
    + lia.
    + intros _. lia.
    + intros NZ. lia.
    + exists (sieve' :: sieves). split; [simpl; now rewrite Ls|]. split.
      * simpl. split; [exact L|]. split; [exact R|exact F].
      * intros A scan. simpl. rewrite E. cbn [bind]. rewrite Eq. reflexivity.
Qed.

End Segment.

(** *** The scans of the finished segments *)

Lemma scanned_count (sieveSize : Z) sieves : forall low,
  fold_right Z.add 0 (scanned Scan.count sieveSize low sieves)
  = Z.of_nat (length (concat (scanned Scan.numbers sieveSize low sieves))).
Proof.
  induction sieves as [|s sieves IH]; intros low; [reflexivity|].
  simpl. rewrite length_app, IH, count_numbers. lia.
Qed.

Lemma scanned_in (P : Z -> Prop) sieveSize sieves : forall low x,
  0 < sieveSize ->
  finished P sieveSize low sieves ->
  (forall y, P y -> coprimeb 30 y = true) ->
  (In x (concat (scanned Scan.numbers sieveSize low sieves)) <->
   30 * low <= x < 30 * (low + Z.of_nat (length sieves) * sieveSize) /\ P x).
Proof.
  induction sieves as [|s sieves IH]; intros low x Hs F C.
  - simpl. split; [intros []|]. intros (H & _). lia.
  - destruct F as (L & R & F). simpl concat. rewrite in_app_iff.
    rewrite (IH (low + sieveSize) x Hs F C). rewrite in_numbers.
    change (length (s :: sieves)) with (S (length sieves)). split.
    + intros [(k & byte & b & Hk & Hb & T & ->)|(H1 & H2)].
      * assert (k < length s)%nat by (apply lookup_lt_is_Some; eauto).
        pose proof (residue_bounds b Hb).
        split; [unfold number; nia|].
        destruct (R k byte Hk) as (R1 & _). now apply R1.
      * split; [nia|exact H2].
    + intros (H1 & H2).
      destruct (Z_lt_le_dec x (30 * (low + sieveSize))) as [Lt|Ge].
      * left. destruct (number_exists low (length s) x ltac:(lia) (C x H2))
          as (k & b & Hk & Hb & ->).
        destruct (lookup_lt_is_Some_2 s k Hk) as (byte & Hbyte).
        exists k, byte, b. split; [exact Hbyte|]. split; [exact Hb|]. split; [|reflexivity].
        destruct (R k byte Hbyte) as (R1 & _). now apply R1.
      * right. split; [nia|exact H2].
Qed.

Lemma scanned_sorted (P : Z -> Prop) sieveSize sieves : forall low,
  0 < sieveSize ->
  finished P sieveSize low sieves ->
  StronglySorted Z.lt (concat (scanned Scan.numbers sieveSize low sieves)) /\
  forall x, In x (concat (scanned Scan.numbers sieveSize low sieves)) -> 30 * low < x.
Proof.
  induction sieves as [|s sieves IH]; intros low Hs F.
  - split; [constructor|intros x []].
  - destruct F as (L & R & F). destruct (IH (low + sieveSize) Hs F) as (S' & B').
    simpl concat. split.
    + apply sorted_app; [apply numbers_sorted|exact S'|].
      intros x y Hx Hy. apply numbers_bounds in Hx. apply B' in Hy. lia.
    + intros x Hx. apply in_app_or in Hx. destruct Hx as [Hx|Hx].
      * apply numbers_bounds in Hx. lia.
      * apply B' in Hx. lia.
Qed.

End SegmentFacts.

(** ** The run of the sieve *)

Module DriverFacts.
Import Wheel Meaning Segment PrimeSieve.
Import WheelFacts WheelFacts2 SieveFacts RecordFacts MediumFacts PrimeFacts ScanFacts
  EngineSpecs SegmentFacts.

Lemma prime_coprime30 p : prime p -> 5 < p -> coprimeb 30 p = true.
Proof.
  intros Pp Hp. apply coprimeb_intro; [lia|]. intros q Pq D30 Dp.
  apply prime_divides_30 in D30; [|exact Pq].
  assert (q = p) by (apply prime_divides_prime; assumption). lia.
Qed.

Section Init.

Variable r_s : Z.
Variables start stop sieveSize : Z.
Hypothesis start_bounds : 20 <= start <= stop.
Hypothesis stop_bound : stop < 2 ^ 64.
Hypothesis sieveSize_bounds : 0 < sieveSize <= 4096 * 1024.

Let low := start / 30.

Lemma low_bounds : 0 <= low /\ 30 * low <= start < 30 * low + 30.
Proof.
  unfold low. pose proof (Z.div_mod start 30 ltac:(lia)).
  pose proof (Z.mod_pos_bound start 30 ltac:(lia)).
  split; [apply Z.div_pos; lia|lia].
Qed.

(** The first cofactor of a sieving prime. *)
Lemma firstCofactor_spec m' p :
  0 < m' <= 7 -> prime p -> 19 < p -> p * p <= stop ->
  let m := 30 * m' in
  let c := firstCofactor m start p in
  coprimeb m c = true /\ pending m start low (p, c) /\
  low <= (p * c) / 30 /\ (p * c) / 30 - low < 2 ^ 63 /\ prime_ok p.
Proof.
  intros Hm Pp Hp Hpp m c.
  assert (Hp32 : p < 2 ^ 32) by nia.
  set (ceil := (start + p - 1) / p) in *.
  assert (Hceil : start <= p * ceil <= start + p - 1).
  { unfold ceil. pose proof (Z.div_mod (start + p - 1) p ltac:(lia)).
    pose proof (Z.mod_pos_bound (start + p - 1) p ltac:(lia)). lia. }
  destruct (firstCoprime_spec m (Z.max p ceil) ltac:(unfold m; lia)) as (F1 & F2 & F3).
  fold ceil in c. change (firstCoprime m (Z.max p ceil)) with c in F1, F2, F3.
  pose proof low_bounds as (L0 & L1).
  assert (Hc0 : p * (Z.max p ceil) < 2 ^ 64 + 2 ^ 32) by (destruct (Z.max_spec p ceil); nia).
  assert (Hpc : start <= p * c) by nia.
  assert (Hpc' : p * c < 2 ^ 65) by (unfold m in F1; nia).
  split; [exact F2|]. split; [|split; [|split; [|split]]].
  - split; [simpl; lia|]. split; [simpl; lia|]. simpl. intros x Hx Cx.
    destruct (Z_lt_le_dec x (Z.max p ceil)) as [L|G].
    + assert (x < ceil) by lia. nia.
    + rewrite F3 in Cx by lia. discriminate.
  - apply Z.div_le_lower_bound; lia.
  - assert ((p * c) / 30 < 2 ^ 63) by (apply Z.div_lt_upper_bound; lia). lia.
  - apply prime_coprime30; [exact Pp|lia].
  - lia.
Qed.

(** Adding a sieving prime keeps the engines in order and makes one of
    them hold it. *)
Lemma addSievingPrime_spec p gsS gsM gsB e :
  prime p -> p * p <= stop ->
  engines_at start sieveSize low gsS gsM gsB e ->
  EratBig.sieveSize_ (eratBig e) = sieveSize ->
  exists e' gsS' gsM' gsB',
    addSievingPrime start low p e = Ok e' /\
    engines_at start sieveSize low gsS' gsM' gsB' e' /\
    EratBig.sieveSize_ (eratBig e') = sieveSize /\
    EratSmall.maxPrime_ (eratSmall e') = EratSmall.maxPrime_ (eratSmall e) /\
    EratMedium.maxPrime_ (eratMedium e') = EratMedium.maxPrime_ (eratMedium e) /\
    (forall q, held gsS gsM gsB q -> held gsS' gsM' gsB' q) /\
    (19 < p -> held gsS' gsM' gsB' p).
Proof.
  intros Pp Hpp (FS & FM & FB & PS & PM & PB) Hbig.
  unfold addSievingPrime, preSieveLimit.
  destruct (Z.leb_spec p 19) as [Small|Hp].
  { exists e, gsS, gsM, gsB. repeat split; try assumption; try tauto; lia. }
  destruct (Z.leb_spec p (EratSmall.maxPrime_ (eratSmall e))) as [InS|NotS].
  { destruct (firstCofactor_spec 1 p ltac:(lia) Pp Hp Hpp) as (C & Pe & M1 & M2 & Pok).
    change (30 * 1) with 30 in *.
    set (c := firstCofactor 30 start p) in *.
    eexists _, (gsS ++ [(p, c)]), gsM, gsB. split; [reflexivity|].
    split; [|split; [exact Hbig|split; [reflexivity|split; [reflexivity|split]]]].
    - unfold engines_at. cbn.
      split; [|split; [exact FM|split; [exact FB|split; [|split; assumption]]]].
      + apply Forall2_app_intro; [exact FS|]. constructor; [|constructor].
        unfold stored, at_multiple. cbn. repeat split; try assumption; try lia; apply Pok.
      + apply Forall_app. split; [exact PS|]. constructor; [exact Pe|constructor].
    - unfold held. intros q. rewrite map_app, in_app_iff. tauto.
    - intros _. unfold held. left. rewrite map_app, in_app_iff. right. simpl. tauto. }
  destruct (firstCofactor_spec 7 p ltac:(lia) Pp Hp Hpp) as (C & Pe & M1 & M2 & Pok).
  change (30 * 7) with 210 in *.
  set (c := firstCofactor 210 start p) in *.
  destruct (Z.leb_spec p (EratMedium.maxPrime_ (eratMedium e))) as [InM|NotM].
  - unfold EratMedium.storeSievingPrime.
    destruct (Z.leb_spec p (EratMedium.maxPrime_ (eratMedium e))) as [_|F]; [|lia].
    cbn [bind].
    eexists _, gsS, (gsM ++ [(p, c)]), gsB. split; [reflexivity|].
    split; [|split; [exact Hbig|split; [reflexivity|split; [reflexivity|split]]]].
    + unfold engines_at. cbn.
      split; [exact FS|split; [|split; [exact FB|split; [exact PS|split; [|exact PB]]]]].
      * apply Forall2_app_intro; [exact FM|]. constructor; [|constructor].
        unfold stored, at_multiple. cbn. repeat split; try assumption; try lia; apply Pok.
      * apply Forall_app. split; [exact PM|]. constructor; [exact Pe|constructor].
    + unfold held. intros q. rewrite map_app, in_app_iff. tauto.
    + intros _. unfold held. right. left. rewrite map_app, in_app_iff. right. simpl. tauto.
  - eexists _, gsS, gsM, (gsB ++ [(p, c)]). split; [reflexivity|].
    split; [|split; [exact Hbig|split; [reflexivity|split; [reflexivity|split]]]].
    + unfold engines_at. cbn.
      split; [exact FS|split; [exact FM|split; [|split; [exact PS|split; [exact PM|]]]]].
      * apply Forall2_app_intro; [exact FB|]. constructor; [|constructor].
        rewrite Hbig. set (mi := (p * c) / 30 - low).
        pose proof (Z.div_mod mi sieveSize ltac:(lia)) as D.
        pose proof (Z.mod_pos_bound mi sieveSize ltac:(lia)) as M.
        pose proof (Z.div_pos mi sieveSize ltac:(lia) ltac:(lia)) as Q.
        split; [exact Q|]. unfold stored, at_multiple. cbn.
        repeat split; try assumption; try lia; apply Pok.
      * apply Forall_app. split; [exact PB|]. constructor; [exact Pe|constructor].
    + unfold held. intros q. rewrite !map_app, !in_app_iff. tauto.
    + intros _. unfold held. right. right. rewrite map_app, in_app_iff. right. simpl. tauto.
Qed.

Lemma foldM_add_spec sp : forall gsS gsM gsB e,
  (forall p, In p sp -> prime p /\ p * p <= stop) ->
  engines_at start sieveSize low gsS gsM gsB e ->
  EratBig.sieveSize_ (eratBig e) = sieveSize ->
  exists e' gsS' gsM' gsB',
    foldM (addSievingPrime start low) sp e = Ok e' /\
    engines_at start sieveSize low gsS' gsM' gsB' e' /\
    (forall q, held gsS gsM gsB q -> held gsS' gsM' gsB' q) /\
    (forall p, In p sp -> 19 < p -> held gsS' gsM' gsB' p).
Proof.
  induction sp as [|p sp IH]; intros gsS gsM gsB e Hsp EA Hbig.
  - exists e, gsS, gsM, gsB. split; [reflexivity|]. split; [exact EA|].
    split; [tauto|]. intros p [].
  - destruct (Hsp p (or_introl eq_refl)) as (Pp & Hpp).
    destruct (addSievingPrime_spec p gsS gsM gsB e Pp Hpp EA Hbig)
      as (e1 & gsS1 & gsM1 & gsB1 & E1 & EA1 & Hbig1 & _ & _ & Held1 & Hp1).
    destruct (IH gsS1 gsM1 gsB1 e1 ltac:(intros q Hq; apply Hsp; now right) EA1 Hbig1)
      as (e' & gsS' & gsM' & gsB' & E' & EA' & Held' & Hsp').
    exists e', gsS', gsM', gsB'. split; [simpl; rewrite E1; exact E'|].
    split; [exact EA'|]. split; [auto|].
    intros q [<-|Hq] H19; [apply Held'; now apply Hp1|now apply Hsp'].
Qed.

(** The engines of a fresh run hold nothing. *)
Lemma newEngines_spec :
  exists e, newEngines r_s stop sieveSize = Ok e /\
    engines_at start sieveSize low [] [] [] e /\
    EratBig.sieveSize_ (eratBig e) = sieveSize.
Proof.
  unfold newEngines, EratSmall.new, EratMedium.new, EratBig.new.
  change (Z.shiftl 4096 10) with (4096 * 1024).
  destruct (Z.gtb_spec sieveSize (4096 * 1024)) as [G|_]; [lia|]. cbn [bind].
  assert (W : wrap64 (sieveSize * 5) = sieveSize * 5)
    by (apply wrap64_small; unfold is_u64; lia).
  rewrite W. destruct (Z.gtb_spec (sieveSize * 5) (sieveSize * 5)) as [G|_]; [lia|].
  cbn [bind]. eexists. split; [reflexivity|]. split; [|reflexivity].
  unfold engines_at. cbn. repeat split; constructor.
Qed.

End Init.

Section Run.

Variable r_s : Z.
Variable sieveSize : Z.
Hypothesis sieveSize_bounds : 0 < sieveSize <= 4096 * 1024.

(** The sieve of [[start, stop]], given the primes up to the square root
    of [stop]: its segments hold the primes from 20 on. *)
Lemma sieve_spec sp start stop :
  stop < 2 ^ 64 ->
  (forall p, In p sp -> prime p /\ p * p <= stop) ->
  (forall p, prime p -> 19 < p -> p * p <= stop -> In p sp) ->
  exists sieves,
    finished (fun x => Z.max start 20 <= x <= stop /\ prime x) sieveSize
      (Z.max start 20 / 30) sieves /\
    (Z.max start 20 <= stop ->
     stop / 30 < Z.max start 20 / 30 + Z.of_nat (length sieves) * sieveSize) /\
    (stop < Z.max start 20 -> sieves = []) /\
    forall A (scan : Z -> Sieve -> A),
      sieve r_s scan sp start stop sieveSize
      = Ok (scanned scan sieveSize (Z.max start 20 / 30) sieves).
Proof.
  intros Hstop Hsp Hall. unfold sieve.
  change (preSieveLimit + 1) with 20.
  set (start' := Z.max start 20).
  destruct (Z.gtb_spec start' stop) as [G|L].
  - exists []. split; [exact I|]. split; [lia|]. split; [reflexivity|]. reflexivity.
  - assert (SB : 20 <= start' <= stop) by lia.
    destruct (newEngines_spec r_s start' stop sieveSize sieveSize_bounds)
      as (e0 & E0 & EA0 & B0).
    destruct (foldM_add_spec start' stop sieveSize SB Hstop sieveSize_bounds sp
                [] [] [] e0 Hsp EA0 B0)
      as (e1 & gsS & gsM & gsB & E1 & EA1 & _ & Held).
    set (low := start' / 30) in *.
    set (d := (stop / 30 - low) / sieveSize).
    assert (Hlow : low <= stop / 30) by (apply Z.div_le_mono; lia).
    assert (Hd : 0 <= d) by (apply Z.div_pos; lia).
    pose proof (Z.div_mod (stop / 30 - low) sieveSize ltac:(lia)) as D.
    pose proof (Z.mod_pos_bound (stop / 30 - low) sieveSize ltac:(lia)) as M.
    fold d in D.
    destruct (segments_spec start' stop sieveSize ltac:(lia) (Z.to_nat (d + 1)) low true
                gsS gsM gsB e1 ltac:(lia) EA1)
      as (sieves & Ls & F & Eq).
    + intros p Pp Hp Hpp. apply Held; [|exact Hp]. now apply Hall.
    + lia.
    + discriminate.
    + intros _. lia.
    + exists sieves. split; [exact F|]. split; [intros _; rewrite Ls; lia|].
      split; [lia|]. intros A scan. rewrite E0. cbn [bind]. rewrite E1. cbn [bind].
      apply Eq.
Qed.

(** The callback arguments of the sieve proper: the primes of
    [[start, stop]] from 20 on, in increasing order. *)
Lemma found_spec sp start stop :
  stop < 2 ^ 64 ->
  (forall p, In p sp -> prime p /\ p * p <= stop) ->
  (forall p, prime p -> 19 < p -> p * p <= stop -> In p sp) ->
  exists found counts,
    sieve r_s Scan.numbers sp start stop sieveSize = Ok found /\
    sieve r_s Scan.count sp start stop sieveSize = Ok counts /\
    fold_right Z.add 0 counts = Z.of_nat (length (concat found)) /\
    StronglySorted Z.lt (concat found) /\
    (forall x, In x (concat found) <-> (start <= x <= stop /\ 19 < x /\ prime x)).
Proof.
  intros Hstop Hsp Hall.
  destruct (sieve_spec sp start stop Hstop Hsp Hall) as (sieves & F & Cover & Empty & Eq).
  eexists _, _. split; [apply Eq|]. split; [apply Eq|].
  split; [apply scanned_count|].
  split; [eapply scanned_sorted; [lia|exact F]|].
  intros x. rewrite (scanned_in _ sieveSize sieves _ x ltac:(lia) F).
  - pose proof (Z.div_mod (Z.max start 20) 30 ltac:(lia)).
    pose proof (Z.mod_pos_bound (Z.max start 20) 30 ltac:(lia)).
    pose proof (Z.div_mod stop 30 ltac:(lia)).
    pose proof (Z.mod_pos_bound stop 30 ltac:(lia)).
    split.
    + intros (_ & Hx1 & Hx2). split; [lia|]. split; [lia|exact Hx2].
    + intros (Hx1 & Hx2 & Hx3). split; [|split; [lia|exact Hx3]].
      specialize (Cover ltac:(lia)). nia.
  - intros y (Hy & Py). apply prime_coprime30; [exact Py|lia].
Qed.

Lemma table_prime q : In q smallPrimeTable -> prime q.
Proof.
  intros H. apply trialDivision_prime.
  unfold smallPrimeTable in H. simpl in H.
  repeat (destruct H as [<-|H]; [vm_compute; reflexivity|]). contradiction.
Qed.

Lemma in_smallPrimes start stop x :
  In x (smallPrimes start stop) <-> (start <= x <= stop /\ x <= 19 /\ prime x).
Proof.
  unfold smallPrimes. rewrite filter_In, andb_true_iff, Z.leb_le, Z.leb_le. split.
  - intros (H & H1). split; [lia|]. split; [|now apply table_prime].
    unfold smallPrimeTable in H. simpl in H. intuition lia.
  - intros (H1 & H2 & H3). split; [|lia]. apply small_prime_cases; [exact H3|lia].
Qed.

Lemma smallPrimes_sorted start stop : StronglySorted Z.lt (smallPrimes start stop).
Proof.
  apply filter_sorted. unfold smallPrimeTable.
  repeat (constructor; [|repeat (constructor; [lia|]); constructor]). constructor.
Qed.

(** The small primes of the lookup followed by the primes of the sieve:
    all the primes of [[start, stop]], in increasing order. *)
Lemma primes_joined start stop found :
  StronglySorted Z.lt found ->
  (forall x, In x found <-> (start <= x <= stop /\ 19 < x /\ prime x)) ->
  smallPrimes start stop ++ found = Oracle.primesBetween start stop.
Proof.
  intros S H. apply sorted_ext.
  - apply sorted_app; [apply smallPrimes_sorted|exact S|].
    intros x y Hx Hy. apply in_smallPrimes in Hx. apply H in Hy. lia.
  - apply primesBetween_sorted.
  - intros x. rewrite in_app_iff, in_smallPrimes, H, in_primesBetween.
    split; [tauto|]. intros (H1 & H2).
    destruct (Z_le_gt_dec x 19); [left|right]; (split; [lia|split; [lia|exact H2]]).
Qed.

Lemma depthBound_pos depth : 400 <= depthBound depth.
Proof. induction depth as [|d IH]; simpl depthBound; [lia|nia]. Qed.

Lemma sqrt_lt stop b : 0 < b -> stop < b * b -> Z.sqrt stop < b.
Proof.
  intros Hb H. destruct (Z_lt_le_dec stop 0) as [N|NN]; [rewrite Z.sqrt_neg; lia|].
  apply Z.sqrt_lt_square; lia.
Qed.

Lemma sqrt_ge stop p : 0 <= p -> p * p <= stop -> p <= Z.sqrt stop.
Proof. intros Hp H. apply Z.sqrt_le_square; nia. Qed.

Lemma sqrt_sq stop : 0 <= stop -> Z.sqrt stop * Z.sqrt stop <= stop.
Proof. intros H. apply Z.sqrt_le_square; [exact H|apply Z.sqrt_nonneg|lia]. Qed.

(** The recursion on the square root finds every prime whose square is at
    most [stop]. *)
Lemma sievingPrimes_spec depth : forall stop,
  stop < 2 ^ 64 -> stop < depthBound depth ->
  exists sp,
    sievingPrimes r_s depth sieveSize stop = Ok sp /\
    (forall p, In p sp -> prime p /\ p * p <= stop) /\
    (forall p, prime p -> 19 < p -> p * p <= stop -> In p sp).
Proof.
  induction depth as [|depth IH]; intros stop Hstop Hdepth.
  - exists []. cbn [sievingPrimes]. unfold preSieveLimit.
    pose proof (sqrt_lt stop 20 ltac:(lia) ltac:(simpl in Hdepth; lia)) as Hs.
    destruct (Z.leb_spec (Z.sqrt stop) 19); [|lia].
    split; [reflexivity|]. split; [intros p []|].
    intros p Pp Hp Hpp. exfalso. pose proof (sqrt_ge stop p ltac:(lia) Hpp). lia.
  - cbn [sievingPrimes]. unfold preSieveLimit.
    destruct (Z.leb_spec (Z.sqrt stop) 19) as [Small|Big].
    + exists []. split; [reflexivity|]. split; [intros p []|].
      intros p Pp Hp Hpp. exfalso. pose proof (sqrt_ge stop p ltac:(lia) Hpp). lia.
    + assert (NN : 0 <= stop).
      { destruct (Z_lt_le_dec stop 0) as [N|NN]; [rewrite Z.sqrt_neg in Big; lia|exact NN]. }
      pose proof (sqrt_sq stop NN) as Sq.
      pose proof (depthBound_pos depth) as DP.
      assert (Hl : Z.sqrt stop < depthBound depth)
        by (apply sqrt_lt; [lia|exact Hdepth]).
      set (limit := Z.sqrt stop) in *.
      destruct (IH limit ltac:(nia) Hl) as (sp & E & Hsp & Hall).
      destruct (found_spec sp 0 limit ltac:(nia) Hsp Hall)
        as (found & counts & EF & _ & _ & SF & HF).
      rewrite E. cbn [bind]. rewrite EF. cbn [bind].
      exists (smallPrimes 0 limit ++ concat found). split; [reflexivity|].
      rewrite (primes_joined 0 limit (concat found) SF HF). split.
      * intros p Hp. apply in_primesBetween in Hp. split; [tauto|nia].
      * intros p Pp Hp Hpp. apply in_primesBetween. split; [|exact Pp].
        pose proof (sqrt_ge stop p ltac:(lia) Hpp). fold limit in H. lia.
Qed.

Lemma depthFor_enough stop : stop < depthBound (depthFor stop).
Proof.
  assert (G : forall d : nat, 2 ^ (2 ^ Z.of_nat d) <= depthBound d).
  { induction d as [|d IH]; [simpl; lia|].
    cbn [depthBound]. rewrite Nat2Z.inj_succ, Z.pow_succ_r by lia.
    replace (2 * 2 ^ Z.of_nat d) with (2 ^ Z.of_nat d + 2 ^ Z.of_nat d) by lia.
    rewrite Z.pow_add_r by (apply Z.pow_nonneg; lia).
    pose proof (Z.pow_pos_nonneg 2 (2 ^ Z.of_nat d) ltac:(lia)
                  ltac:(apply Z.pow_nonneg; lia)).
    nia. }
  destruct (Z_le_gt_dec stop 0) as [N|P].
  - pose proof (depthBound_pos (depthFor stop)). lia.
  - unfold depthFor. specialize (G (Z.to_nat (Z.log2 stop))).
    pose proof (Z.log2_nonneg stop) as L0. rewrite Z2Nat.id in G by exact L0.
    pose proof (Z.log2_spec stop ltac:(lia)) as (_ & L).
    pose proof (Z.pow_gt_lin_r 2 (Z.log2 stop) ltac:(lia) L0) as Lin.
    assert (2 ^ Z.succ (Z.log2 stop) <= 2 ^ (2 ^ Z.log2 stop))
      by (apply Z.pow_le_mono_r; lia).
    lia.
Qed.

(** The callback is called with the primes of [[start, stop]], in
    increasing order. *)
Lemma generatePrimes_spec start stop :
  start <= stop -> stop < 2 ^ 64 ->
  generatePrimes r_s sieveSize start stop = Ok (Oracle.primesBetween start stop).
Proof.
  intros Hle Hstop. unfold generatePrimes.
  destruct (Z.gtb_spec start stop); [lia|].
  destruct (sievingPrimes_spec (depthFor stop) stop Hstop (depthFor_enough stop))
    as (sp & E & Hsp & Hall).
  destruct (found_spec sp start stop Hstop Hsp Hall)
    as (found & counts & EF & _ & _ & SF & HF).
  rewrite E. cbn [bind]. rewrite EF. cbn [bind].
  now rewrite (primes_joined start stop (concat found) SF HF).
Qed.

Lemma countPrimes_spec start stop :
  start <= stop -> stop < 2 ^ 64 ->
  countPrimes r_s sieveSize start stop = Ok (Oracle.countBetween start stop).
Proof.
  intros Hle Hstop. unfold countPrimes.
  destruct (Z.gtb_spec start stop); [lia|].
  destruct (sievingPrimes_spec (depthFor stop) stop Hstop (depthFor_enough stop))
    as (sp & E & Hsp & Hall).
  destruct (found_spec sp start stop Hstop Hsp Hall)
    as (found & counts & _ & EC & Sum & SF & HF).
  rewrite E. cbn [bind]. rewrite EC. cbn [bind].
  rewrite Sum. unfold Oracle.countBetween.
  rewrite <- (primes_joined start stop (concat found) SF HF), length_app. f_equal. lia.
Qed.

End Run.

End DriverFacts.

(** ** The parallel sieve and the nth prime *)

Module ParallelFacts.
Import Pmath Oracle ParallelPrimeSieve.
Import PrimeFacts ScanFacts DriverFacts.

(** *** Counting over a split interval *)

Lemma primesBetween_split a b m :
  primesBetween a b = primesBetween a (Z.min b (m - 1)) ++ primesBetween (Z.max a m) b.
Proof.
  apply sorted_ext.
  - apply primesBetween_sorted.
  - apply sorted_app; try apply primesBetween_sorted.
    intros x y Hx Hy. apply in_primesBetween in Hx, Hy. lia.
  - intros x. rewrite in_app_iff, !in_primesBetween. split.
    + intros (H & P). destruct (Z_lt_le_dec x m); [left|right]; (split; [lia|exact P]).
    + intros [(H & P)|(H & P)]; (split; [lia|exact P]).
Qed.

Lemma countBetween_split a b m :
  countBetween a b = countBetween a (Z.min b (m - 1)) + countBetween (Z.max a m) b.
Proof.
  unfold countBetween. rewrite (primesBetween_split a b m), length_app. lia.
Qed.

Lemma countBetween_empty a b : b < a -> countBetween a b = 0.
Proof.
  intros H. unfold countBetween, primesBetween, range.
  replace (Z.to_nat (b - a + 1)) with 0%nat by lia. reflexivity.
Qed.

Lemma countBetween_nonneg a b : 0 <= countBetween a b.
Proof. unfold countBetween. lia. Qed.

Lemma countBetween_mono a b b' : b <= b' -> countBetween a b <= countBetween a b'.
Proof.
  intros H. rewrite (countBetween_split a b' (b + 1)).
  replace (Z.min b' (b + 1 - 1)) with b by lia.
  pose proof (countBetween_nonneg (Z.max a (b + 1)) b'). lia.
Qed.

Lemma countBetween_prime a p : a <= p -> prime p ->
  countBetween a p = countBetween a (p - 1) + 1.
Proof.
  intros H P. rewrite (countBetween_split a p p).
  replace (Z.min p (p - 1)) with (p - 1) by lia.
  replace (Z.max a p) with p by lia. f_equal.
  unfold countBetween, primesBetween, range.
  replace (Z.to_nat (p - p + 1)) with 1%nat by lia. simpl.
  rewrite Z.add_0_r. apply trialDivision_prime in P. now rewrite P.
Qed.

(** *** The workers *)

Section Parallel.

Variable r_s : Z.
Variable sieveSize : Z.
Hypothesis sieveSize_bounds : 0 < sieveSize <= 4096 * 1024.
Variables start stop interval : Z.
Hypothesis bounds : 0 <= start <= stop.
Hypothesis stop_bound : stop < 2 ^ 64.
Hypothesis interval_pos : 0 < interval.

Let base := 30 * (start / 30).

Lemma worker_spec i :
  worker r_s sieveSize start stop interval i
  = Ok (countBetween (Z.max start (base + Z.of_nat i * interval))
          (Z.min stop (base + Z.of_nat i * interval + interval - 1))).
Proof.
  unfold worker. fold base.
  set (a := Z.max start (base + Z.of_nat i * interval)).
  set (b := Z.min stop (base + Z.of_nat i * interval + interval - 1)).
  destruct (Z.gtb_spec a b) as [G|L].
  - now rewrite countBetween_empty by lia.
  - apply countPrimes_spec; [exact sieveSize_bounds|exact L|lia].
Qed.

Lemma join_workers n : forall s,
  join (map (worker r_s sieveSize start stop interval) (seq s n))
  = Ok (countBetween (Z.max start (base + Z.of_nat s * interval))
          (Z.min stop (base + Z.of_nat (s + n) * interval - 1))).
Proof.
  induction n as [|n IH]; intros s.
  - simpl. rewrite countBetween_empty; [reflexivity|].
    rewrite Nat.add_0_r. lia.
  - cbn [seq map join]. rewrite worker_spec, IH. cbn [bind]. f_equal.
    set (lo := base + Z.of_nat s * interval).
    rewrite (countBetween_split (Z.max start lo)
               (Z.min stop (base + Z.of_nat (s + S n) * interval - 1))
               (lo + interval)).
    f_equal; f_equal; unfold lo; nia.
Qed.

End Parallel.

(** The parallel count is the count of the whole interval. *)
Lemma parallel_countPrimes_spec r_s pps start stop :
  1 <= sieveSize_ pps <= 4096 -> 1 <= numThreads_ pps ->
  0 <= start <= stop -> stop < 2 ^ 64 ->
  countPrimes r_s pps start stop = Ok (countBetween start stop).
Proof.
  intros Hs Ht Hb Hstop. unfold countPrimes.
  destruct (Z.gtb_spec start stop); [lia|].
  set (t := numThreads_ pps) in *.
  set (interval := threadInterval t start stop).
  assert (D0 : 0 <= stop / 30 - start / 30)
    by (apply Zle_minus_le_0, Z.div_le_mono; lia).
  pose proof (Z.div_pos (stop / 30 - start / 30) t D0 ltac:(lia)) as Q.
  assert (Hi : 0 < interval) by (unfold interval, threadInterval; lia).
  rewrite (join_workers r_s (sieveBytes pps) ltac:(unfold sieveBytes; lia)
             start stop interval Hb Hstop Hi (Z.to_nat t) 0).
  f_equal. f_equal.
  - pose proof (Z.mul_div_le start 30 ltac:(lia)). lia.
  - pose proof (Z.div_mod (stop / 30 - start / 30) t ltac:(lia)) as D.
    pose proof (Z.mod_pos_bound (stop / 30 - start / 30) t ltac:(lia)) as M.
    pose proof (Z.div_mod stop 30 ltac:(lia)).
    pose proof (Z.mod_pos_bound stop 30 ltac:(lia)).
    unfold interval, threadInterval. rewrite Nat.add_0_l, Z2Nat.id by lia. nia.
Qed.

(** *** The nth prime *)

Lemma sorted_lookup_count (l : list Z) : forall (k : nat) p,
  StronglySorted Z.lt l -> l !! k = Some p ->
  length (List.filter (fun x => x <=? p) l) = S k.
Proof.
  induction l as [|x l IH]; intros k p S H; [now destruct k|].
  inversion S as [|? ? S' F]; subst. rewrite List.Forall_forall in F.
  destruct k as [|k]; simpl in H |- *.
  - injection H as ->. rewrite Z.leb_refl. simpl. f_equal.
    apply length_zero_iff_nil.
    destruct (List.filter (fun x => x <=? p) l) as [|y r] eqn:E; [reflexivity|exfalso].
    assert (Hy : In y (List.filter (fun x => x <=? p) l)) by (rewrite E; now left).
    apply filter_In in Hy. destruct Hy as (Hy & Le). apply Z.leb_le in Le.
    specialize (F y Hy). lia.
  - assert (Hp : In p l).
    { apply list_elem_of_In. apply list_elem_of_lookup. eauto. }
    specialize (F p Hp).
    destruct (Z.leb_spec x p); [|lia]. simpl. f_equal. now apply IH.
Qed.

(** The element at position [k] of the list of the primes from [a] is the
    prime up to which there are [k + 1] of them. *)
Lemma primesBetween_lookup a b (k : nat) p :
  primesBetween a b !! k = Some p ->
  a <= p <= b /\ prime p /\ countBetween a p = Z.of_nat (S k).
Proof.
  intros H.
  assert (Hp : In p (primesBetween a b)).
  { apply list_elem_of_In. apply list_elem_of_lookup. eauto. }
  apply in_primesBetween in Hp. destruct Hp as (Hab & Pp).
  split; [exact Hab|]. split; [exact Pp|].
  rewrite <- (sorted_lookup_count (primesBetween a b) k p (primesBetween_sorted a b) H).
  unfold countBetween. do 2 f_equal.
  apply sorted_ext.
  - apply primesBetween_sorted.
  - apply filter_sorted, primesBetween_sorted.
  - intros x. rewrite filter_In, !in_primesBetween, Z.leb_le. intuition lia.
Qed.

Section NthPrime.

Variable r_s : Z.
Variable estimate : Z -> Z -> Z.
Variable sieveSize : Z.
Hypothesis sieveSize_bounds : 0 < sieveSize <= 4096 * 1024.

(** What the search returns is the nth prime from [start] on. *)
Lemma nthPrimeForward_sound fuel : forall n start p,
  1 <= n -> 0 <= start ->
  nthPrimeForward r_s estimate fuel sieveSize n start = Ok p ->
  start <= p <= max_stop /\ prime p /\ countBetween start p = n.
Proof.
  induction fuel as [|fuel IH]; intros n start p Hn Hs H; [discriminate|].
  cbn [nthPrimeForward] in H.
  destruct (Z.gtb_spec start max_stop) as [G|L]; [discriminate|].
  set (stop := Z.min max_stop (start + Z.max 0 (estimate n start))) in *.
  assert (Hstop : start <= stop <= max_stop) by lia.
  rewrite (generatePrimes_spec r_s sieveSize sieveSize_bounds start stop) in H
    by (unfold max_stop in *; lia).
  cbn [bind] in H.
  fold (countBetween start stop) in H.
  destruct (Z.ltb_spec (countBetween start stop) n) as [Lt|Ge].
  - apply IH in H; [|lia|lia]. destruct H as (H1 & H2 & H3).
    split; [lia|]. split; [exact H2|].
    rewrite (countBetween_split start p (stop + 1)).
    replace (Z.min p (stop + 1 - 1)) with stop by lia.
    replace (Z.max start (stop + 1)) with (stop + 1) by lia. lia.
  - destruct (primesBetween start stop !! Z.to_nat (n - 1)) as [q|] eqn:E; [|discriminate].
    injection H as ->. apply primesBetween_lookup in E.
    destruct E as (E1 & E2 & E3). split; [lia|]. split; [exact E2|]. lia.
Qed.

(** With enough fuel the search returns, provided the nth prime from
    [start] on is not beyond [max_stop]. *)
Lemma nthPrimeForward_total fuel : forall n start q,
  1 <= n -> 0 <= start -> q <= max_stop -> n <= countBetween start q ->
  q - start + 1 <= Z.of_nat fuel ->
  exists p, nthPrimeForward r_s estimate fuel sieveSize n start = Ok p.
Proof.
  induction fuel as [|fuel IH]; intros n start q Hn Hs Hq Hc Hf.
  - exfalso. rewrite countBetween_empty in Hc; lia.
  - assert (Hsq : start <= q).
    { destruct (Z_lt_le_dec q start) as [L|G]; [|exact G].
      rewrite countBetween_empty in Hc; lia. }
    cbn [nthPrimeForward].
    destruct (Z.gtb_spec start max_stop) as [G|L]; [lia|].
    set (stop := Z.min max_stop (start + Z.max 0 (estimate n start))) in *.
    assert (Hstop : start <= stop <= max_stop) by lia.
    rewrite (generatePrimes_spec r_s sieveSize sieveSize_bounds start stop)
      by (unfold max_stop in *; lia).
    cbn [bind]. fold (countBetween start stop).
    destruct (Z.ltb_spec (countBetween start stop) n) as [Lt|Ge].
    + assert (stop < q).
      { destruct (Z_lt_le_dec stop q) as [L'|G']; [exact L'|].
        pose proof (countBetween_mono start q stop G'). lia. }
      apply (IH _ _ q); try lia.
      rewrite (countBetween_split start q (stop + 1)) in Hc.
      replace (Z.min q (stop + 1 - 1)) with stop in Hc by lia.
      replace (Z.max start (stop + 1)) with (stop + 1) in Hc by lia. lia.
    + destruct (lookup_lt_is_Some_2 (primesBetween start stop) (Z.to_nat (n - 1)))
        as (p & Hp); [unfold countBetween in Ge; lia|].
      exists p. now rewrite Hp.
Qed.

End NthPrime.

End ParallelFacts.

(** ** The sieve-size setting of the API *)

Module ApiFacts.
Import Pmath Api.

Lemma inBetween_range lo x hi :
  lo <= hi -> lo <= inBetween lo x hi <= hi.
Proof.
  intros H. unfold inBetween.
  destruct (Z.ltb_spec x lo); [lia|].
  destruct (Z.gtb_spec x hi); lia.
Qed.

Lemma floorPow2_spec x :
  0 < x -> floorPow2 x = 2 ^ Z.log2 x /\ floorPow2 x <= x < 2 * floorPow2 x.
Proof.
  intros H. unfold floorPow2.
  destruct (Z.leb_spec x 0); [lia|].
  split; [reflexivity|].
  pose proof (Z.log2_spec x H) as L.
  rewrite Z.pow_succ_r in L by apply Z.log2_nonneg. lia.
Qed.

(** What [set_sieve_size] stores is what [get_sieve_size] returns, whatever
    the caches are. *)
Lemma get_after_set cpu g k :
  get_sieve_size cpu (set_sieve_size k g) = floorPow2 (inBetween 1 k 2048).
Proof.
  unfold get_sieve_size, set_sieve_size. cbn [sieve_size].
  pose proof (inBetween_range 1 k 2048 ltac:(lia)) as R.
  destruct (floorPow2_spec (inBetween 1 k 2048) ltac:(lia)) as (E & B).
  destruct (Z.eqb_spec (floorPow2 (inBetween 1 k 2048)) 0) as [Z0|NZ]; [lia|].
  reflexivity.
Qed.

Lemma stored_log2 k :
  0 <= Z.log2 (inBetween 1 k 2048) <= 11.
Proof.
  pose proof (inBetween_range 1 k 2048 ltac:(lia)) as R.
  split; [apply Z.log2_nonneg|].
  apply Z.lt_succ_r. apply Z.log2_lt_pow2; [lia|]. simpl. lia.
Qed.

(** C9: after [set_sieve_size k], [get_sieve_size] returns
    [floorPow2 (inBetween 1 k 2048)], a power of two between 1 and 2048
    (kilobytes), whatever the CPU caches are. *)
Theorem get_sieve_size_after_set (cpu : CpuInfo) (g : Globals) (k : Z) :
  get_sieve_size cpu (set_sieve_size k g) = floorPow2 (inBetween 1 k 2048) /\
  (exists j, 0 <= j <= 11 /\ get_sieve_size cpu (set_sieve_size k g) = 2 ^ j) /\
  1 <= get_sieve_size cpu (set_sieve_size k g) <= 2048.
Proof.
  rewrite get_after_set.
  pose proof (inBetween_range 1 k 2048 ltac:(lia)) as R.
  destruct (floorPow2_spec (inBetween 1 k 2048) ltac:(lia)) as (E & B).
  pose proof (stored_log2 k) as L.
  split; [reflexivity|]. split.
  - exists (Z.log2 (inBetween 1 k 2048)). split; [exact L|exact E].
  - split; [|lia]. rewrite E.
    pose proof (Z.pow_pos_nonneg 2 (Z.log2 (inBetween 1 k 2048)) ltac:(lia) ltac:(lia)). lia.
Qed.

(** C8, refuted as stated: with 32 KiB set, the size handed on is 32768
    bytes, which is not a multiple of 240. *)
Lemma sieve_size_32_not_multiple_of_240 :
  let kb := get_sieve_size (mkCpuInfo 32768 262144 8388608) (set_sieve_size 32 initial) in
  kb = 32 /\
  ~ ((bytes_of_kilobytes kb) mod 240 = 0 /\ bytes_of_kilobytes kb <= 4096 * 1024).
Proof.
  split; [reflexivity|]. intros (H & _). vm_compute in H. discriminate.
Qed.

(** C8, amended: the size set through the API is a power of two between
    1 KiB and 2048 KiB, so it respects the 4096 KiB bound, and it is never
    a multiple of 240 bytes. *)
Theorem sieve_size_bytes (cpu : CpuInfo) (g : Globals) (k : Z) :
  let bytes := bytes_of_kilobytes (get_sieve_size cpu (set_sieve_size k g)) in
  (exists j, 10 <= j <= 21 /\ bytes = 2 ^ j) /\
  1024 <= bytes <= 2048 * 1024 /\
  bytes <= 4096 * 1024 /\
  bytes mod 240 <> 0.
Proof.
  cbv zeta. rewrite get_after_set.
  pose proof (inBetween_range 1 k 2048 ltac:(lia)) as R.
  destruct (floorPow2_spec (inBetween 1 k 2048) ltac:(lia)) as (E & B).
  pose proof (stored_log2 k) as L.
  unfold bytes_of_kilobytes. rewrite E.
  set (j := Z.log2 (inBetween 1 k 2048)) in *.
  assert (C : j = 0 \/ j = 1 \/ j = 2 \/ j = 3 \/ j = 4 \/ j = 5 \/ j = 6 \/
              j = 7 \/ j = 8 \/ j = 9 \/ j = 10 \/ j = 11) by lia.
  split.
  - exists (j + 10). split; [lia|]. rewrite Z.pow_add_r by lia. reflexivity.
  - clearbody j. clear -C.
    repeat (destruct C as [->|C]; [vm_compute; repeat split; congruence|]).
    subst j. vm_compute; repeat split; congruence.
Qed.

End ApiFacts.

(** ** Construction of the engine and storing of sieving primes *)

Module EngineFacts.
Import Wheel Meaning EratMedium.

(** C3: the constructor throws [primesieve_error] exactly when
    [sieveSize > 4096 * 1024] or [maxPrime > sieveSize * 5]; otherwise it
    returns an engine that holds no sieving prime yet. *)
Theorem new_rejects_iff (stop sieveSize maxPrime : Z) :
  is_u64 sieveSize -> is_u64 maxPrime ->
  ((exists what, new stop sieveSize maxPrime = Err (primesieve_error what))
   <-> (sieveSize > 4096 * 1024 \/ maxPrime > sieveSize * 5)) /\
  (sieveSize <= 4096 * 1024 -> maxPrime <= sieveSize * 5 ->
   new stop sieveSize maxPrime = Ok (mkEratMedium stop sieveSize maxPrime [])) /\
  (forall e, new stop sieveSize maxPrime = Err e -> exists what, e = primesieve_error what).
Proof.
  intros Hs Hm. unfold new.
  change (Z.shiftl 4096 10) with (4096 * 1024).
  destruct (Z.gtb_spec sieveSize (4096 * 1024)) as [G|L].
  - split; [|split].
    + split; [intros _; left; lia|intros _; eexists; reflexivity].
    + lia.
    + intros e [= <-]. eexists; reflexivity.
  - assert (W : wrap64 (sieveSize * 5) = sieveSize * 5)
      by (unfold wrap64; apply Z.mod_small; unfold is_u64 in Hs; lia).
    rewrite W.
    destruct (Z.gtb_spec maxPrime (sieveSize * 5)) as [G'|L'].
    + split; [|split].
      * split; [intros _; right; lia|intros _; eexists; reflexivity].
      * lia.
      * intros e [= <-]. eexists; reflexivity.
    + split; [|split].
      * split; [intros (what & H); discriminate|lia].
      * reflexivity.
      * intros e H. discriminate.
Qed.

Lemma new_rejects_iff_witness :
  ((exists what, new 1000000 32768 163840 = Err (primesieve_error what))
   <-> (32768 > 4096 * 1024 \/ 163840 > 32768 * 5)) /\
  (32768 <= 4096 * 1024 -> 163840 <= 32768 * 5 ->
   new 1000000 32768 163840 = Ok (mkEratMedium 1000000 32768 163840 [])) /\
  (forall e, new 1000000 32768 163840 = Err e -> exists what, e = primesieve_error what).
Proof.
  apply (new_rejects_iff 1000000 32768 163840); unfold is_u64; lia.
Defined.

(** With [prime <= maxPrime_], [storeSievingPrime] appends one triple:
    [prime / 30] and the two indices. *)
Lemma storeSievingPrime_appends (e : EratMedium) (prime multipleIndex wheelIndex : Z) :
  prime <= maxPrime_ e ->
  exists e' r,
    storeSievingPrime prime multipleIndex wheelIndex e = Ok e' /\
    primes_ e' = primes_ e ++ [r] /\
    getSievingPrime r = prime / 30 /\
    getMultipleIndex r = multipleIndex /\
    getWheelIndex r = wheelIndex /\
    stop_ e' = stop_ e /\ sieveSize_ e' = sieveSize_ e /\ maxPrime_ e' = maxPrime_ e.
Proof.
  intros H. unfold storeSievingPrime.
  destruct (Z.leb_spec prime (maxPrime_ e)) as [_|F]; [|lia].
  eexists _, _. split; [reflexivity|]. cbn. repeat split.
Qed.

End EngineFacts.

(** ** [EratMedium::crossOff] *)

Module CrossOffFacts.
Import Wheel Meaning EratMedium WheelFacts WheelFacts2 SieveFacts RecordFacts MediumFacts PrimeFacts.

(** *** The empty vector *)

Lemma defined_bind {A B} (m : result A) (k : A -> result B) :
  defined m -> (forall a, defined (k a)) -> defined (bind m k).
Proof.
  intros Hm Hk. destruct m as [a|e]; simpl; [apply Hk|].
  intros [= ->]. now apply Hm.
Qed.

Lemma defined_Ok {A} (a : A) : defined (Ok a).
Proof. discriminate. Qed.

Lemma defined_step sieve l : defined (step sieve l).
Proof.
  unfold step, Wheel.step, unsetBit.
  destruct (wheel210 !! Z.to_nat (wheelIndex l)); simpl; [|discriminate].
  destruct (sieve !! Z.to_nat (multipleIndex l)); simpl; discriminate.
Qed.

Lemma defined_lane fuel sieveSize : forall sieve l, defined (lane fuel sieveSize sieve l).
Proof.
  unfold lane. induction fuel as [|fuel IH]; intros sieve l; simpl;
    destruct (multipleIndex l <? sieveSize); try discriminate.
  apply defined_bind; [apply defined_step|]. intros (s & l'). apply IH.
Qed.

Lemma defined_lanes3 fuel sieveSize :
  forall sieve l0 l1 l2, defined (lanes3 fuel sieveSize sieve l0 l1 l2).
Proof.
  induction fuel as [|fuel IH]; intros sieve l0 l1 l2; simpl;
    destruct (multipleIndex l0 <? sieveSize); try discriminate.
  apply defined_bind; [apply defined_step|]. intros (s0 & l0').
  destruct (multipleIndex l1 >=? sieveSize); [discriminate|].
  apply defined_bind; [apply defined_step|]. intros (s1 & l1').
  destruct (multipleIndex l2 >=? sieveSize); [discriminate|].
  apply defined_bind; [apply defined_step|]. intros (s2 & l2'). apply IH.
Qed.

Lemma defined_crossOff3 fuel sieveSize sieve p0 p1 p2 :
  defined (crossOff3 fuel sieveSize sieve p0 p1 p2).
Proof.
  unfold crossOff3.
  apply defined_bind; [apply defined_lanes3|]. intros (((s & l0) & l1) & l2).
  apply defined_bind; [apply defined_lane|]. intros (s0 & l0').
  apply defined_bind; [apply defined_lane|]. intros (s1 & l1').
  apply defined_bind; [apply defined_lane|]. intros (s2 & l2').
  apply defined_Ok.
Qed.

Lemma defined_crossOffRest fuel sieveSize primes :
  forall sieve, defined (crossOffRest fuel sieveSize sieve primes).
Proof.
  induction primes as [|p primes IH]; intros sieve; simpl; [apply defined_Ok|].
  apply defined_bind.
  - unfold crossOff1. apply defined_bind; [apply defined_lane|].
    intros (s & l). apply defined_Ok.
  - intros (s & p'). apply defined_bind; [apply IH|]. intros (s' & ps). apply defined_Ok.
Qed.

Lemma defined_crossOffLoops fuel sieveSize n : forall primes sieve,
  (length primes <= n)%nat -> defined (crossOffLoops fuel sieveSize sieve primes).
Proof.
  induction n as [|n IH]; intros primes sieve Hn.
  - destruct primes; [apply (defined_crossOffRest fuel sieveSize [])|simpl in Hn; lia].
  - destruct primes as [|r0 [|r1 [|r2 [|r3 rs]]]];
      try apply (defined_crossOffRest fuel sieveSize _ sieve).
    change (crossOffLoops fuel sieveSize sieve (r0 :: r1 :: r2 :: r3 :: rs))
      with (do (sieve, done) <- crossOff3 fuel sieveSize sieve r0 r1 r2;
            do (sieve, primes') <- crossOffLoops fuel sieveSize sieve (r3 :: rs);
            Ok (sieve, done ++ primes')).
    apply defined_bind; [apply defined_crossOff3|]. intros (s & done).
    apply defined_bind; [apply IH; simpl in *; lia|]. intros (s' & ps). apply defined_Ok.
Qed.

(** C10: [crossOff] reads [primes_[0]] and [primes_.back()] first; this is
    an error exactly when no sieving prime is stored, and cannot happen
    once [storeSievingPrime] has succeeded. *)
Theorem crossOff_empty_iff (fuel : nat) (sieve : Sieve) (sieveSize : Z) (e : EratMedium) :
  (crossOff fuel sieve sieveSize e = Err EmptyVector <-> primes_ e = []) /\
  (forall prime multipleIndex wheelIndex e',
     storeSievingPrime prime multipleIndex wheelIndex e = Ok e' ->
     primes_ e' <> [] /\ crossOff fuel sieve sieveSize e' <> Err EmptyVector).
Proof.
  assert (K : forall e0, crossOff fuel sieve sieveSize e0 = Err EmptyVector <-> primes_ e0 = []).
  { intros e0. unfold crossOff. destruct (primes_ e0) as [|r rs] eqn:Ep.
    - split; reflexivity.
    - split; [|discriminate]. intros H. exfalso.
      change ((r :: rs) !! 0%nat) with (Some r) in H. cbn [of_option bind] in H.
      destruct (last (r :: rs)) as [x|] eqn:El; [|apply last_None in El; discriminate].
      cbn [of_option bind] in H. revert H.
      apply defined_bind; [apply (defined_crossOffLoops _ _ _ _ _ (le_n _))|].
      intros (s & ps). apply defined_Ok. }
  split; [apply K|].
  intros prime mi wi e' H. unfold storeSievingPrime in H.
  destruct (prime <=? maxPrime_ e); [|discriminate].
  injection H as <-. cbn [primes_].
  assert (NE : primes_ e ++ [mkSievingPrime (prime / NUMBERS_PER_BYTE) mi wi] <> [])
    by (destruct (primes_ e); discriminate).
  split; [exact NE|]. intros F. apply K in F. cbn [primes_] in F. contradiction.
Qed.

Lemma crossOff_empty_iff_witness :
  (crossOff 100 demo_sieve 512 (mkEratMedium 15359 512 2560 []) = Err EmptyVector
   <-> primes_ (mkEratMedium 15359 512 2560 []) = []) /\
  (forall e', storeSievingPrime 101 340 118 (mkEratMedium 15359 512 2560 []) = Ok e' ->
     primes_ e' <> [] /\ crossOff 100 demo_sieve 512 e' <> Err EmptyVector).
Proof.
  destruct (crossOff_empty_iff 100 demo_sieve 512 (mkEratMedium 15359 512 2560 [])) as (H1 & H2).
  split; [exact H1|]. intros e'. apply H2.
Defined.

(** *** What is crossed off *)

Lemma Forall2_written_back low sieveSize gs : forall gs' rs',
  Forall2 (advanced 210 low sieveSize) gs gs' ->
  Forall2 (stored 210 (low + sieveSize)) gs' rs' ->
  Forall2 (written_back 210 low sieveSize) gs rs'.
Proof.
  induction gs as [|g gs IH]; intros gs' rs' A St.
  - inversion A; subst. inversion St; subst. constructor.
  - inversion A as [|? g' ? gs0 (A1 & A2) A']; subst.
    inversion St as [|? r' ? rs0 ((S1 & S2 & S3) & _ & _ & B) St']; subst.
    constructor; [|now apply IH with gs0].
    exists (snd g'). rewrite A1 in *. repeat split; try assumption; try lia; apply A2.
Qed.

(** On a segment of [sieveSize] bytes that starts at [30 * low], with the
    records positioned for it, [crossOff] returns and clears exactly the
    bits of the multiples [p * c] of the stored primes whose cofactor [c]
    is coprime to 210, from each record's next multiple on; every other
    bit is left as it was.  When the primes and cofactors exceed 1, no
    prime number loses its bit. *)
Lemma crossOff_clears_wheel_multiples (fuel : nat) (low sieveSize : Z)
    (gs : list (Z * Z)) (e : EratMedium) (sieve : Sieve) :
  0 <= sieveSize <= 2 ^ 32 ->
  Forall2 (stored 210 low) gs (primes_ e) -> primes_ e <> [] ->
  length sieve = Z.to_nat sieveSize ->
  30 * sieveSize <= Z.of_nat fuel ->
  exists sieve' e',
    crossOff fuel sieve sieveSize e = Ok (sieve', e') /\
    cleared low (crossed 210 gs) sieve sieve' /\
    (Forall (fun g => 1 < fst g /\ 1 < snd g) gs ->
     forall (k b : nat) byte byte',
       sieve !! k = Some byte -> sieve' !! k = Some byte' -> (b < 8)%nat ->
       prime (number low k b) ->
       Z.testbit byte' (Z.of_nat b) = Z.testbit byte (Z.of_nat b)).
Proof.
  intros Hs F NE Hlen Hfuel.
  destruct (crossOff_spec low sieveSize Hs fuel gs e sieve F NE Hlen Hfuel)
    as (sieve' & e' & gs' & E & _ & _ & _ & _ & _ & C).
  exists sieve', e'. split; [exact E|]. split; [exact C|].
  intros G k b byte byte' Hk Hk' Hb Hp.
  destruct C as (_ & C). destruct (C k byte Hk) as (byte2 & H1 & H2 & _).
  assert (byte2 = byte') by congruence. subst byte2.
  destruct (H2 b Hb) as (_ & H3). apply H3.
  intros (g & Hg & c & Hc & _ & En).
  rewrite List.Forall_forall in G. destruct (G g Hg) as (G1 & G2).
  rewrite En in Hp. revert Hp. apply prime_not_product; lia.
Qed.

(** C4: after [crossOff] each record holds the byte offset of its prime's
    next multiple less [sieveSize]: the lane ran along the wheel until its
    multiple index reached [sieveSize], and the subtraction did not wrap. *)
Theorem crossOff_writes_back (fuel : nat) (low sieveSize : Z)
    (gs : list (Z * Z)) (e : EratMedium) (sieve : Sieve) :
  0 <= sieveSize <= 2 ^ 32 ->
  Forall2 (stored 210 low) gs (primes_ e) -> primes_ e <> [] ->
  length sieve = Z.to_nat sieveSize ->
  30 * sieveSize <= Z.of_nat fuel ->
  exists sieve' e',
    crossOff fuel sieve sieveSize e = Ok (sieve', e') /\
    Forall2 (written_back 210 low sieveSize) gs (primes_ e').
Proof.
  intros Hs F NE Hlen Hfuel.
  destruct (crossOff_spec low sieveSize Hs fuel gs e sieve F NE Hlen Hfuel)
    as (sieve' & e' & gs' & E & _ & _ & _ & St & A & _).
  exists sieve', e'. split; [exact E|].
  now apply Forall2_written_back with gs'.
Qed.

Lemma demo_stored : Forall2 (stored 210 0) demo_ghosts (primes_ demo_engine).
Proof.
  unfold demo_engine, demo_ghosts. cbn [primes_ map].
  repeat (constructor; [repeat split; try reflexivity; try (vm_compute; congruence)|]).
  constructor.
Defined.

Lemma demo_fuel : 30 * 512 <= Z.of_nat (Z.to_nat 15360).
Proof. rewrite Z2Nat.id; lia. Defined.

Lemma crossOff_writes_back_witness :
  exists sieve' e',
    crossOff (Z.to_nat 15360) demo_sieve 512 demo_engine = Ok (sieve', e') /\
    Forall2 (written_back 210 0 512) demo_ghosts (primes_ e').
Proof.
  apply (crossOff_writes_back (Z.to_nat 15360) 0 512 demo_ghosts demo_engine demo_sieve).
  - lia.
  - exact demo_stored.
  - discriminate.
  - reflexivity.
  - exact demo_fuel.
Defined.

(** A buffer of 0xFF bytes is not a segment: the pre-sieve has not cleared
    the multiples of 7 in it.  On it [crossOff] leaves the bit of
    12019 = 101 * 119 = 7 * 17 * 101 (bit 5 of byte 400) set, because the
    mod-210 wheel passes over the cofactor 119. *)
Lemma crossOff_leaves_12019 :
  exists sieve' e',
    crossOff (Z.to_nat 15360) demo_sieve 512 demo_engine = Ok (sieve', e') /\
    number 0 400 5 = 101 * 119 /\
    crossed 30 demo_ghosts (number 0 400 5) /\
    sieve' !! 400%nat = Some 255 /\ Z.testbit 255 5 = true /\
    ~ cleared 0 (crossed 30 demo_ghosts) demo_sieve sieve'.
Proof.
  destruct (crossOff (Z.to_nat 15360) demo_sieve 512 demo_engine) as [(sieve', e')|err] eqn:E;
    [|vm_compute in E; discriminate].
  exists sieve', e'. split; [reflexivity|].
  assert (L : sieve' !! 400%nat = Some 255).
  { vm_compute in E. injection E as <- _. reflexivity. }
  assert (Cr : crossed 30 demo_ghosts (number 0 400 5)).
  { exists (101, 101). split; [left; reflexivity|].
    exists 119. split; [simpl; lia|]. split; reflexivity. }
  split; [reflexivity|]. split; [exact Cr|]. split; [exact L|]. split; [reflexivity|].
  intros (_ & C).
  destruct (C 400%nat 255 eq_refl) as (byte' & H1 & H2 & _).
  assert (byte' = 255) by congruence. subst byte'.
  destruct (H2 5%nat ltac:(lia)) as (H3 & _).
  specialize (H3 Cr). discriminate.
Qed.

End CrossOffFacts.

(** ** The API calls *)

Module CallFacts.
Import Pmath Oracle Api.
Import PrimeFacts DriverFacts ParallelFacts ApiFacts.

Lemma configured_ok cpuInfo maxThreads g :
  1 <= ParallelPrimeSieve.sieveSize_ (configured cpuInfo maxThreads g) <= 4096 /\
  1 <= ParallelPrimeSieve.numThreads_ (configured cpuInfo maxThreads g).
Proof.
  unfold configured, ParallelPrimeSieve.setNumThreads, ParallelPrimeSieve.setSieveSize.
  cbn. split.
  - apply inBetween_range. lia.
  - apply inBetween_range. unfold ParallelPrimeSieve.getMaxThreads. lia.
Qed.

Lemma sieveBytes_ok cpuInfo maxThreads g :
  0 < ParallelPrimeSieve.sieveBytes (configured cpuInfo maxThreads g) <= 4096 * 1024.
Proof.
  pose proof (configured_ok cpuInfo maxThreads g) as (H & _).
  unfold ParallelPrimeSieve.sieveBytes. lia.
Qed.

Lemma count_primes_spec cpuInfo maxThreads r_s g a b :
  0 <= a <= b -> b < 2 ^ 64 ->
  count_primes cpuInfo maxThreads r_s g a b = Ok (countBetween a b).
Proof.
  intros Hab Hb. unfold count_primes.
  destruct (configured_ok cpuInfo maxThreads g) as (H1 & H2).
  now apply parallel_countPrimes_spec.
Qed.

(** C2: [count_primes a b] is the number of primes of [[a, b]] found by
    trial division, for every [b] up to [2^64 - 1] and so for every
    [b <= 10^8], whatever the sieve size, the number of threads and the
    tuning; the sieve delivers the same primes as trial division; in
    particular [count_primes 1 100 = 25], for the 25 primes listed. *)
Theorem count_primes_correct (cpuInfo : CpuInfo) (maxThreads r_s : Z)
    (g : Globals) (a b : Z) :
  0 <= a <= b -> b <= 2 ^ 64 - 1 ->
  count_primes cpuInfo maxThreads r_s g a b = Ok (countBetween a b) /\
  (forall sieveSize, 0 < sieveSize <= 4096 * 1024 ->
     PrimeSieve.generatePrimes r_s sieveSize a b = Ok (primesBetween a b)) /\
  (forall x, In x (primesBetween a b) <-> a <= x <= b /\ prime x) /\
  (b <= 10 ^ 8 -> count_primes cpuInfo maxThreads r_s g a b = Ok (countBetween a b)) /\
  count_primes cpuInfo maxThreads r_s g 1 100 = Ok 25 /\
  primesBetween 1 100
  = [2; 3; 5; 7; 11; 13; 17; 19; 23; 29; 31; 37; 41; 43; 47; 53; 59; 61; 67; 71;
     73; 79; 83; 89; 97].
Proof.
  intros Hab Hb.
  split; [apply count_primes_spec; lia|].
  split; [intros ss Hss; apply generatePrimes_spec; [exact Hss|lia|lia]|].
  split; [intros x; apply in_primesBetween|].
  split; [intros _; apply count_primes_spec; lia|].
  split; [|vm_compute; reflexivity].
  rewrite count_primes_spec by lia. vm_compute. reflexivity.
Qed.

Lemma count_primes_correct_witness :
  count_primes (mkCpuInfo 32768 262144 8388608) 4 4 initial 1 100
  = Ok (countBetween 1 100) /\
  (forall sieveSize, 0 < sieveSize <= 4096 * 1024 ->
     PrimeSieve.generatePrimes 4 sieveSize 1 100 = Ok (primesBetween 1 100)) /\
  (forall x, In x (primesBetween 1 100) <-> 1 <= x <= 100 /\ prime x) /\
  (100 <= 10 ^ 8 ->
   count_primes (mkCpuInfo 32768 262144 8388608) 4 4 initial 1 100
   = Ok (countBetween 1 100)) /\
  count_primes (mkCpuInfo 32768 262144 8388608) 4 4 initial 1 100 = Ok 25 /\
  primesBetween 1 100
  = [2; 3; 5; 7; 11; 13; 17; 19; 23; 29; 31; 37; 41; 43; 47; 53; 59; 61; 67; 71;
     73; 79; 83; 89; 97].
Proof.
  apply (count_primes_correct (mkCpuInfo 32768 262144 8388608) 4 4 initial 1 100); lia.
Defined.

Lemma sorted_lookup_lt (l : list Z) : StronglySorted Z.lt l ->
  forall (i j : nat) p q, (i < j)%nat -> l !! i = Some p -> l !! j = Some q -> p < q.
Proof.
  induction 1 as [|x l S IH F]; intros i j p q Hij Hi Hj; [now destruct i|].
  destruct j as [|j]; [lia|]. simpl in Hj.
  destruct i as [|i]; simpl in Hi.
  - injection Hi as ->. rewrite List.Forall_forall in F. apply F.
    apply list_elem_of_In. apply list_elem_of_lookup. eauto.
  - apply (IH i j); [lia|exact Hi|exact Hj].
Qed.

(** C7: in one run of [generatePrimes] over [[start, stop]] the arguments
    of the callback strictly increase: each is larger than the one before,
    and than every earlier one. *)
Theorem generatePrimes_increasing (r_s sieveSize start stop : Z) :
  0 < sieveSize <= 4096 * 1024 -> start <= stop -> stop <= 2 ^ 64 - 1 ->
  exists calls,
    PrimeSieve.generatePrimes r_s sieveSize start stop = Ok calls /\
    StronglySorted Z.lt calls /\
    (forall (i : nat) p q, calls !! i = Some p -> calls !! S i = Some q -> p < q) /\
    (forall (i j : nat) p q, (i < j)%nat ->
       calls !! i = Some p -> calls !! j = Some q -> p < q).
Proof.
  intros Hss Hle Hstop. exists (primesBetween start stop).
  split; [apply generatePrimes_spec; [exact Hss|exact Hle|lia]|].
  pose proof (primesBetween_sorted start stop) as Sorted.
  split; [exact Sorted|]. split.
  - intros i p q Hi Hj. apply (sorted_lookup_lt _ Sorted i (S i)); [lia|exact Hi|exact Hj].
  - apply sorted_lookup_lt. exact Sorted.
Qed.

Lemma generatePrimes_increasing_witness :
  exists calls,
    PrimeSieve.generatePrimes 4 1024 1 100 = Ok calls /\
    StronglySorted Z.lt calls /\
    (forall (i : nat) p q, calls !! i = Some p -> calls !! S i = Some q -> p < q) /\
    (forall (i j : nat) p q, (i < j)%nat ->
       calls !! i = Some p -> calls !! j = Some q -> p < q).
Proof.
  apply (generatePrimes_increasing 4 1024 1 100); lia.
Defined.

Lemma nth_prime_forward cpuInfo maxThreads r_s estimate fuel g n start :
  1 <= n ->
  nth_prime cpuInfo maxThreads r_s estimate fuel g n start
  = ParallelPrimeSieve.nthPrimeForward r_s estimate fuel
      (ParallelPrimeSieve.sieveBytes (configured cpuInfo maxThreads g)) n start.
Proof.
  intros Hn. unfold nth_prime, ParallelPrimeSieve.nthPrime.
  destruct (Z.gtb_spec n 0); [reflexivity|lia].
Qed.

(** The nth-prime law of the modelled pipeline, for intervals that
    [count_primes] accepts: for [n >= 1], if [nth_prime n start] returns
    [p] then [p] is a prime from [start] on, [count_primes start p = n],
    and [count_primes start (p - 1) = n - 1] when [start <= p - 1].  With
    enough fuel the call returns, as long as the nth prime does not exceed
    [2^64 - 1]. *)
Lemma nth_prime_law (cpuInfo : CpuInfo) (maxThreads r_s : Z)
    (estimate : Z -> Z -> Z) (fuel : nat) (g : Globals) (n start : Z) :
  1 <= n -> 0 <= start ->
  (forall p,
     nth_prime cpuInfo maxThreads r_s estimate fuel g n start = Ok p ->
     start <= p /\ prime p /\
     count_primes cpuInfo maxThreads r_s g start p = Ok n /\
     (start <= p - 1 ->
      count_primes cpuInfo maxThreads r_s g start (p - 1) = Ok (n - 1))) /\
  (forall q, q <= get_max_stop -> n <= countBetween start q ->
     q - start + 1 <= Z.of_nat fuel ->
     exists p, nth_prime cpuInfo maxThreads r_s estimate fuel g n start = Ok p).
Proof.
  intros Hn Hs. rewrite nth_prime_forward by exact Hn.
  pose proof (sieveBytes_ok cpuInfo maxThreads g) as Hb. split.
  - intros p H.
    apply (nthPrimeForward_sound r_s estimate _ Hb) in H; [|exact Hn|exact Hs].
    destruct H as (H1 & H2 & H3). unfold ParallelPrimeSieve.max_stop in H1.
    split; [lia|]. split; [exact H2|].
    split; [rewrite count_primes_spec by lia; now rewrite H3|].
    pose proof (countBetween_prime start p ltac:(lia) H2) as Hc.
    intros Hlt. rewrite count_primes_spec by lia. f_equal. lia.
  - intros q Hq Hc Hf.
    apply (nthPrimeForward_total r_s estimate _ Hb fuel n start q); try assumption.
Qed.

End CallFacts.

(** ** Cross-off of a segment *)

Module SegmentLaws.
Import Wheel Meaning Segment Buffer.
Import PrimeFacts ScanFacts.

(** The pattern of the pre-sieve is pre-sieved. *)
Lemma apply_presieved low sieveSize : presieved low (PreSieve.apply low sieveSize).
Proof.
  intros k b byte Hk Hb D.
  destruct (apply_represents low sieveSize k byte Hk) as (R & _).
  destruct (Z.testbit byte (Z.of_nat b)) eqn:T; [exfalso|reflexivity].
  apply R in T; [|exact Hb].
  rewrite hasFactor_false in T. apply (T 7); [|exact D].
  unfold PreSieve.primes. simpl. tauto.
Qed.

(** Clearing bits keeps a buffer pre-sieved. *)
Lemma cleared_presieved low S sieve sieve' :
  cleared low S sieve sieve' -> presieved low sieve -> presieved low sieve'.
Proof.
  intros (L & C) P k b byte' Hk' Hb D.
  assert (is_Some (sieve !! k)) as (byte & Hk).
  { apply lookup_lt_is_Some. rewrite <- L. apply lookup_lt_is_Some. eauto. }
  destruct (C k byte Hk) as (byte2 & H1 & H2 & _).
  assert (byte2 = byte') by congruence. subst byte2.
  destruct (H2 b Hb) as (Hin & Hout).
  destruct (Z.testbit byte' (Z.of_nat b)) eqn:T; [exfalso|reflexivity].
  assert (NS : ~ S (number low k b)) by (intros s; apply Hin in s; congruence).
  apply Hout in NS. rewrite (P k b byte Hk Hb D) in NS. congruence.
Qed.

(** A buffer whose set bits stand for numbers that the pre-sieve leaves
    is pre-sieved. *)
Lemma represents_presieved low (P : Z -> Prop) sieve :
  (forall x, P x -> PreSieve.hasFactor x = false) ->
  represents low P sieve -> presieved low sieve.
Proof.
  intros HP R k b byte Hk Hb D.
  destruct (R k byte Hk) as (R1 & _).
  destruct (Z.testbit byte (Z.of_nat b)) eqn:T; [exfalso|reflexivity].
  apply R1 in T; [|exact Hb]. apply HP in T.
  rewrite hasFactor_false in T. apply (T 7); [|exact D].
  unfold PreSieve.primes. simpl. tauto.
Qed.

(** The buffer that the driver hands to [EratMedium::crossOff] is
    pre-sieved: it is the pattern of the pre-sieve, clipped at [start] in
    the first segment and at [stop] in the last, after the cross-off of
    the small engine. *)
Lemma driver_buffer_presieved start stop sieveSize low (first last : bool)
    gsS es sieve1 es1 :
  0 < sieveSize <= 2 ^ 32 ->
  Forall2 (stored 30 low) gsS (EratSmall.primes_ es) ->
  EratSmall.crossOff (PrimeSieve.loopFuel sieveSize)
    (let sieve := PreSieve.apply low sieveSize in
     let sieve := if first then Scan.clearBelow start low sieve else sieve in
     if last then Scan.clearAbove stop low sieve else sieve)
    sieveSize es = Ok (sieve1, es1) ->
  length sieve1 = Z.to_nat sieveSize /\ presieved low sieve1.
Proof.
  intros Hs F. cbv zeta.
  set (s2 := if last then _ else _).
  assert (L2 : length s2 = Z.to_nat sieveSize).
  { unfold s2. destruct last, first;
      rewrite ?clearAbove_length, ?clearBelow_length; apply apply_length. }
  assert (P2 : presieved low s2).
  { pose proof (apply_represents low sieveSize) as R0. unfold s2.
    destruct last, first.
    - eapply represents_presieved;
        [|apply clearAbove_represents, clearBelow_represents; exact R0].
      cbv beta. tauto.
    - eapply represents_presieved; [|apply clearAbove_represents; exact R0].
      cbv beta. tauto.
    - eapply represents_presieved; [|apply clearBelow_represents; exact R0].
      cbv beta. tauto.
    - apply apply_presieved. }
  intros E.
  destruct (EngineSpecs.small_crossOffEach_spec low sieveSize Hs
              (PrimeSieve.loopFuel sieveSize) gsS _ F (fun _ => False) s2 s2 L2)
    as (sieve' & rs' & gs' & E' & _ & _ & C).
  - apply SieveFacts.cleared_refl. tauto.
  - unfold PrimeSieve.loopFuel. lia.
  - unfold EratSmall.crossOff in E. rewrite E' in E. cbn [bind] in E.
    injection E as <- _. split.
    + destruct C as (L & _). lia.
    + exact (cleared_presieved low _ s2 sieve' C P2).
Qed.

(** A cofactor on the mod-30 wheel that is not on the mod-210 wheel is a
    multiple of 7. *)
Lemma off_wheel210 c : coprimeb 30 c = true -> coprimeb 210 c = false -> (7 | c).
Proof.
  intros H30 H210.
  destruct (Z.eq_dec (c mod 7) 0) as [D|ND];
    [apply Z.mod_divide in D; [exact D|lia]|exfalso].
  assert (coprimeb 210 c = true); [|congruence].
  apply coprimeb_intro; [lia|].
  intros q Pq Dq Dc.
  destruct (prime_divides_210 q Pq Dq) as [E|[E|[E|E]]]; subst q.
  - apply (coprimeb_elim 30 c 2 H30); [lia|exists 15; lia|exact Dc].
  - apply (coprimeb_elim 30 c 3 H30); [lia|exists 10; lia|exact Dc].
  - apply (coprimeb_elim 30 c 5 H30); [lia|exists 6; lia|exact Dc].
  - apply ND. apply Z.mod_divide; [lia|exact Dc].
Qed.

Lemma on_wheel30 c : coprimeb 210 c = true -> coprimeb 30 c = true.
Proof.
  intros H. apply coprimeb_intro; [lia|].
  intros q Pq Dq. apply (coprimeb_elim 210 c q H).
  - pose proof (prime_ge_2' q Pq). lia.
  - destruct Dq as (t & Ht). exists (7 * t). lia.
Qed.

(** On a pre-sieved buffer, clearing the multiples on the mod-210 wheel is
    clearing the multiples coprime to 30: the ones in between are
    multiples of 7, whose bits are clear already. *)
Lemma cleared_wheel30 low gs sieve sieve' :
  presieved low sieve ->
  cleared low (crossed 210 gs) sieve sieve' ->
  cleared low (crossed 30 gs) sieve sieve'.
Proof.
  intros P (L & C). split; [exact L|].
  intros k byte Hk. destruct (C k byte Hk) as (byte' & Hk' & H & Hi).
  exists byte'. split; [exact Hk'|]. split; [|exact Hi].
  intros b Hb. destruct (H b Hb) as (Hin & Hout). split.
  - intros (g & Hg & c & Hc & C30 & En).
    destruct (coprimeb 210 c) eqn:C210.
    + apply Hin. exists g. split; [exact Hg|]. exists c. auto.
    + destruct (Z.testbit byte' (Z.of_nat b)) eqn:T; [exfalso|reflexivity].
      assert (NS : ~ crossed 210 gs (number low k b))
        by (intros s; apply Hin in s; congruence).
      apply Hout in NS.
      assert (D : (7 | number low k b)).
      { rewrite En. apply Z.divide_mul_r. now apply off_wheel210. }
      rewrite (P k b byte Hk Hb D) in NS. congruence.
  - intros NS. apply Hout. intros (g & Hg & c & Hc & C210 & En).
    apply NS. exists g. split; [exact Hg|]. exists c.
    split; [exact Hc|]. split; [now apply on_wheel30|exact En].
Qed.


Lemma demo_engines_at : PrimeSieve.engines_at 20 512 0 [] demo_ghosts [] demo_engines.
Proof.
  unfold PrimeSieve.engines_at, demo_engines. cbn [PrimeSieve.eratSmall
    PrimeSieve.eratMedium PrimeSieve.eratBig EratSmall.primes_ EratBig.buckets_].
  split; [constructor|]. split; [exact CrossOffFacts.demo_stored|].
  split; [constructor|]. split; [constructor|]. split; [|constructor].
  unfold demo_ghosts.
  repeat (apply List.Forall_cons; [unfold pending; cbn [fst snd]; split; [lia|split; [lia|intros; lia]]|]).
  apply List.Forall_nil.
Defined.


End SegmentLaws.

(** ** The packed records *)

Module PackedFacts.
Import Packed.

Lemma width_nonneg a n : 0 <= a < 2 ^ n -> 0 <= n.
Proof.
  intros H. destruct (Z_lt_le_dec n 0) as [N|N]; [|exact N].
  rewrite Z.pow_neg_r in H by exact N. lia.
Qed.

(** A number below [2 ^ n] has no bit from [n] on. *)
Lemma small_bits a n i : 0 <= a < 2 ^ n -> n <= i -> Z.testbit a i = false.
Proof.
  intros H Hi. pose proof (width_nonneg a n H).
  rewrite <- (Z.mod_small a (2 ^ n)) by exact H.
  apply Z.mod_pow2_bits_high. lia.
Qed.

Lemma land_ones_small a n : 0 <= a < 2 ^ n -> Z.land a (Z.ones n) = a.
Proof.
  intros H. pose proof (width_nonneg a n H).
  rewrite Z.land_ones by assumption. now apply Z.mod_small.
Qed.

(** A non-negative number without a bit from [n] on is below [2 ^ n]. *)
Lemma bits_small a n :
  0 <= n -> 0 <= a -> (forall i, n <= i -> Z.testbit a i = false) -> a < 2 ^ n.
Proof.
  intros Hn Ha H.
  assert (E : a mod 2 ^ n = a).
  { apply Z.bits_inj'. intros i Hi. destruct (Z_lt_le_dec i n).
    - apply Z.mod_pow2_bits_low. lia.
    - rewrite Z.mod_pow2_bits_high by lia. symmetry. now apply H. }
  rewrite <- E. apply Z.mod_pos_bound. apply Z.pow_pos_nonneg; lia.
Qed.

Section Layout.

Variables primeBits wheelBits : Z.
Hypothesis widths : layout_ok primeBits wheelBits.

Variables sievingPrime multipleIndex wheelIndex : Z.
Hypothesis fits_prime : 0 <= sievingPrime < 2 ^ primeBits.
Hypothesis fits_multiple : 0 <= multipleIndex < 2 ^ 23.
Hypothesis fits_wheel : 0 <= wheelIndex < 2 ^ wheelBits.

Lemma pack_fits :
  pack primeBits wheelBits sievingPrime multipleIndex wheelIndex
  = Z.lor sievingPrime
      (Z.lor (Z.shiftl multipleIndex primeBits)
         (Z.shiftl wheelIndex (primeBits + 23))).
Proof.
  unfold pack, MULTIPLE_BITS. now rewrite !land_ones_small by assumption.
Qed.

Lemma getSievingPrime_pack :
  getSievingPrime primeBits
    (pack primeBits wheelBits sievingPrime multipleIndex wheelIndex)
  = sievingPrime.
Proof.
  destruct widths as (W1 & W2 & W3). unfold MULTIPLE_BITS in W3.
  rewrite pack_fits. unfold getSievingPrime.
  apply Z.bits_inj'. intros i Hi.
  rewrite Z.land_spec, !Z.lor_spec, Z.testbit_ones_nonneg by lia.
  rewrite !Z.shiftl_spec by lia.
  destruct (Z.ltb_spec i primeBits).
  - rewrite (Z.testbit_neg_r multipleIndex) by lia.
    rewrite (Z.testbit_neg_r wheelIndex) by lia.
    now rewrite !orb_false_r, andb_true_r.
  - rewrite (small_bits sievingPrime primeBits i) by (assumption || lia).
    now rewrite andb_false_r.
Qed.

Lemma getMultipleIndex_pack :
  getMultipleIndex primeBits
    (pack primeBits wheelBits sievingPrime multipleIndex wheelIndex)
  = multipleIndex.
Proof.
  destruct widths as (W1 & W2 & W3). unfold MULTIPLE_BITS in W3.
  rewrite pack_fits. unfold getMultipleIndex, MULTIPLE_BITS.
  apply Z.bits_inj'. intros i Hi.
  rewrite Z.land_spec, Z.shiftr_spec, !Z.lor_spec, Z.testbit_ones_nonneg by lia.
  rewrite !Z.shiftl_spec by lia.
  rewrite (small_bits sievingPrime primeBits (i + primeBits)) by (assumption || lia).
  replace (i + primeBits - primeBits) with i by lia.
  destruct (Z.ltb_spec i 23).
  - rewrite (Z.testbit_neg_r wheelIndex) by lia.
    now rewrite orb_false_l, orb_false_r, andb_true_r.
  - rewrite (small_bits multipleIndex 23 i) by (assumption || lia).
    now rewrite andb_false_r.
Qed.

Lemma getWheelIndex_pack :
  getWheelIndex primeBits wheelBits
    (pack primeBits wheelBits sievingPrime multipleIndex wheelIndex)
  = wheelIndex.
Proof.
  destruct widths as (W1 & W2 & W3). unfold MULTIPLE_BITS in W3.
  rewrite pack_fits. unfold getWheelIndex, MULTIPLE_BITS.
  apply Z.bits_inj'. intros i Hi.
  rewrite Z.land_spec, Z.shiftr_spec, !Z.lor_spec, Z.testbit_ones_nonneg by lia.
  rewrite !Z.shiftl_spec by lia.
  rewrite (small_bits sievingPrime primeBits (i + (primeBits + 23)))
    by (assumption || lia).
  rewrite (small_bits multipleIndex 23 (i + (primeBits + 23) - primeBits))
    by (assumption || lia).
  replace (i + (primeBits + 23) - (primeBits + 23)) with i by lia.
  destruct (Z.ltb_spec i wheelBits).
  - now rewrite !orb_false_l, andb_true_r.
  - rewrite (small_bits wheelIndex wheelBits i) by (assumption || lia).
    reflexivity.
Qed.

(** The packed record is a 64-bit word. *)
Lemma pack_word :
  0 <= pack primeBits wheelBits sievingPrime multipleIndex wheelIndex < 2 ^ 64.
Proof.
  destruct widths as (W1 & W2 & W3). unfold MULTIPLE_BITS in W3.
  rewrite pack_fits. split.
  - rewrite !Z.lor_nonneg, !Z.shiftl_nonneg. lia.
  - apply bits_small; [lia| |].
    + rewrite !Z.lor_nonneg, !Z.shiftl_nonneg. lia.
    + intros i Hi. rewrite !Z.lor_spec, !Z.shiftl_spec by lia.
      rewrite (small_bits sievingPrime primeBits i) by (assumption || lia).
      rewrite (small_bits multipleIndex 23 (i - primeBits)) by (assumption || lia).
      rewrite (small_bits wheelIndex wheelBits (i - (primeBits + 23)))
        by (assumption || lia).
      reflexivity.
Qed.

End Layout.



End PackedFacts.

(** ** What every run of [EratMedium::crossOff] keeps *)

Module ShapeFacts.
Import Wheel EratMedium Shape.

Lemma bind_Ok {A B} (m : result A) (k : A -> result B) b :
  bind m k = Ok b -> exists a, m = Ok a /\ k a = Ok b.
Proof. destruct m as [a|e]; simpl; [eauto|discriminate]. Qed.

Ltac unbind H :=
  let a := fresh "a" in
  let E := fresh "E" in
  apply bind_Ok in H; destruct H as (a & E & H).

Lemma only_cleared_refl s : only_cleared s s.
Proof.
  induction s as [|b s IH]; constructor; [apply Z.land_diag|exact IH].
Qed.

Lemma only_cleared_trans s1 s2 s3 :
  only_cleared s1 s2 -> only_cleared s2 s3 -> only_cleared s1 s3.
Proof.
  intros H. revert s3. induction H as [|b1 b2 s1 s2 H12 F IH]; intros s3 H';
    inversion H' as [|? b3 ? s3' H23 F']; subst; constructor.
  - rewrite <- H23 at 1. rewrite <- Z.land_assoc, H12. exact H23.
  - now apply IH.
Qed.

Lemma only_cleared_length s s' : only_cleared s s' -> length s' = length s.
Proof. intros H. symmetry. exact (Forall2_length _ _ _ H). Qed.

Lemma ldiff_below b m : Z.land (Z.ldiff b m) b = Z.ldiff b m.
Proof.
  apply Z.bits_inj'. intros n Hn. rewrite Z.land_spec, !Z.ldiff_spec.
  destruct (Z.testbit b n), (Z.testbit m n); reflexivity.
Qed.

Lemma only_cleared_insert s (i : nat) b m :
  s !! i = Some b -> only_cleared s (<[i := Z.ldiff b m]> s).
Proof.
  revert i. induction s as [|x s IH]; intros i H; [discriminate|].
  destruct i as [|i]; simpl in *.
  - injection H as ->. constructor; [apply ldiff_below|apply only_cleared_refl].
  - constructor; [apply Z.land_diag|now apply IH].
Qed.

(** One [unsetBit]. *)
Lemma step_keeps s l s' l' :
  step s l = Ok (s', l') ->
  only_cleared s s' /\ sievingPrime l' = sievingPrime l.
Proof.
  unfold step, Wheel.step, unsetBit. intros H.
  destruct (wheel210 !! Z.to_nat (wheelIndex l)) as [w|]; simpl in H; [|discriminate].
  destruct (s !! Z.to_nat (multipleIndex l)) as [b|] eqn:Eb; simpl in H; [|discriminate].
  injection H as <- <-. split; [now apply only_cleared_insert|reflexivity].
Qed.

Lemma lane_keeps fuel sieveSize : forall s l s' l',
  lane fuel sieveSize s l = Ok (s', l') ->
  only_cleared s s' /\ sievingPrime l' = sievingPrime l.
Proof.
  unfold lane.
  induction fuel as [|fuel IH]; intros s l s' l' H; simpl in H;
    destruct (multipleIndex l <? sieveSize); try discriminate;
    try (injection H as <- <-; split; [apply only_cleared_refl|reflexivity]).
  unbind H. destruct a as (s1 & l1).
  apply step_keeps in E. apply IH in H. destruct E as (E1 & E2), H as (H1 & H2).
  split; [now apply only_cleared_trans with s1|congruence].
Qed.

Lemma lanes3_keeps fuel sieveSize : forall s l0 l1 l2 s' l0' l1' l2',
  lanes3 fuel sieveSize s l0 l1 l2 = Ok (s', l0', l1', l2') ->
  only_cleared s s' /\ sievingPrime l0' = sievingPrime l0 /\
  sievingPrime l1' = sievingPrime l1 /\ sievingPrime l2' = sievingPrime l2.
Proof.
  induction fuel as [|fuel IH]; intros s l0 l1 l2 s' l0' l1' l2' H; simpl in H;
    destruct (multipleIndex l0 <? sieveSize); try discriminate;
    try (injection H as <- <- <- <-; split; [apply only_cleared_refl|tauto]).
  unbind H. destruct a as (s1 & k0). apply step_keeps in E. destruct E as (E1 & E2).
  destruct (multipleIndex l1 >=? sieveSize).
  { injection H as <- <- <- <-. tauto. }
  unbind H. destruct a as (s2 & k1). apply step_keeps in E. destruct E as (E3 & E4).
  destruct (multipleIndex l2 >=? sieveSize).
  { injection H as <- <- <- <-. split; [now apply only_cleared_trans with s1|tauto]. }
  unbind H. destruct a as (s3 & k2). apply step_keeps in E. destruct E as (E5 & E6).
  apply IH in H. destruct H as (H1 & H2 & H3 & H4).
  split; [|repeat split; congruence].
  apply only_cleared_trans with s1; [exact E1|].
  apply only_cleared_trans with s2; [exact E3|].
  now apply only_cleared_trans with s3.
Qed.

Lemma crossOff3_keeps fuel sieveSize s p0 p1 p2 s' rs :
  crossOff3 fuel sieveSize s p0 p1 p2 = Ok (s', rs) ->
  only_cleared s s' /\
  map getSievingPrime rs = map getSievingPrime [p0; p1; p2].
Proof.
  unfold crossOff3. intros H.
  unbind H. destruct a as (((s1 & l0) & l1) & l2).
  apply lanes3_keeps in E. destruct E as (E1 & _).
  unbind H. destruct a as (s2 & k0). apply lane_keeps in E. destruct E as (E2 & _).
  unbind H. destruct a as (s3 & k1). apply lane_keeps in E. destruct E as (E3 & _).
  unbind H. destruct a as (s4 & k2). apply lane_keeps in E. destruct E as (E4 & _).
  injection H as <- <-. split; [|reflexivity].
  apply only_cleared_trans with s1; [exact E1|].
  apply only_cleared_trans with s2; [exact E2|].
  now apply only_cleared_trans with s3.
Qed.

Lemma crossOffRest_keeps fuel sieveSize rs : forall s s' rs',
  crossOffRest fuel sieveSize s rs = Ok (s', rs') ->
  only_cleared s s' /\ map getSievingPrime rs' = map getSievingPrime rs.
Proof.
  induction rs as [|r rs IH]; intros s s' rs' H; simpl in H.
  - injection H as <- <-. split; [apply only_cleared_refl|reflexivity].
  - unbind H. destruct a as (s1 & r'). unfold crossOff1 in E.
    unbind E. destruct a as (s2 & l). injection E as <- <-.
    apply lane_keeps in E0. destruct E0 as (E1 & _).
    unbind H. destruct a as (s3 & rs1). apply IH in E. destruct E as (E2 & E3).
    injection H as <- <-. split; [now apply only_cleared_trans with s2|].
    simpl. now rewrite E3.
Qed.

Lemma crossOffLoops_keeps fuel sieveSize n : forall rs s s' rs',
  (length rs <= n)%nat ->
  crossOffLoops fuel sieveSize s rs = Ok (s', rs') ->
  only_cleared s s' /\ map getSievingPrime rs' = map getSievingPrime rs.
Proof.
  induction n as [|n IH]; intros rs s s' rs' Hn H.
  - destruct rs; [|simpl in Hn; lia]. now apply (crossOffRest_keeps fuel sieveSize []).
  - destruct rs as [|r0 [|r1 [|r2 [|r3 rs]]]];
      try exact (crossOffRest_keeps fuel sieveSize _ s s' rs' H).
    change (crossOffLoops fuel sieveSize s (r0 :: r1 :: r2 :: r3 :: rs))
      with (do (sieve, done) <- crossOff3 fuel sieveSize s r0 r1 r2;
            do (sieve, primes') <- crossOffLoops fuel sieveSize sieve (r3 :: rs);
            Ok (sieve, done ++ primes')) in H.
    unbind H. destruct a as (s1 & done). apply crossOff3_keeps in E.
    destruct E as (E1 & E2).
    unbind H. destruct a as (s2 & rs2). apply IH in E; [|simpl in *; lia].
    destruct E as (E3 & E4). injection H as <- <-.
    split; [now apply only_cleared_trans with s1|].
    rewrite map_app, E2, E4. reflexivity.
Qed.

Lemma crossOff_keeps fuel sieve sieveSize e sieve' e' :
  crossOff fuel sieve sieveSize e = Ok (sieve', e') ->
  only_cleared sieve sieve' /\
  map getSievingPrime (primes_ e') = map getSievingPrime (primes_ e) /\
  stop_ e' = stop_ e /\ sieveSize_ e' = sieveSize_ e /\ maxPrime_ e' = maxPrime_ e.
Proof.
  unfold crossOff. intros H. unbind H. unbind H. unbind H.
  destruct a1 as (s & rs). injection H as <- <-.
  apply (crossOffLoops_keeps fuel sieveSize (length (primes_ e))) in E1; [|lia].
  cbn [primes_ stop_ sieveSize_ maxPrime_]. tauto.
Qed.

End ShapeFacts.

(** ** [EratMedium::crossOff] on records that stand for nothing in particular *)

Module SafetyFacts.
Import Wheel EratMedium Shape ShapeFacts SieveFacts.

(** *** Records beyond the segment *)

Lemma lane_idle fuel sieveSize s l :
  sieveSize <= multipleIndex l -> lane fuel sieveSize s l = Ok (s, l).
Proof.
  intros H. unfold lane. destruct fuel; simpl;
    destruct (Z.ltb_spec (multipleIndex l) sieveSize); try lia; reflexivity.
Qed.

Lemma lanes3_idle fuel sieveSize s l0 l1 l2 :
  sieveSize <= multipleIndex l0 ->
  lanes3 fuel sieveSize s l0 l1 l2 = Ok (s, l0, l1, l2).
Proof.
  intros H. destruct fuel; simpl;
    destruct (Z.ltb_spec (multipleIndex l0) sieveSize); try lia; reflexivity.
Qed.

Lemma store_skip sieveSize r :
  0 <= sieveSize -> sieveSize <= getMultipleIndex r < 2 ^ 64 ->
  store sieveSize (load r) r = skip sieveSize r.
Proof.
  intros H0 H. unfold store, skip, load. cbn [multipleIndex wheelIndex].
  rewrite wrap64_small; [reflexivity|]. unfold is_u64. lia.
Qed.

Lemma crossOff3_idle fuel sieveSize s p0 p1 p2 :
  0 <= sieveSize ->
  Forall (fun r => sieveSize <= getMultipleIndex r < 2 ^ 64) [p0; p1; p2] ->
  crossOff3 fuel sieveSize s p0 p1 p2 = Ok (s, map (skip sieveSize) [p0; p1; p2]).
Proof.
  intros H0 F. inversion F as [|? ? H1 F1]; subst.
  inversion F1 as [|? ? H2 F2]; subst. inversion F2 as [|? ? H3 _]; subst.
  unfold crossOff3. rewrite lanes3_idle by (cbn; lia). cbn [bind].
  do 3 (rewrite lane_idle by (cbn; lia); cbn [bind]). cbn [map].
  rewrite !store_skip by (try assumption; lia). reflexivity.
Qed.

Lemma crossOffRest_idle fuel sieveSize s rs :
  0 <= sieveSize ->
  Forall (fun r => sieveSize <= getMultipleIndex r < 2 ^ 64) rs ->
  crossOffRest fuel sieveSize s rs = Ok (s, map (skip sieveSize) rs).
Proof.
  intros H0. induction 1 as [|r rs H F IH]; [reflexivity|].
  cbn [crossOffRest]. unfold crossOff1. rewrite lane_idle by (cbn; lia).
  cbn [bind]. rewrite IH. cbn [bind map].
  rewrite store_skip by (try assumption; lia). reflexivity.
Qed.

Lemma crossOffLoops_idle fuel sieveSize s n : forall rs,
  (length rs <= n)%nat -> 0 <= sieveSize ->
  Forall (fun r => sieveSize <= getMultipleIndex r < 2 ^ 64) rs ->
  crossOffLoops fuel sieveSize s rs = Ok (s, map (skip sieveSize) rs).
Proof.
  induction n as [|n IH]; intros rs Hn H0 F.
  - destruct rs; [reflexivity|simpl in Hn; lia].
  - destruct rs as [|r0 [|r1 [|r2 [|r3 rs]]]];
      try exact (crossOffRest_idle fuel sieveSize s _ H0 F).
    change (crossOffLoops fuel sieveSize s (r0 :: r1 :: r2 :: r3 :: rs))
      with (do (sieve, done) <- crossOff3 fuel sieveSize s r0 r1 r2;
            do (sieve, primes') <- crossOffLoops fuel sieveSize sieve (r3 :: rs);
            Ok (sieve, done ++ primes')).
    inversion F as [|? ? H1 F1]; subst. inversion F1 as [|? ? H2 F2]; subst.
    inversion F2 as [|? ? H3 F3]; subst.
    assert (F012 : Forall (fun r => sieveSize <= getMultipleIndex r < 2 ^ 64) [r0; r1; r2]).
    { constructor; [exact H1|]. constructor; [exact H2|]. constructor; [exact H3|]. constructor. }
    rewrite (crossOff3_idle fuel sieveSize s r0 r1 r2 H0 F012).
    cbn [bind]. rewrite IH by (simpl in *; try lia; assumption). reflexivity.
Qed.

(** *** Well-formed records *)

Ltac conjs := repeat match goal with |- _ /\ _ => split end.

Lemma wheel210_safe (i : Z) :
  0 <= i < 384 ->
  exists w, wheel210 !! Z.to_nat i = Some w /\ entry_safe w = true.
Proof.
  intros H.
  assert (L : (Z.to_nat i < length wheel210)%nat).
  { change (length wheel210) with 384%nat. lia. }
  apply lookup_lt_is_Some_2 in L. destruct L as (w & E).
  exists w. split; [exact E|].
  assert (A : forallb entry_safe wheel210 = true) by (vm_compute; reflexivity).
  rewrite forallb_forall in A. apply A.
  apply list_elem_of_In. eapply list_elem_of_lookup_2. exact E.
Qed.

(** One [unsetBit] inside the segment: it stays inside the buffer and the
    table and moves the multiple index forward. *)
Lemma step_safe sieveSize s l :
  0 <= sieveSize <= 4096 * 1024 -> sieveSize <= Z.of_nat (length s) ->
  well_formed_lane sieveSize l -> multipleIndex l < sieveSize ->
  exists s' l',
    step s l = Ok (s', l') /\ length s' = length s /\
    well_formed_lane sieveSize l' /\ multipleIndex l < multipleIndex l'.
Proof.
  intros Hs Hlen (Hp & Hq & Hm & Hw) Hlt.
  destruct (wheel210_safe (wheelIndex l) Hw) as (w & Ew & Sw).
  unfold entry_safe in Sw. rewrite !andb_true_iff in Sw.
  destruct Sw as (((((S1 & S2) & S3) & S4) & S5) & S6).
  apply Z.leb_le in S1, S2, S3, S4, S5. apply Z.ltb_lt in S6.
  assert (L : (Z.to_nat (multipleIndex l) < length s)%nat) by lia.
  apply lookup_lt_is_Some_2 in L. destruct L as (b & Eb).
  unfold step, Wheel.step, unsetBit. rewrite Ew, Eb. cbn [of_option bind].
  assert (B : 2 <= byteInc w * sievingPrime l <= 10 * sievingPrime l) by nia.
  rewrite (wrap64_small (byteInc w * sievingPrime l)) by (unfold is_u64; lia).
  rewrite (wrap64_small (multipleIndex l + _)) by (unfold is_u64; lia).
  rewrite wrap64_small by (unfold is_u64; lia).
  eexists. eexists. split; [reflexivity|].
  split; [apply length_insert|].
  split; [|cbn; lia].
  unfold well_formed_lane. cbn. lia.
Qed.

Lemma lane_safe fuel sieveSize : forall s l,
  0 <= sieveSize <= 4096 * 1024 -> sieveSize <= Z.of_nat (length s) ->
  well_formed_lane sieveSize l -> sieveSize - multipleIndex l <= Z.of_nat fuel ->
  exists s' l',
    lane fuel sieveSize s l = Ok (s', l') /\ length s' = length s /\
    well_formed_lane sieveSize l' /\ sieveSize <= multipleIndex l'.
Proof.
  induction fuel as [|fuel IH]; intros s l Hs Hlen W Hf.
  - exists s, l. rewrite lane_idle by lia. conjs; try assumption; try reflexivity; lia.
  - destruct (Z_lt_le_dec (multipleIndex l) sieveSize) as [Hlt|Hge].
    + destruct (step_safe sieveSize s l Hs Hlen W Hlt) as (s1 & l1 & E & L1 & W1 & M1).
      destruct (IH s1 l1 Hs ltac:(lia) W1 ltac:(lia)) as (s' & l' & E' & L' & W' & M').
      exists s', l'. split; [|conjs; try assumption; lia].
      unfold lane in *. cbn [Wheel.lane].
      destruct (Z.ltb_spec (multipleIndex l) sieveSize); [|lia].
      change (Wheel.step wheel210 s l) with (step s l). rewrite E. exact E'.
    + exists s, l. rewrite lane_idle by lia. conjs; try assumption; try reflexivity; lia.
Qed.

Lemma lanes3_safe fuel sieveSize : forall s l0 l1 l2,
  0 <= sieveSize <= 4096 * 1024 -> sieveSize <= Z.of_nat (length s) ->
  well_formed_lane sieveSize l0 -> well_formed_lane sieveSize l1 -> well_formed_lane sieveSize l2 ->
  sieveSize - multipleIndex l0 <= Z.of_nat fuel ->
  exists s' l0' l1' l2',
    lanes3 fuel sieveSize s l0 l1 l2 = Ok (s', l0', l1', l2') /\
    length s' = length s /\
    well_formed_lane sieveSize l0' /\ well_formed_lane sieveSize l1' /\ well_formed_lane sieveSize l2' /\
    multipleIndex l0 <= multipleIndex l0' /\
    multipleIndex l1 <= multipleIndex l1' /\
    multipleIndex l2 <= multipleIndex l2'.
Proof.
  induction fuel as [|fuel IH]; intros s l0 l1 l2 Hs Hlen W0 W1 W2 Hf.
  - exists s, l0, l1, l2. rewrite lanes3_idle by lia. conjs; try assumption; try reflexivity; lia.
  - destruct (Z_lt_le_dec (multipleIndex l0) sieveSize) as [Hlt|Hge];
      [|exists s, l0, l1, l2; rewrite lanes3_idle by lia; conjs; try assumption; try reflexivity; lia].
    cbn [lanes3]. destruct (Z.ltb_spec (multipleIndex l0) sieveSize); [|lia].
    destruct (step_safe sieveSize s l0 Hs Hlen W0 Hlt) as (s1 & k0 & E0 & L0 & V0 & M0).
    rewrite E0. cbn [bind].
    destruct (Z.geb_spec (multipleIndex l1) sieveSize) as [G1|G1].
    { exists s1, k0, l1, l2. conjs; try assumption; try reflexivity; lia. }
    destruct (step_safe sieveSize s1 l1 Hs ltac:(lia) W1 G1) as (s2 & k1 & E1 & L1 & V1 & M1).
    rewrite E1. cbn [bind].
    destruct (Z.geb_spec (multipleIndex l2) sieveSize) as [G2|G2].
    { exists s2, k0, k1, l2. conjs; try assumption; try reflexivity; lia. }
    destruct (step_safe sieveSize s2 l2 Hs ltac:(lia) W2 G2) as (s3 & k2 & E2 & L2 & V2 & M2).
    rewrite E2. cbn [bind].
    destruct (IH s3 k0 k1 k2 Hs ltac:(lia) V0 V1 V2 ltac:(lia))
      as (s' & m0 & m1 & m2 & E & L & U0 & U1 & U2 & N0 & N1 & N2).
    exists s', m0, m1, m2. conjs; try assumption; try reflexivity; lia.
Qed.

Lemma well_formed_load sieveSize r :
  0 <= sieveSize -> well_formed sieveSize r -> well_formed_lane sieveSize (load r).
Proof.
  intros H0 (Hp & Hq & Hm & Hw). unfold well_formed_lane, load.
  cbn [sievingPrime multipleIndex wheelIndex]. lia.
Qed.

Lemma well_formed_store sieveSize l r :
  0 <= sieveSize -> well_formed_lane sieveSize l -> sieveSize <= multipleIndex l ->
  getSievingPrime r = sievingPrime l ->
  well_formed sieveSize (store sieveSize l r).
Proof.
  intros H0 (Hp & Hq & Hm & Hw) Hge E. unfold well_formed, store, set.
  cbn [getSievingPrime getMultipleIndex getWheelIndex].
  rewrite wrap64_small by (unfold is_u64; lia). lia.
Qed.

Section Segment.

Variables (fuel : nat) (sieveSize : Z).
Hypothesis sieveSize_bounds : 0 <= sieveSize <= 4096 * 1024.
Hypothesis enough : sieveSize <= Z.of_nat fuel.

Lemma lane_safe' s l :
  sieveSize <= Z.of_nat (length s) -> well_formed_lane sieveSize l ->
  exists s' l',
    lane fuel sieveSize s l = Ok (s', l') /\ length s' = length s /\
    well_formed_lane sieveSize l' /\ sieveSize <= multipleIndex l' /\
    sievingPrime l' = sievingPrime l.
Proof.
  intros Hlen W.
  assert (0 <= multipleIndex l) by (destruct W as (_ & _ & W & _); lia).
  destruct (lane_safe fuel sieveSize s l sieveSize_bounds Hlen W ltac:(lia))
    as (s' & l' & E & L & W' & M).
  exists s', l'. pose proof (lane_keeps _ _ _ _ _ _ E) as (_ & K). tauto.
Qed.

Lemma crossOff1_safe s r :
  sieveSize <= Z.of_nat (length s) -> well_formed sieveSize r ->
  exists s' r',
    crossOff1 fuel sieveSize s r = Ok (s', r') /\ length s' = length s /\
    well_formed sieveSize r'.
Proof.
  intros Hlen W. apply well_formed_load in W; [|lia].
  destruct (lane_safe' s (load r) Hlen W) as (s' & l' & E & L & W' & M & K).
  exists s', (store sieveSize l' r). unfold crossOff1. rewrite E. cbn [bind].
  split; [reflexivity|]. split; [exact L|].
  apply well_formed_store; try assumption; try lia. now rewrite K.
Qed.

Lemma crossOff3_safe s p0 p1 p2 :
  sieveSize <= Z.of_nat (length s) ->
  well_formed sieveSize p0 -> well_formed sieveSize p1 -> well_formed sieveSize p2 ->
  exists s' rs,
    crossOff3 fuel sieveSize s p0 p1 p2 = Ok (s', rs) /\ length s' = length s /\
    Forall (well_formed sieveSize) rs.
Proof.
  intros Hlen W0 W1 W2.
  apply well_formed_load in W0, W1, W2; try lia.
  assert (0 <= multipleIndex (load p0)) by (destruct W0 as (_ & _ & W0 & _); lia).
  destruct (lanes3_safe fuel sieveSize s (load p0) (load p1) (load p2)
              sieveSize_bounds Hlen W0 W1 W2 ltac:(lia))
    as (s1 & k0 & k1 & k2 & E & L & V0 & V1 & V2 & _).
  pose proof (lanes3_keeps _ _ _ _ _ _ _ _ _ _ E) as (_ & K0 & K1 & K2).
  destruct (lane_safe' s1 k0 ltac:(lia) V0) as (s2 & m0 & E0 & L0 & U0 & M0 & J0).
  destruct (lane_safe' s2 k1 ltac:(lia) V1) as (s3 & m1 & E1 & L1 & U1 & M1 & J1).
  destruct (lane_safe' s3 k2 ltac:(lia) V2) as (s4 & m2 & E2 & L2 & U2 & M2 & J2).
  unfold crossOff3. rewrite E. cbn [bind]. rewrite E0. cbn [bind].
  rewrite E1. cbn [bind]. rewrite E2. cbn [bind].
  eexists. eexists. split; [reflexivity|]. split; [lia|].
  repeat constructor; apply well_formed_store; try assumption; try lia;
    cbn [load sievingPrime] in *; congruence.
Qed.

Lemma crossOffRest_safe rs : forall s,
  sieveSize <= Z.of_nat (length s) -> Forall (well_formed sieveSize) rs ->
  exists s' rs',
    crossOffRest fuel sieveSize s rs = Ok (s', rs') /\ length s' = length s /\
    Forall (well_formed sieveSize) rs'.
Proof.
  induction rs as [|r rs IH]; intros s Hlen F.
  - exists s, []. repeat split. constructor.
  - inversion F as [|? ? W F']; subst.
    destruct (crossOff1_safe s r Hlen W) as (s1 & r' & E & L & W').
    destruct (IH s1 ltac:(lia) F') as (s' & rs' & E' & L' & F'').
    exists s', (r' :: rs'). cbn [crossOffRest]. rewrite E. cbn [bind].
    rewrite E'. cbn [bind]. split; [reflexivity|]. split; [lia|].
    now constructor.
Qed.

Lemma crossOffLoops_safe n : forall rs s,
  (length rs <= n)%nat ->
  sieveSize <= Z.of_nat (length s) -> Forall (well_formed sieveSize) rs ->
  exists s' rs',
    crossOffLoops fuel sieveSize s rs = Ok (s', rs') /\ length s' = length s /\
    Forall (well_formed sieveSize) rs'.
Proof.
  induction n as [|n IH]; intros rs s Hn Hlen F.
  - destruct rs; [|simpl in Hn; lia]. exists s, []. repeat split. constructor.
  - destruct rs as [|r0 [|r1 [|r2 [|r3 rs]]]];
      try exact (crossOffRest_safe _ s Hlen F).
    change (crossOffLoops fuel sieveSize s (r0 :: r1 :: r2 :: r3 :: rs))
      with (do (sieve, done) <- crossOff3 fuel sieveSize s r0 r1 r2;
            do (sieve, primes') <- crossOffLoops fuel sieveSize sieve (r3 :: rs);
            Ok (sieve, done ++ primes')).
    inversion F as [|? ? W0 F0]; subst. inversion F0 as [|? ? W1 F1]; subst.
    inversion F1 as [|? ? W2 F2]; subst.
    destruct (crossOff3_safe s r0 r1 r2 Hlen W0 W1 W2) as (s1 & done & E & L & Fd).
    destruct (IH (r3 :: rs) s1 ltac:(simpl in *; lia) ltac:(lia) F2)
      as (s' & rs' & E' & L' & F').
    exists s', (done ++ rs'). rewrite E. cbn [bind]. rewrite E'. cbn [bind].
    split; [reflexivity|]. split; [lia|].
    apply List.Forall_app. now split.
Qed.

End Segment.

End SafetyFacts.

(** ** The three interleaved lanes against one record at a time *)

Module InterleaveFacts.
Import Wheel EratMedium Shape ShapeFacts.

(** *** The loop of one lane as a relation *)

Lemma lane_run fuel sieveSize : forall s l s' l',
  lane fuel sieveSize s l = Ok (s', l') ->
  exists n, (n <= fuel)%nat /\ run sieveSize s l n s' l'.
Proof.
  unfold lane.
  induction fuel as [|fuel IH]; intros s l s' l' H; simpl in H;
    destruct (Z.ltb_spec (multipleIndex l) sieveSize) as [Hlt|Hge]; try discriminate;
    try (injection H as <- <-; exists 0%nat; split; [lia|now constructor]).
  unbind H. destruct a as (s1 & l1). apply IH in H. destruct H as (n & Hn & R).
  exists (S n). split; [lia|]. now apply run_step with s1 l1.
Qed.

Lemma run_lane sieveSize s l n s' l' :
  run sieveSize s l n s' l' ->
  forall fuel, (n <= fuel)%nat -> lane fuel sieveSize s l = Ok (s', l').
Proof.
  unfold lane.
  induction 1 as [s l Hge|s l s1 l1 n s' l' Hlt E R IH]; intros fuel Hn.
  - destruct fuel; simpl; destruct (Z.ltb_spec (multipleIndex l) sieveSize);
      try lia; reflexivity.
  - destruct fuel as [|fuel]; [lia|]. simpl.
    destruct (Z.ltb_spec (multipleIndex l) sieveSize); [|lia].
    change (Wheel.step wheel210 s l) with (step s l). rewrite E. cbn [bind].
    apply IH. lia.
Qed.

(** The loop has one outcome. *)
Lemma run_unique sieveSize s l n s' l' :
  run sieveSize s l n s' l' ->
  forall m t k, run sieveSize s l m t k -> m = n /\ t = s' /\ k = l'.
Proof.
  induction 1 as [s l Hge|s l s1 l1 n s' l' Hlt E R IH]; intros m t k R'.
  - inversion R'; subst; [tauto|lia].
  - inversion R' as [|? ? t1 k1 m' ? ? Hlt' E' R'']; subst; [lia|].
    assert (t1 = s1 /\ k1 = l1) as (-> & ->) by (split; congruence).
    destruct (IH _ _ _ R'') as (-> & -> & ->). tauto.
Qed.

(** *** Two calls of [unsetBit] on different lanes can be swapped *)

Lemma step_inv s l s' l' :
  step s l = Ok (s', l') ->
  exists w b,
    s !! Z.to_nat (multipleIndex l) = Some b /\
    s' = <[Z.to_nat (multipleIndex l) := Z.ldiff b (bitMask w)]> s /\
    forall t c, t !! Z.to_nat (multipleIndex l) = Some c ->
      step t l = Ok (<[Z.to_nat (multipleIndex l) := Z.ldiff c (bitMask w)]> t, l').
Proof.
  unfold step, Wheel.step, unsetBit. intros H.
  destruct (wheel210 !! Z.to_nat (wheelIndex l)) as [w|]; simpl in H; [|discriminate].
  destruct (s !! Z.to_nat (multipleIndex l)) as [b|] eqn:Eb; simpl in H; [|discriminate].
  injection H as <- <-. exists w, b. split; [reflexivity|]. split; [reflexivity|].
  intros t c Et. rewrite Et. reflexivity.
Qed.

Lemma ldiff_ldiff b m m' : Z.ldiff (Z.ldiff b m) m' = Z.ldiff (Z.ldiff b m') m.
Proof.
  apply Z.bits_inj'. intros n Hn. rewrite !Z.ldiff_spec.
  destruct (Z.testbit b n), (Z.testbit m n), (Z.testbit m' n); reflexivity.
Qed.

Lemma step_step s a s1 a' b s2 b' :
  step s a = Ok (s1, a') -> step s1 b = Ok (s2, b') ->
  exists t, step s b = Ok (t, b') /\ step t a = Ok (s2, a').
Proof.
  intros Ha Hb.
  apply step_inv in Ha. destruct Ha as (wa & ba & Ea & -> & Fa).
  apply step_inv in Hb. destruct Hb as (wb & bb1 & Eb & -> & Fb).
  set (ia := Z.to_nat (multipleIndex a)) in *.
  set (ib := Z.to_nat (multipleIndex b)) in *.
  assert (La : (ia < length s)%nat) by (apply lookup_lt_is_Some; eauto).
  assert (Lb : (ib < length s)%nat).
  { apply lookup_lt_Some in Eb. now rewrite length_insert in Eb. }
  destruct (lookup_lt_is_Some_2 s ib Lb) as (bb & Ebb).
  exists (<[ib := Z.ldiff bb (bitMask wb)]> s). split; [now apply Fb|].
  destruct (Nat.eq_dec ia ib) as [Heq|Hne].
  - rewrite <- Heq in *. assert (bb = ba) by congruence. subst bb.
    rewrite list_lookup_insert_eq in Eb by exact La. injection Eb as <-.
    rewrite (Fa _ (Z.ldiff ba (bitMask wb))) by (now apply list_lookup_insert_eq).
    rewrite !list_insert_insert_eq. now rewrite ldiff_ldiff.
  - rewrite list_lookup_insert_ne in Eb by exact Hne.
    assert (bb1 = bb) by congruence. subst bb1.
    rewrite (Fa _ ba) by (rewrite list_lookup_insert_ne by congruence; exact Ea).
    now rewrite list_insert_insert_ne by exact Hne.
Qed.

(** A call for one lane after the loop of another is as good before it. *)
Lemma run_then_step sieveSize s a n s1 a' :
  run sieveSize s a n s1 a' ->
  forall b s2 b', step s1 b = Ok (s2, b') ->
  exists t, step s b = Ok (t, b') /\ run sieveSize t a n s2 a'.
Proof.
  induction 1 as [s a Hge|s a sa a1 n s1 a' Hlt E R IH]; intros b s2 b' Hb.
  - exists s2. split; [exact Hb|now constructor].
  - destruct (IH _ _ _ Hb) as (t1 & Hb1 & R1).
    destruct (step_step _ _ _ _ _ _ _ E Hb1) as (t & Hb0 & E0).
    exists t. split; [exact Hb0|]. now apply run_step with t1 a1.
Qed.

Lemma step_then_run sieveSize t a n s2 a' :
  run sieveSize t a n s2 a' ->
  forall s b b', step s b = Ok (t, b') ->
  exists s1, run sieveSize s a n s1 a' /\ step s1 b = Ok (s2, b').
Proof.
  induction 1 as [t a Hge|t a t1 a1 n s2 a' Hlt E R IH]; intros s b b' Hb.
  - exists s. split; [now constructor|exact Hb].
  - destruct (step_step _ _ _ _ _ _ _ Hb E) as (u & Ea & Hb1).
    destruct (IH _ _ _ Hb1) as (s1 & R1 & Hb2).
    exists s1. split; [|exact Hb2]. now apply run_step with u a1.
Qed.

(** *** The interleaved loop *)

Lemma lanes3_done fuel sieveSize s l0 l1 l2 :
  sieveSize <= multipleIndex l0 ->
  lanes3 fuel sieveSize s l0 l1 l2 = Ok (s, l0, l1, l2).
Proof.
  intros H. destruct fuel; simpl;
    destruct (Z.ltb_spec (multipleIndex l0) sieveSize); try lia; reflexivity.
Qed.

(** From three loops in a row to the interleaved loop followed by what is
    left of the three. *)
Lemma lanes3_of_runs sieveSize fuel : forall na s a b c s1 a' nb s2 b' nc s3 c',
  run sieveSize s a na s1 a' -> run sieveSize s1 b nb s2 b' ->
  run sieveSize s2 c nc s3 c' -> (na <= fuel)%nat ->
  exists t a1 b1 c1 ma mb mc ta tb,
    lanes3 fuel sieveSize s a b c = Ok (t, a1, b1, c1) /\
    run sieveSize t a1 ma ta a' /\ run sieveSize ta b1 mb tb b' /\
    run sieveSize tb c1 mc s3 c' /\
    (ma <= na)%nat /\ (mb <= nb)%nat /\ (mc <= nc)%nat.
Proof.
  induction fuel as [|fuel IH]; intros na s a b c s1 a' nb s2 b' nc s3 c' Ra Rb Rc Hn.
  - inversion Ra; subst; [|lia].
    exists s1, a', b, c, 0%nat, nb, nc, s1, s2. rewrite lanes3_done by assumption.
    repeat split; try assumption; lia.
  - inversion Ra as [|? ? sa a1 n ? ? Hlt Ea Ra']; subst.
    { exists s1, a', b, c, 0%nat, nb, nc, s1, s2. rewrite lanes3_done by assumption.
      repeat split; try assumption; lia. }
    cbn [lanes3]. destruct (Z.ltb_spec (multipleIndex a) sieveSize); [|lia].
    rewrite Ea. cbn [bind].
    destruct (Z.geb_spec (multipleIndex b) sieveSize) as [Gb|Gb].
    { exists sa, a1, b, c, n, nb, nc, s1, s2. repeat split; try assumption; lia. }
    inversion Rb as [|? ? sb b1 nb' ? ? Hltb Eb Rb']; subst; [lia|].
    destruct (run_then_step _ _ _ _ _ _ Ra' _ _ _ Eb) as (t & Eb0 & Ra0).
    rewrite Eb0. cbn [bind].
    destruct (Z.geb_spec (multipleIndex c) sieveSize) as [Gc|Gc].
    { exists t, a1, b1, c, n, nb', nc, sb, s2. repeat split; try assumption; lia. }
    inversion Rc as [|? ? sc c1 nc' ? ? Hltc Ec Rc']; subst; [lia|].
    destruct (run_then_step _ _ _ _ _ _ Rb' _ _ _ Ec) as (u & Ec0 & Rb0).
    destruct (run_then_step _ _ _ _ _ _ Ra0 _ _ _ Ec0) as (v & Ec1 & Ra1).
    rewrite Ec1. cbn [bind].
    destruct (IH n v a1 b1 c1 u a' nb' sc b' nc' s3 c' Ra1 Rb0 Rc' ltac:(lia))
      as (t' & a2 & b2 & c2 & ma & mb & mc & ta & tb & E & R1 & R2 & R3 & M1 & M2 & M3).
    exists t', a2, b2, c2, ma, mb, mc, ta, tb. repeat split; try assumption; lia.
Qed.

(** And back. *)
Lemma runs_of_lanes3 sieveSize fuel : forall s a b c t a1 b1 c1,
  lanes3 fuel sieveSize s a b c = Ok (t, a1, b1, c1) ->
  forall ma ta a' mb tb b' mc s3 c',
  run sieveSize t a1 ma ta a' -> run sieveSize ta b1 mb tb b' ->
  run sieveSize tb c1 mc s3 c' ->
  exists na nb nc s1 s2,
    run sieveSize s a na s1 a' /\ run sieveSize s1 b nb s2 b' /\
    run sieveSize s2 c nc s3 c' /\
    (na <= fuel + ma)%nat /\ (nb <= fuel + mb)%nat /\ (nc <= fuel + mc)%nat.
Proof.
  induction fuel as [|fuel IH]; intros s a b c t a1 b1 c1 H ma ta a' mb tb b' mc s3 c' Ra Rb Rc;
    cbn [lanes3] in H;
    destruct (Z.ltb_spec (multipleIndex a) sieveSize) as [Hlt|Hge]; try discriminate;
    try (injection H as <- <- <- <-; exists ma, mb, mc, ta, tb;
         repeat split; try assumption; lia).
  unbind H. destruct a0 as (sa & k0).
  destruct (Z.geb_spec (multipleIndex b) sieveSize) as [Gb|Gb].
  { injection H as <- <- <- <-. exists (S ma), mb, mc, ta, tb.
    repeat split; try assumption; try lia. now apply run_step with sa k0. }
  unbind H. destruct a0 as (sb & k1).
  destruct (Z.geb_spec (multipleIndex c) sieveSize) as [Gc|Gc].
  { injection H as <- <- <- <-.
    destruct (step_then_run _ _ _ _ _ _ Ra _ _ _ E0) as (u & Ra0 & Eb0).
    exists (S ma), (S mb), mc, u, tb.
    repeat split; try assumption; try lia.
    - now apply run_step with sa k0.
    - now apply run_step with ta k1. }
  unbind H. destruct a0 as (sc & k2).
  destruct (IH _ _ _ _ _ _ _ _ H _ _ _ _ _ _ _ _ _ Ra Rb Rc)
    as (na & nb & nc & u1 & u2 & R1 & R2 & R3 & N1 & N2 & N3).
  destruct (step_then_run _ _ _ _ _ _ R1 _ _ _ E1) as (v1 & R1' & Ec1).
  destruct (step_then_run _ _ _ _ _ _ R2 _ _ _ Ec1) as (v2 & R2' & Ec2).
  destruct (step_then_run _ _ _ _ _ _ R1' _ _ _ E0) as (w1 & R1'' & Eb1).
  exists (S na), (S nb), (S nc), w1, v2.
  repeat split; try lia.
  - now apply run_step with sa k0.
  - now apply run_step with v1 k1.
  - now apply run_step with u2 k2.
Qed.

(** *** The bodies of the two [for] loops *)

Lemma crossOff3_of_lanes fuel sieveSize s p0 p1 p2 s1 l0 s2 l1 s3 l2 :
  lane fuel sieveSize s (load p0) = Ok (s1, l0) ->
  lane fuel sieveSize s1 (load p1) = Ok (s2, l1) ->
  lane fuel sieveSize s2 (load p2) = Ok (s3, l2) ->
  crossOff3 fuel sieveSize s p0 p1 p2
  = Ok (s3, [store sieveSize l0 p0; store sieveSize l1 p1; store sieveSize l2 p2]).
Proof.
  intros H0 H1 H2.
  apply lane_run in H0, H1, H2.
  destruct H0 as (na & Na & Ra), H1 as (nb & Nb & Rb), H2 as (nc & Nc & Rc).
  destruct (lanes3_of_runs sieveSize fuel _ _ _ _ _ _ _ _ _ _ _ _ _ Ra Rb Rc Na)
    as (t & a1 & b1 & c1 & ma & mb & mc & ta & tb & E & R1 & R2 & R3 & M1 & M2 & M3).
  unfold crossOff3. rewrite E. cbn [bind].
  rewrite (run_lane _ _ _ _ _ _ R1 fuel) by lia. cbn [bind].
  rewrite (run_lane _ _ _ _ _ _ R2 fuel) by lia. cbn [bind].
  rewrite (run_lane _ _ _ _ _ _ R3 fuel) by lia. reflexivity.
Qed.

Lemma lanes_of_crossOff3 fuel sieveSize s p0 p1 p2 s' rs :
  crossOff3 fuel sieveSize s p0 p1 p2 = Ok (s', rs) ->
  exists s1 l0 s2 l1 l2,
    lane (fuel + fuel) sieveSize s (load p0) = Ok (s1, l0) /\
    lane (fuel + fuel) sieveSize s1 (load p1) = Ok (s2, l1) /\
    lane (fuel + fuel) sieveSize s2 (load p2) = Ok (s', l2) /\
    rs = [store sieveSize l0 p0; store sieveSize l1 p1; store sieveSize l2 p2].
Proof.
  unfold crossOff3. intros H.
  unbind H. destruct a as (((t & a1) & b1) & c1).
  unbind H. destruct a as (ta & a'). unbind H. destruct a as (tb & b').
  unbind H. destruct a as (tc & c'). injection H as <- <-.
  apply lane_run in E0, E1, E2.
  destruct E0 as (ma & Ma & Ra), E1 as (mb & Mb & Rb), E2 as (mc & Mc & Rc).
  destruct (runs_of_lanes3 _ _ _ _ _ _ _ _ _ _ E _ _ _ _ _ _ _ _ _ Ra Rb Rc)
    as (na & nb & nc & s1 & s2 & R1 & R2 & R3 & N1 & N2 & N3).
  exists s1, a', s2, b', c'.
  rewrite (run_lane _ _ _ _ _ _ R1) by lia.
  rewrite (run_lane _ _ _ _ _ _ R2) by lia.
  rewrite (run_lane _ _ _ _ _ _ R3) by lia. tauto.
Qed.

Lemma lane_more_fuel fuel fuel' sieveSize s l r :
  (fuel <= fuel')%nat ->
  lane fuel sieveSize s l = Ok r -> lane fuel' sieveSize s l = Ok r.
Proof.
  intros Hf H. destruct r as (s' & l'). apply lane_run in H.
  destruct H as (n & Hn & R). apply (run_lane _ _ _ _ _ _ R). lia.
Qed.

Lemma crossOffRest_cons fuel sieveSize s p rs s' rs' :
  crossOffRest fuel sieveSize s (p :: rs) = Ok (s', rs') ->
  exists s1 l rs1,
    lane fuel sieveSize s (load p) = Ok (s1, l) /\
    crossOffRest fuel sieveSize s1 rs = Ok (s', rs1) /\
    rs' = store sieveSize l p :: rs1.
Proof.
  cbn [crossOffRest]. intros H. unbind H. destruct a as (s1 & p').
  unfold crossOff1 in E. unbind E. destruct a as (s2 & l). injection E as <- <-.
  unbind H. destruct a as (s3 & rs1). injection H as <- <-.
  exists s2, l, rs1. tauto.
Qed.

Lemma crossOffRest_intro fuel sieveSize s p rs s1 l s' rs1 :
  lane fuel sieveSize s (load p) = Ok (s1, l) ->
  crossOffRest fuel sieveSize s1 rs = Ok (s', rs1) ->
  crossOffRest fuel sieveSize s (p :: rs) = Ok (s', store sieveSize l p :: rs1).
Proof.
  intros H1 H2. cbn [crossOffRest]. unfold crossOff1. rewrite H1. cbn [bind].
  rewrite H2. reflexivity.
Qed.

Lemma crossOffRest_more_fuel fuel fuel' sieveSize rs : forall s r,
  (fuel <= fuel')%nat ->
  crossOffRest fuel sieveSize s rs = Ok r -> crossOffRest fuel' sieveSize s rs = Ok r.
Proof.
  induction rs as [|p rs IH]; intros s r Hf H; [exact H|].
  destruct r as (s' & rs').
  apply crossOffRest_cons in H. destruct H as (s1 & l & rs1 & H0 & H & ->).
  apply crossOffRest_intro with s1.
  - now apply lane_more_fuel with fuel.
  - now apply IH.
Qed.

(** *** The two loops of [crossOff] *)

Lemma loops_of_rest fuel sieveSize n : forall rs s r,
  (length rs <= n)%nat ->
  crossOffRest fuel sieveSize s rs = Ok r -> crossOffLoops fuel sieveSize s rs = Ok r.
Proof.
  induction n as [|n IH]; intros rs s r Hn H.
  - destruct rs; [exact H|simpl in Hn; lia].
  - destruct rs as [|r0 [|r1 [|r2 [|r3 rs]]]]; try exact H.
    change (crossOffLoops fuel sieveSize s (r0 :: r1 :: r2 :: r3 :: rs))
      with (do (sieve, done) <- crossOff3 fuel sieveSize s r0 r1 r2;
            do (sieve, primes') <- crossOffLoops fuel sieveSize sieve (r3 :: rs);
            Ok (sieve, done ++ primes')).
    destruct r as (s' & rs').
    apply crossOffRest_cons in H. destruct H as (s1 & l0 & rs1 & H0 & H & ->).
    apply crossOffRest_cons in H. destruct H as (s2 & l1 & rs2 & H1 & H & ->).
    apply crossOffRest_cons in H. destruct H as (s3 & l2 & rs3 & H2 & H & ->).
    rewrite (crossOff3_of_lanes _ _ _ _ _ _ _ _ _ _ _ _ H0 H1 H2). cbn [bind].
    rewrite (IH (r3 :: rs) _ _ ltac:(simpl in *; lia) H). reflexivity.
Qed.

Lemma rest_of_loops fuel sieveSize n : forall rs s r,
  (length rs <= n)%nat ->
  crossOffLoops fuel sieveSize s rs = Ok r ->
  crossOffRest (fuel + fuel) sieveSize s rs = Ok r.
Proof.
  induction n as [|n IH]; intros rs s r Hn H.
  - destruct rs; [exact H|simpl in Hn; lia].
  - destruct rs as [|r0 [|r1 [|r2 [|r3 rs]]]];
      try exact (crossOffRest_more_fuel fuel (fuel + fuel) _ _ _ _ ltac:(lia) H).
    change (crossOffLoops fuel sieveSize s (r0 :: r1 :: r2 :: r3 :: rs))
      with (do (sieve, done) <- crossOff3 fuel sieveSize s r0 r1 r2;
            do (sieve, primes') <- crossOffLoops fuel sieveSize sieve (r3 :: rs);
            Ok (sieve, done ++ primes')) in H.
    unbind H. destruct a as (s3 & done).
    apply lanes_of_crossOff3 in E.
    destruct E as (s1 & l0 & s2 & l1 & l2 & H0 & H1 & H2 & ->).
    unbind H. destruct a as (s' & rs'). injection H as <-.
    apply IH in E; [|simpl in *; lia].
    apply (crossOffRest_intro _ _ _ _ _ _ _ _ _ H0).
    apply (crossOffRest_intro _ _ _ _ _ _ _ _ _ H1).
    apply (crossOffRest_intro _ _ _ _ _ _ _ _ _ H2). exact E.
Qed.

End InterleaveFacts.

(** ** [EratMedium::crossOff] from one segment to the next *)

Module NextSegmentFacts.
Import Wheel Meaning Segment EratMedium.
Import WheelFacts WheelFacts2 SieveFacts MediumFacts EngineSpecs.

(** Among ten numbers in a row one is coprime to 210. *)
Lemma coprime210_before c :
  exists x, c - 10 <= x < c /\ coprimeb 210 x = true.
Proof.
  assert (C : forallb (fun r => existsb (fun d => coprimeb 210 (r - d))
                                  [1; 2; 3; 4; 5; 6; 7; 8; 9; 10])
                (map Z.of_nat (seq 0 210)) = true) by (vm_compute; reflexivity).
  pose proof (Z.mod_pos_bound c 210 ltac:(lia)) as B.
  pose proof (range_check _ _ C (c mod 210) ltac:(lia)) as C'. cbv beta in C'.
  apply existsb_exists in C'. destruct C' as (d & Hd & Ed).
  exists (c - d). split.
  - simpl in Hd. lia.
  - rewrite <- Ed. rewrite <- (coprimeb_add 210 (c mod 210 - d) (c / 210)).
    f_equal. pose proof (Z.div_mod c 210 ltac:(lia)). lia.
Qed.

Lemma Forall2_In_l {A B} (R : A -> B -> Prop) l l' x :
  Forall2 R l l' -> In x l -> exists y, In y l' /\ R x y.
Proof.
  induction 1 as [|a b l l' H F IH]; intros I; [destruct I|].
  destruct I as [->|I]; [exists b; split; [now left|exact H]|].
  destruct (IH I) as (y & Hy & Ry). exists y. split; [now right|exact Ry].
Qed.

Lemma Forall2_In_r {A B} (R : A -> B -> Prop) l l' y :
  Forall2 R l l' -> In y l' -> exists x, In x l /\ R x y.
Proof.
  induction 1 as [|a b l l' H F IH]; intros I; [destruct I|].
  destruct I as [->|I]; [exists a; split; [now left|exact H]|].
  destruct (IH I) as (x & Hx & Rx). exists x. split; [now right|exact Rx].
Qed.

(** In the next segment the records that have moved on cross off what the
    records they come from would. *)
Lemma crossed_moved low sieveSize gs gs' x :
  Forall (fun g => 0 < fst g) gs ->
  Forall2 (moved 210 low sieveSize) gs gs' ->
  30 * (low + sieveSize) <= x ->
  (crossed 210 gs' x <-> crossed 210 gs x).
Proof.
  intros P M Hx. split.
  - intros (g' & Hg' & c & Hc & Cc & ->).
    destruct (Forall2_In_r _ _ _ _ M Hg') as (g & Hg & (E & L & _)).
    exists g. split; [exact Hg|]. exists c. rewrite <- E. repeat split; try assumption; lia.
  - intros (g & Hg & c & Hc & Cc & ->).
    destruct (Forall2_In_l _ _ _ _ M Hg) as (g' & Hg' & (E & L & B & _)).
    exists g'. split; [exact Hg'|]. exists c. rewrite E.
    split; [|split; [exact Cc|reflexivity]].
    destruct (Z_lt_le_dec c (snd g')) as [Hlt|Hge]; [|exact Hge].
    specialize (B c ltac:(lia) Cc). lia.
Qed.

Lemma three_lists {A B C} (R : A -> B -> Prop) (R' : A -> C -> Prop)
    (Q : A -> Prop) (Q' : B -> Prop) (P : C -> Prop) :
  (forall a b c, R a b -> Q a -> Q' b -> R' a c -> P c) ->
  forall la lb lc,
  Forall2 R la lb -> Forall Q la -> Forall Q' lb -> Forall2 R' la lc -> Forall P lc.
Proof.
  intros H la lb lc F. revert lc.
  induction F as [|a b la lb Rab F IH]; intros lc FQ FQ' F';
    inversion F'; subst; constructor.
  - inversion FQ; inversion FQ'; subst. eauto.
  - inversion FQ; inversion FQ'; subst. now apply IH.
Qed.

(** One record: if its multiple index fitted 23 bits before the segment,
    it does after it. *)
Lemma written_back_23_bits low sieveSize g r r' :
  0 <= sieveSize <= 4096 * 1024 ->
  stored 210 low g r -> fst g <= sieveSize * 5 ->
  getMultipleIndex r < 2 ^ 23 ->
  written_back 210 low sieveSize g r' ->
  0 <= getMultipleIndex r' < 2 ^ 23.
Proof.
  intros Hs ((_ & Mi & _) & (_ & Pp) & Cc & _) Hp Hr
    (c' & ((L & _ & R) & X) & _ & Mi' & B & _).
  split; [lia|]. set (p := fst g) in *. set (c0 := snd g) in *.
  destruct (Z.eq_dec c' c0) as [->|Hne]; [rewrite Mi', <- Mi; lia|].
  assert (exists x, c0 <= x < c' /\ c' - x <= 10 /\ coprimeb 210 x = true)
    as (x & Hx & Hd & Cx).
  { destruct (coprime210_before c') as (x & Hx & Cx).
    destruct (Z_lt_le_dec x c0); [exists c0|exists x]; repeat split; try assumption; lia. }
  specialize (R x Hx Cx).
  assert (p * c' <= p * x + 10 * p) by nia.
  pose proof (Z.div_le_mono _ _ 30 ltac:(lia) H).
  pose proof (Z.div_mod (p * x) 30 ltac:(lia)).
  pose proof (Z.mod_pos_bound (p * x) 30 ltac:(lia)).
  pose proof (Z.div_mod (p * x + 10 * p) 30 ltac:(lia)).
  pose proof (Z.mod_pos_bound (p * x + 10 * p) 30 ltac:(lia)).
  rewrite Mi'. lia.
Qed.

End NextSegmentFacts.

(** ** The settings of api.cpp over any sequence of calls *)

Module SettingsFacts.
Import Pmath Api ApiCalls ApiFacts.

Lemma floorPow2_pow2 j : 0 <= j -> floorPow2 (2 ^ j) = 2 ^ j.
Proof.
  intros H. unfold floorPow2.
  pose proof (Z.pow_pos_nonneg 2 j ltac:(lia) H).
  destruct (Z.leb_spec (2 ^ j) 0); [lia|]. now rewrite Z.log2_pow2.
Qed.

Lemma pow2_range j : 0 <= j <= 11 -> 1 <= 2 ^ j <= 2048.
Proof.
  intros H. split.
  - pose proof (Z.pow_pos_nonneg 2 j ltac:(lia) ltac:(lia)). lia.
  - change 2048 with (2 ^ 11). apply Z.pow_le_mono_r; lia.
Qed.

(** The power of two below a number between [lo] and 2048. *)
Lemma floorPow2_between lo x j0 :
  0 <= j0 <= 11 -> lo = 2 ^ j0 -> lo <= x <= 2048 ->
  exists j, j0 <= j <= 11 /\ floorPow2 x = 2 ^ j /\ lo <= floorPow2 x <= x.
Proof.
  intros Hj -> Hx. pose proof (pow2_range j0 Hj).
  destruct (floorPow2_spec x ltac:(lia)) as (E & B).
  exists (Z.log2 x). split; [|split; [exact E|]].
  - split.
    + rewrite <- (Z.log2_pow2 j0) by lia. apply Z.log2_le_mono. lia.
    + change 11 with (Z.log2 2048). apply Z.log2_le_mono. lia.
  - split; [|lia]. rewrite E. apply Z.pow_le_mono_r; [lia|].
    rewrite <- (Z.log2_pow2 j0) by lia. apply Z.log2_le_mono. lia.
Qed.

(** What [get_sieve_size] returns when no size has been set. *)
Lemma default_size cpu g :
  plausible cpu -> sieve_size g = 0 ->
  exists j, 3 <= j <= 11 /\ get_sieve_size cpu g = 2 ^ j /\
    (privateL2 cpu = true ->
       5 <= j /\ get_sieve_size cpu g <= Z.max 32 (l2CacheSize cpu / 1024)) /\
    (privateL2 cpu = false -> 1024 <= l1CacheSize cpu ->
       get_sieve_size cpu g <= Z.max 8 (l1CacheSize cpu / 1024)) /\
    (privateL2 cpu = false -> l1CacheSize cpu < 1024 -> get_sieve_size cpu g = 32).
Proof.
  intros (P1 & P2 & P3) Hg. unfold get_sieve_size, privateL2. rewrite Hg.
  cbn [Z.eqb negb]. cbv zeta.
  destruct ((l2CacheSize cpu / 1024 >? l1CacheSize cpu / 1024)
            && (l2CacheSize cpu / 1024 >? 0) && (l3CacheSize cpu / 1024 >? 0)).
  - pose proof (inBetween_range 32 (l2CacheSize cpu / 1024) 2048 ltac:(lia)) as R.
    destruct (floorPow2_between 32 _ 5 ltac:(lia) eq_refl R) as (j & Hj & E & B).
    exists j. split; [lia|]. split; [exact E|].
    split; [|split; intros; discriminate].
    intros _. split; [lia|].
    unfold inBetween in *.
    destruct (Z.ltb_spec (l2CacheSize cpu / 1024) 32); [lia|].
    destruct (Z.gtb_spec (l2CacheSize cpu / 1024) 2048); lia.
  - destruct (Z.eqb_spec (l1CacheSize cpu / 1024) 0) as [Z0|NZ].
    + exists 5. split; [lia|]. split; [reflexivity|].
      split; [intros; discriminate|]. split; [|reflexivity].
      intros _ Hl. exfalso.
      pose proof (Z.div_le_mono 1024 (l1CacheSize cpu) 1024 ltac:(lia) Hl) as D.
      change (1024 / 1024) with 1 in D. lia.
    + pose proof (inBetween_range 8 (l1CacheSize cpu / 1024) 2048 ltac:(lia)) as R.
      destruct (floorPow2_between 8 _ 3 ltac:(lia) eq_refl R) as (j & Hj & E & B).
      exists j. split; [lia|]. split; [exact E|].
      split; [intros; discriminate|]. split.
      * intros _ _. unfold inBetween in *.
        destruct (Z.ltb_spec (l1CacheSize cpu / 1024) 8); [lia|].
        destruct (Z.gtb_spec (l1CacheSize cpu / 1024) 2048); lia.
      * intros _ Hl. exfalso. apply NZ. apply Z.div_small. lia.
Qed.

(** What the setters keep. *)
Lemma after_settled maxThreads calls :
  let g := after maxThreads calls in
  (sieve_size g = 0 \/ exists j, 0 <= j <= 11 /\ sieve_size g = 2 ^ j) /\
  (num_threads g = 0 \/ 1 <= num_threads g <= Z.max 1 maxThreads).
Proof.
  unfold after.
  assert (G : forall g,
    (sieve_size g = 0 \/ exists j, 0 <= j <= 11 /\ sieve_size g = 2 ^ j) /\
    (num_threads g = 0 \/ 1 <= num_threads g <= Z.max 1 maxThreads) ->
    (sieve_size (fold_left (call maxThreads) calls g) = 0 \/
     exists j, 0 <= j <= 11 /\ sieve_size (fold_left (call maxThreads) calls g) = 2 ^ j) /\
    (num_threads (fold_left (call maxThreads) calls g) = 0 \/
     1 <= num_threads (fold_left (call maxThreads) calls g) <= Z.max 1 maxThreads)).
  { induction calls as [|c calls IH]; intros g H; [exact H|].
    cbn [fold_left]. apply IH. destruct H as (H1 & H2). destruct c as [k|t]; cbn.
    - split; [|exact H2]. right.
      exists (Z.log2 (inBetween 1 k 2048)). split; [apply stored_log2|].
      pose proof (inBetween_range 1 k 2048 ltac:(lia)).
      now destruct (floorPow2_spec (inBetween 1 k 2048) ltac:(lia)).
    - split; [exact H1|]. right.
      unfold ParallelPrimeSieve.getMaxThreads. apply inBetween_range. lia. }
  apply G. cbn. tauto.
Qed.

Lemma get_sieve_size_pow2 maxThreads calls cpu :
  plausible cpu ->
  exists j, 0 <= j <= 11 /\
    get_sieve_size cpu (after maxThreads calls) = 2 ^ j.
Proof.
  intros P. destruct (after_settled maxThreads calls) as ([Z0|(j & Hj & E)] & _).
  - destruct (default_size cpu _ P Z0) as (j & Hj & E & _). exists j. split; [lia|exact E].
  - exists j. split; [exact Hj|]. unfold get_sieve_size. rewrite E.
    pose proof (pow2_range j Hj).
    destruct (Z.eqb_spec (2 ^ j) 0); [lia|reflexivity].
Qed.

End SettingsFacts.

(** ** Filling a vector with primes *)

Module VectorFacts.
Import Oracle StdVector PushBackPrimes2 Vectors.
Import SieveFacts PrimeFacts ParallelFacts ShapeFacts.

Section Vector.

Variable M : Memory.
Variable cast : Z -> Z.
Variable sieve : Z -> Z -> result (list Z).

(** *** [std::vector] *)

Lemma reserve_Ok n p p' :
  reserve M n p = Ok p' ->
  elems (fst p') = elems (fst p) /\ n <= capacity (fst p') /\ n <= max_size M.
Proof.
  destruct p as (v & h). unfold reserve.
  destruct (Z.gtb_spec n (max_size M)); [discriminate|].
  destruct (Z.leb_spec n (capacity v)).
  - intros E. injection E as <-. cbn. repeat split; lia.
  - destruct (alloc M n h); [|discriminate].
    intros E. injection E as <-. cbn. repeat split; lia.
Qed.

Lemma push_back_Ok x p p' :
  push_back M x p = Ok p' -> elems (fst p') = elems (fst p) ++ [x].
Proof.
  destruct p as (v & h). unfold push_back.
  destruct (size v <? capacity v); [intros E; now injection E as <-|].
  destruct (size v >=? max_size M); [discriminate|].
  destruct (alloc M _ h); [|discriminate].
  intros E. now injection E as <-.
Qed.

Lemma push_back_Err x p e :
  push_back M x p = Err e -> e = length_error \/ e = bad_alloc.
Proof.
  destruct p as (v & h). unfold push_back.
  destruct (size v <? capacity v); [discriminate|].
  destruct (size v >=? max_size M); [intros E; injection E as <-; now left|].
  destruct (alloc M _ h); [discriminate|].
  intros E. injection E as <-. now right.
Qed.

(** With room left nothing is allocated. *)
Lemma push_back_room x p :
  size (fst p) < capacity (fst p) -> push_back M x p = Ok (pushed M [x] p).
Proof.
  destruct p as (v & h). cbn [fst]. intros H. unfold push_back.
  destruct (Z.ltb_spec (size v) (capacity v)); [reflexivity|lia].
Qed.

(** When the allocator refuses nothing, only the size limit stops it. *)
Lemma push_back_granted x p :
  (forall n h, alloc M n h <> None) -> size (fst p) < max_size M ->
  exists p', push_back M x p = Ok p'.
Proof.
  destruct p as (v & h). cbn [fst]. intros G H. unfold push_back.
  destruct (size v <? capacity v); [eauto|].
  destruct (Z.geb_spec (size v) (max_size M)); [lia|].
  destruct (alloc M _ h) eqn:A; [eauto|]. now apply G in A.
Qed.

Lemma pushed_nil p : pushed M [] p = p.
Proof. destruct p as ([l c] & h). unfold pushed. cbn. now rewrite app_nil_r. Qed.

Lemma pushed_pushed a b p : pushed M b (pushed M a p) = pushed M (a ++ b) p.
Proof. unfold pushed. cbn. now rewrite <- app_assoc. Qed.

Lemma size_app l c a :
  size (mkVector (l ++ a) c) = size (mkVector l c) + Z.of_nat (length a).
Proof. unfold size. cbn. rewrite length_app. lia. Qed.

(** *** [PushBackPrimes1] *)

Lemma deliver_push calls : forall p p' e,
  deliver (PushBackPrimes1.callback M cast) calls p = (p', e) ->
  e = Returned ->
  elems (fst p') = elems (fst p) ++ map cast calls.
Proof.
  induction calls as [|c calls IH]; intros p p' e D R; cbn [deliver map] in *.
  - injection D as <- _. now rewrite app_nil_r.
  - unfold PushBackPrimes1.callback at 1 in D.
    destruct (push_back M (cast c) p) as [p1|e1] eqn:P.
    + rewrite (IH _ _ _ D R), (push_back_Ok _ _ _ P), <- app_assoc. reflexivity.
    + injection D as _ <-. discriminate.
Qed.

Lemma deliver_push_granted calls : forall p,
  (forall n h, alloc M n h <> None) ->
  size (fst p) + Z.of_nat (length calls) <= max_size M ->
  exists p', deliver (PushBackPrimes1.callback M cast) calls p = (p', Returned).
Proof.
  induction calls as [|c calls IH]; intros p G H; cbn [deliver length] in *.
  - eauto.
  - unfold PushBackPrimes1.callback at 1.
    destruct (push_back_granted (cast c) p G ltac:(lia)) as (p1 & P). rewrite P.
    apply IH; [exact G|].
    apply push_back_Ok in P. unfold size in *. rewrite P, length_app. cbn [length]. lia.
Qed.

(** *** [PushBackPrimes2]: the callback that counts down *)

(** Fewer primes than are still wanted: all are pushed. *)
Lemma deliver_all calls : forall st,
  Z.of_nat (length calls) < n_ M st < 2 ^ 64 -> roomy M st ->
  deliver (callback M cast) calls st
  = (mkState M (pushed M (map cast calls) (primes_ M st))
       (n_ M st - Z.of_nat (length calls)), Returned).
Proof.
  induction calls as [|p calls IH]; intros st H R; cbn [deliver map length].
  - rewrite pushed_nil, Z.sub_0_r. now destruct st.
  - cbn [length] in H. unfold roomy in R. unfold callback at 1.
    rewrite push_back_room by lia.
    rewrite wrap64_small by (unfold is_u64; lia). cbn [n_].
    destruct (Z.eqb_spec (n_ M st - 1) 0); [lia|].
    rewrite IH; cbn [n_ primes_].
    + rewrite pushed_pushed. cbn [app]. do 2 f_equal. lia.
    + lia.
    + unfold roomy, pushed. cbn [n_ primes_ fst capacity].
      destruct (primes_ M st) as ([l c] & h). cbn [fst elems capacity] in *.
      rewrite size_app. cbn [length]. lia.
Qed.

(** As many as are wanted, or more: the callback throws at the last one
    wanted. *)
Lemma deliver_stop calls : forall st,
  1 <= n_ M st <= Z.of_nat (length calls) -> n_ M st < 2 ^ 64 -> roomy M st ->
  deliver (callback M cast) calls st
  = (mkState M (pushed M (map cast (take (Z.to_nat (n_ M st)) calls)) (primes_ M st)) 0,
     Thrown stop_primesieve).
Proof.
  induction calls as [|p calls IH]; intros st H B R; cbn [length] in H; [lia|].
  cbn [deliver]. unfold roomy in R. unfold callback at 1.
  rewrite push_back_room by lia.
  rewrite wrap64_small by (unfold is_u64; lia). cbn [n_].
  replace (Z.to_nat (n_ M st)) with (S (Z.to_nat (n_ M st - 1))) by lia.
  cbn [take map n_].
  destruct (Z.eqb_spec (n_ M st - 1) 0) as [E|NE].
  - rewrite E. cbn [Z.to_nat take map]. reflexivity.
  - rewrite IH; cbn [n_ primes_].
    + now rewrite pushed_pushed.
    + lia.
    + lia.
    + unfold roomy, pushed. cbn [n_ primes_ fst capacity].
      destruct (primes_ M st) as ([l c] & h). cbn [fst elems capacity] in *.
      rewrite size_app. cbn [length]. lia.
Qed.

(** Whatever is delivered and whatever the allocator does, the counter
    goes down by what is pushed, and [stop_primesieve] is thrown exactly
    when it reaches 0. *)
Lemma deliver_count calls : forall st st' e,
  1 <= n_ M st < 2 ^ 64 ->
  deliver (callback M cast) calls st = (st', e) ->
  exists added,
    elems (fst (primes_ M st')) = elems (fst (primes_ M st)) ++ added /\
    (e = Returned -> n_ M st' = n_ M st - Z.of_nat (length added) /\ 1 <= n_ M st') /\
    (e = Thrown stop_primesieve ->
     n_ M st' = 0 /\ Z.of_nat (length added) = n_ M st).
Proof.
  induction calls as [|p calls IH]; intros st st' e H D; cbn [deliver] in D.
  - injection D as <- <-. exists []. rewrite app_nil_r. cbn.
    split; [reflexivity|]. split; [lia|discriminate].
  - unfold callback at 1 in D.
    destruct (push_back M (cast p) (primes_ M st)) as [p1|e1] eqn:P.
    + apply push_back_Ok in P.
      rewrite wrap64_small in D by (unfold is_u64; lia). cbn [n_] in D.
      destruct (Z.eqb_spec (n_ M st - 1) 0) as [E|NE].
      * injection D as <- <-. exists [cast p]. cbn [primes_ n_ length].
        split; [exact P|]. split; [discriminate|]. intros _. lia.
      * apply IH in D; [|cbn [n_]; lia]. destruct D as (added & D1 & D2 & D3).
        cbn [n_ primes_] in *. exists (cast p :: added).
        rewrite D1, P, <- app_assoc. split; [reflexivity|]. cbn [length].
        split; [intros R; specialize (D2 R)|intros R; specialize (D3 R)]; lia.
    + injection D as <- <-. exists []. rewrite app_nil_r.
      split; [reflexivity|]. split; [discriminate|].
      intros E. injection E as ->. apply push_back_Err in P.
      destruct P; discriminate.
Qed.

(** *** The loop of [generate_N_Primes], whatever the sieve delivers *)

Lemma loop_count fuel : forall start st st',
  0 <= n_ M st < 2 ^ 64 ->
  loop M cast sieve fuel start st = Ok st' ->
  exists added,
    elems (fst (primes_ M st')) = elems (fst (primes_ M st)) ++ added /\
    Z.of_nat (length added) = n_ M st /\ n_ M st' = 0.
Proof.
  induction fuel as [|fuel IH]; intros start st st' H L; cbn [loop] in L;
    destruct (Z.gtb_spec (n_ M st) 0) as [Hn|Hn]; try discriminate;
    try (injection L as <-; exists []; rewrite app_nil_r; cbn; repeat split; lia).
  unbind L.
  destruct (deliver (callback M cast) a st) as (st1 & e) eqn:D.
  apply deliver_count in D; [|lia]. destruct D as (added & D1 & D2 & D3).
  destruct e as [|e].
  - destruct (D2 eq_refl) as (D4 & D5).
    apply IH in L; [|lia]. destruct L as (added' & L1 & L2 & L3).
    exists (added ++ added'). rewrite L1, D1, <- app_assoc, length_app.
    repeat split; [lia|exact L3].
  - destruct e; try discriminate. injection L as <-.
    destruct (D3 eq_refl) as (D4 & D5).
    exists added. repeat split; [exact D1|exact D5|exact D4].
Qed.

(** *** The loop over a sieve that delivers the primes *)

Hypothesis sieve_delivers : sieve_ok sieve.

Lemma take_primes start stop q (n : nat) :
  (n <= length (primesBetween start stop))%nat ->
  (n <= length (primesBetween start q))%nat ->
  take n (primesBetween start stop) = take n (primesBetween start q).
Proof.
  intros H1 H2. destruct (Z_le_gt_dec stop q).
  - rewrite (primesBetween_split start q (stop + 1)).
    replace (Z.min q (stop + 1 - 1)) with stop by lia.
    now rewrite take_app_le.
  - rewrite (primesBetween_split start stop (q + 1)).
    replace (Z.min stop (q + 1 - 1)) with q by lia.
    now rewrite take_app_le.
Qed.

(** With room for the primes still to come, the loop pushes them and
    allocates nothing. *)
Lemma loop_spec q fuel : forall start st,
  0 <= start -> 0 <= n_ M st <= countBetween start q ->
  q + 50 * n_ M st + 10000 < 2 ^ 64 ->
  q - start < 10001 * Z.of_nat fuel ->
  roomy M st ->
  loop M cast sieve fuel start st
  = Ok (mkState M
          (pushed M (map cast (take (Z.to_nat (n_ M st)) (primesBetween start q)))
             (primes_ M st))
          0).
Proof.
  induction fuel as [|fuel IH]; intros start st Hs Hn Hq Hf R.
  - assert (n_ M st = 0) as E.
    { destruct (Z_le_gt_dec start q); [lia|].
      rewrite countBetween_empty in Hn by lia. lia. }
    cbn [loop]. rewrite E. cbn. rewrite pushed_nil. destruct st; cbn in *. now subst.
  - cbn [loop]. destruct (Z.gtb_spec (n_ M st) 0) as [Hpos|Hz].
    2:{ assert (n_ M st = 0) as E by lia. rewrite E. cbn. rewrite pushed_nil.
        destruct st; cbn in *. now subst. }
    assert (start <= q).
    { destruct (Z_le_gt_dec start q); [assumption|].
      rewrite countBetween_empty in Hn by lia. lia. }
    rewrite (wrap64_small (n_ M st * 50)) by (unfold is_u64; lia).
    rewrite (wrap64_small (start + n_ M st * 50)) by (unfold is_u64; lia).
    rewrite (wrap64_small (start + n_ M st * 50 + 10000)) by (unfold is_u64; lia).
    set (stop := start + n_ M st * 50 + 10000).
    rewrite (sieve_delivers start stop) by (unfold stop; lia). cbn [bind].
    destruct (Z_le_gt_dec (n_ M st) (countBetween start stop)) as [Hle|Hgt].
    + rewrite deliver_stop by (try exact R; unfold countBetween in Hle; lia).
      do 4 f_equal. apply take_primes; unfold countBetween in *; lia.
    + rewrite deliver_all by (try exact R; unfold countBetween in Hgt; lia).
      assert (stop < q).
      { destruct (Z_lt_le_dec stop q); [assumption|].
        pose proof (countBetween_mono start q stop ltac:(lia)). lia. }
      rewrite (wrap64_small (stop + 1)) by (unfold is_u64; lia).
      pose proof (countBetween_split start q (stop + 1)) as Sp.
      replace (Z.min q (stop + 1 - 1)) with stop in Sp by lia.
      replace (Z.max start (stop + 1)) with (stop + 1) in Sp by lia.
      rewrite IH; cbn [n_ primes_].
      2:{ lia. }
      2:{ unfold countBetween in *. lia. }
      2:{ unfold countBetween in *. lia. }
      2:{ unfold stop. lia. }
      2:{ unfold roomy in *. unfold pushed. cbn [n_ primes_ fst capacity].
          destruct (primes_ M st) as ([l c] & h). cbn [fst elems capacity] in *.
          rewrite size_app, length_map. unfold countBetween in *. lia. }
      fold (countBetween start stop).
      rewrite pushed_pushed, <- map_app. do 4 f_equal.
      rewrite (primesBetween_split start q (stop + 1)).
      replace (Z.min q (stop + 1 - 1)) with stop by lia.
      replace (Z.max start (stop + 1)) with (stop + 1) by lia.
      replace (Z.to_nat (n_ M st))
        with (length (primesBetween start stop)
              + Z.to_nat (n_ M st - countBetween start stop))%nat
        by (unfold countBetween in *; lia).
      now rewrite take_app_add.
Qed.

End Vector.

End VectorFacts.

(** ** The order of the records *)

Module OrderFacts.
Import Wheel EratMedium Shape ShapeFacts InterleaveFacts.

(** The loops of two lanes can be swapped. *)
Lemma run_run_swap sieveSize s1 b m s2 b' :
  run sieveSize s1 b m s2 b' ->
  forall s a n a', run sieveSize s a n s1 a' ->
  exists t, run sieveSize s b m t b' /\ run sieveSize t a n s2 a'.
Proof.
  induction 1 as [s1 b Hge|s1 b sb b1 m s2 b' Hlt E R IH]; intros s a n a' Ra.
  - exists s. split; [now constructor|exact Ra].
  - destruct (run_then_step _ _ _ _ _ _ Ra _ _ _ E) as (t0 & E0 & Ra0).
    destruct (IH _ _ _ _ Ra0) as (t & Rb & Ra1).
    exists t. split; [|exact Ra1]. now apply run_step with t0 b1.
Qed.

Lemma lane_lane_swap fuel sieveSize s p s1 lp q s2 lq :
  lane fuel sieveSize s p = Ok (s1, lp) ->
  lane fuel sieveSize s1 q = Ok (s2, lq) ->
  exists t, lane fuel sieveSize s q = Ok (t, lq) /\ lane fuel sieveSize t p = Ok (s2, lp).
Proof.
  intros Hp Hq. apply lane_run in Hp, Hq.
  destruct Hp as (n & Hn & Rp), Hq as (m & Hm & Rq).
  destruct (run_run_swap _ _ _ _ _ _ Rq _ _ _ _ Rp) as (t & Rq' & Rp').
  exists t. split; [now apply (run_lane _ _ _ _ _ _ Rq')|now apply (run_lane _ _ _ _ _ _ Rp')].
Qed.

(** Crossing off one record at a time, in any order. *)
Lemma crossOffRest_permutation fuel sieveSize rs rs2 :
  Permutation rs rs2 ->
  forall s s' rs',
  crossOffRest fuel sieveSize s rs = Ok (s', rs') ->
  exists rs2',
    crossOffRest fuel sieveSize s rs2 = Ok (s', rs2') /\ Permutation rs' rs2'.
Proof.
  induction 1 as [|x l l2 P IH|x y l|l l2 l3 P1 IH1 P2 IH2]; intros s s' rs' H.
  - exists rs'. split; [exact H|reflexivity].
  - apply crossOffRest_cons in H. destruct H as (s1 & lx & rs1 & H0 & H & ->).
    destruct (IH _ _ _ H) as (rs2' & H2 & P').
    exists (store sieveSize lx x :: rs2'). split; [now apply crossOffRest_intro with s1|].
    now constructor.
  - apply crossOffRest_cons in H. destruct H as (s1 & ly & rs1 & Hy & H & ->).
    apply crossOffRest_cons in H. destruct H as (s2 & lx & rs2 & Hx & H & ->).
    destruct (lane_lane_swap _ _ _ _ _ _ _ _ _ Hy Hx) as (t & Hx' & Hy').
    exists (store sieveSize lx x :: store sieveSize ly y :: rs2). split.
    + apply crossOffRest_intro with t; [exact Hx'|].
      now apply crossOffRest_intro with s2.
    + apply perm_swap.
  - destruct (IH1 _ _ _ H) as (rs2' & H2 & P2').
    destruct (IH2 _ _ _ H2) as (rs3' & H3 & P3').
    exists rs3'. split; [exact H3|]. now transitivity rs2'.
Qed.

Lemma crossOffLoops_permutation fuel sieveSize rs rs2 s s' rs' :
  Permutation rs rs2 ->
  crossOffLoops fuel sieveSize s rs = Ok (s', rs') ->
  exists rs2',
    crossOffLoops (fuel + fuel) sieveSize s rs2 = Ok (s', rs2') /\
    Permutation rs' rs2'.
Proof.
  intros P H.
  apply (rest_of_loops fuel sieveSize (length rs)) in H; [|lia].
  destruct (crossOffRest_permutation _ _ _ _ P _ _ _ H) as (rs2' & H2 & P').
  exists rs2'. split; [|exact P'].
  now apply (loops_of_rest (fuel + fuel) sieveSize (length rs2)).
Qed.

(** The first record inside the segment but beyond the buffer. *)
Lemma crossOffLoops_short_buffer fuel sieveSize s r rs :
  Z.of_nat (length s) <= getMultipleIndex r < sieveSize ->
  0 <= getWheelIndex r < 384 ->
  crossOffLoops (S fuel) sieveSize s (r :: rs) = Err SieveOutOfBounds.
Proof.
  intros Hm Hw.
  assert (St : step s (load r) = Err SieveOutOfBounds).
  { unfold step, Wheel.step, unsetBit, load. cbn [sievingPrime multipleIndex wheelIndex].
    destruct (SafetyFacts.wheel210_safe _ Hw) as (w & Ew & _). rewrite Ew.
    cbn [of_option bind].
    rewrite (lookup_ge_None_2 s (Z.to_nat (getMultipleIndex r))) by lia.
    reflexivity. }
  assert (L : lane (S fuel) sieveSize s (load r) = Err SieveOutOfBounds).
  { unfold lane. cbn [Wheel.lane].
    destruct (Z.ltb_spec (multipleIndex (load r)) sieveSize) as [_|G]; [|cbn in G; lia].
    change (Wheel.step wheel210 s (load r)) with (step s (load r)). now rewrite St. }
  destruct rs as [|r1 [|r2 [|r3 rs]]];
    try (cbn [crossOffLoops crossOffRest]; unfold crossOff1; now rewrite L).
  change (crossOffLoops (S fuel) sieveSize s (r :: r1 :: r2 :: r3 :: rs))
    with (do (sieve, done) <- crossOff3 (S fuel) sieveSize s r r1 r2;
          do (sieve, primes') <- crossOffLoops (S fuel) sieveSize sieve (r3 :: rs);
          Ok (sieve, done ++ primes')).
  unfold crossOff3. cbn [lanes3].
  destruct (Z.ltb_spec (multipleIndex (load r)) sieveSize) as [_|G]; [|cbn in G; lia].
  now rewrite St.
Qed.

End OrderFacts.

(** ** Laws of [EratMedium] *)

Module CrossOffLaws.
Import Wheel Meaning Segment EratMedium Shape.
Import SieveFacts MediumFacts EngineSpecs CrossOffFacts.
Import ShapeFacts SafetyFacts InterleaveFacts NextSegmentFacts.

(** X1: a call of [crossOff] that returns leaves the buffer with its
    length, and the engine with the same number of records, each with the
    scaled prime it had, in the same order, and with the same [stop],
    [sieveSize] and [maxPrime]: only multiple and wheel indices change. *)
Theorem crossOff_keeps_records (fuel : nat) (sieve : Sieve) (sieveSize : Z)
    (e : EratMedium) (sieve' : Sieve) (e' : EratMedium) :
  crossOff fuel sieve sieveSize e = Ok (sieve', e') ->
  length sieve' = length sieve /\
  length (primes_ e') = length (primes_ e) /\
  map getSievingPrime (primes_ e') = map getSievingPrime (primes_ e) /\
  stop_ e' = stop_ e /\ sieveSize_ e' = sieveSize_ e /\ maxPrime_ e' = maxPrime_ e.
Proof.
  intros H. apply crossOff_keeps in H. destruct H as (H1 & H2 & H3).
  split; [now apply only_cleared_length|]. split; [|tauto].
  rewrite <- (length_map getSievingPrime (primes_ e')), H2. apply length_map.
Qed.

Lemma crossOff_keeps_records_witness :
  exists sieve' e',
    crossOff 64 plain_sieve 64 plain_engine = Ok (sieve', e') /\
    length sieve' = length plain_sieve /\
    length (primes_ e') = length (primes_ plain_engine) /\
    map getSievingPrime (primes_ e') = map getSievingPrime (primes_ plain_engine) /\
    stop_ e' = stop_ plain_engine /\ sieveSize_ e' = sieveSize_ plain_engine /\
    maxPrime_ e' = maxPrime_ plain_engine.
Proof.
  eexists. eexists. split; [vm_compute; reflexivity|].
  apply (crossOff_keeps_records 64 plain_sieve 64 plain_engine).
  vm_compute. reflexivity.
Defined.

(** X2: [crossOff] only clears bits: in a call that returns, every bit
    that is set in a byte of the buffer afterwards was set in that byte
    before. *)
Theorem crossOff_sets_no_bit (fuel : nat) (sieve : Sieve) (sieveSize : Z)
    (e : EratMedium) (sieve' : Sieve) (e' : EratMedium) :
  crossOff fuel sieve sieveSize e = Ok (sieve', e') ->
  forall (k : nat) (byte' : Z), sieve' !! k = Some byte' ->
  exists byte, sieve !! k = Some byte /\
    Z.land byte' byte = byte' /\
    forall i, Z.testbit byte' i = true -> Z.testbit byte i = true.
Proof.
  intros H k byte' Hk. apply crossOff_keeps in H. destruct H as (H & _).
  destruct (Forall2_lookup_r _ _ _ _ _ H Hk) as (byte & Hb & L).
  exists byte. split; [exact Hb|]. split; [exact L|].
  intros i Hi. rewrite <- L in Hi.
  destruct (Z_lt_le_dec i 0) as [Neg|Pos].
  - now rewrite Z.testbit_neg_r in Hi by exact Neg.
  - rewrite Z.land_spec in Hi. now apply andb_true_iff in Hi.
Qed.

Lemma crossOff_sets_no_bit_witness :
  exists sieve' e',
    crossOff 64 plain_sieve 64 plain_engine = Ok (sieve', e') /\
    forall (k : nat) (byte' : Z), sieve' !! k = Some byte' ->
    exists byte, plain_sieve !! k = Some byte /\
      Z.land byte' byte = byte' /\
      forall i, Z.testbit byte' i = true -> Z.testbit byte i = true.
Proof.
  eexists. eexists. split; [vm_compute; reflexivity|].
  eapply (crossOff_sets_no_bit 64 plain_sieve 64 plain_engine).
  vm_compute. reflexivity.
Defined.

(** X3: when every record of a non-empty engine has its next multiple at
    or beyond [sieveSize], [crossOff] returns for any fuel and any buffer,
    leaves the buffer as it is, and only subtracts [sieveSize] from every
    multiple index; neither the buffer nor the wheel table is read. *)
Theorem crossOff_skips_idle_records (fuel : nat) (sieve : Sieve) (sieveSize : Z)
    (e : EratMedium) :
  0 <= sieveSize -> primes_ e <> [] ->
  Forall (fun r => sieveSize <= getMultipleIndex r < 2 ^ 64) (primes_ e) ->
  crossOff fuel sieve sieveSize e
  = Ok (sieve, mkEratMedium (stop_ e) (sieveSize_ e) (maxPrime_ e)
                 (map (skip sieveSize) (primes_ e))).
Proof.
  intros H0 NE F. unfold crossOff.
  destruct (primes_ e) as [|r rs] eqn:Ep; [congruence|].
  change ((r :: rs) !! 0%nat) with (Some r). cbn [of_option bind].
  destruct (last (r :: rs)) as [x|] eqn:El; [|apply last_None in El; discriminate].
  cbn [of_option bind].
  rewrite (crossOffLoops_idle fuel sieveSize sieve (length (r :: rs))) by (try lia; assumption).
  reflexivity.
Qed.

Lemma crossOff_skips_idle_records_witness :
  crossOff 0 [] 64 idle_engine
  = Ok ([], mkEratMedium 1919 64 320
              (map (skip 64) (primes_ idle_engine))).
Proof.
  apply (crossOff_skips_idle_records 0 [] 64 idle_engine).
  - lia.
  - discriminate.
  - unfold idle_engine. cbn [primes_ getMultipleIndex].
    repeat (constructor; [cbn; lia|]). constructor.
Defined.

(** X4: the loop that interleaves three records is an optimisation only:
    whenever crossing the records off one at a time (the second loop of
    [crossOff] alone) returns, the interleaved loops return the same
    buffer and the same records with the same fuel, and no amount of fuel
    makes them return anything else. *)
Theorem crossOffLoops_interleaving (fuel : nat) (sieveSize : Z) (sieve : Sieve)
    (primes : list SievingPrime) (r : Sieve * list SievingPrime) :
  crossOffRest fuel sieveSize sieve primes = Ok r ->
  crossOffLoops fuel sieveSize sieve primes = Ok r /\
  forall fuel' r', crossOffLoops fuel' sieveSize sieve primes = Ok r' -> r' = r.
Proof.
  intros H. split; [now apply (loops_of_rest fuel sieveSize (length primes))|].
  intros fuel' r' H'.
  apply (rest_of_loops fuel' sieveSize (length primes)) in H'; [|lia].
  apply (crossOffRest_more_fuel _ (fuel + (fuel' + fuel'))) in H; [|lia].
  apply (crossOffRest_more_fuel _ (fuel + (fuel' + fuel'))) in H'; [|lia].
  congruence.
Qed.

Lemma crossOffLoops_interleaving_witness :
  exists r,
    crossOffRest 64 64 plain_sieve (primes_ plain_engine) = Ok r /\
    crossOffLoops 64 64 plain_sieve (primes_ plain_engine) = Ok r /\
    forall fuel' r',
      crossOffLoops fuel' 64 plain_sieve (primes_ plain_engine) = Ok r' -> r' = r.
Proof.
  eexists. split; [vm_compute; reflexivity|].
  apply (crossOffLoops_interleaving 64 64 plain_sieve (primes_ plain_engine)).
  vm_compute. reflexivity.
Defined.

(** X5: the multiple index stays below 2^23, which is what the two checks
    of the constructor are for: with [sieveSize <= 4096 * 1024] and every
    prime at most [maxPrime <= sieveSize * 5], if the multiple indices of
    the records are below 2^23 before [crossOff], they are after it. *)
Theorem crossOff_multipleIndex_23_bits (fuel : nat) (low sieveSize : Z)
    (gs : list (Z * Z)) (e : EratMedium) (sieve : Sieve) :
  0 <= sieveSize <= 4096 * 1024 -> maxPrime_ e <= sieveSize * 5 ->
  Forall2 (stored 210 low) gs (primes_ e) -> primes_ e <> [] ->
  Forall (fun g => fst g <= maxPrime_ e) gs ->
  Forall (fun r => getMultipleIndex r < 2 ^ 23) (primes_ e) ->
  length sieve = Z.to_nat sieveSize ->
  30 * sieveSize <= Z.of_nat fuel ->
  exists sieve' e',
    crossOff fuel sieve sieveSize e = Ok (sieve', e') /\
    Forall (fun r => 0 <= getMultipleIndex r < 2 ^ 23) (primes_ e').
Proof.
  intros Hs Hm F NE Fp Fr Hlen Hfuel.
  destruct (crossOff_spec low sieveSize ltac:(lia) fuel gs e sieve F NE Hlen Hfuel)
    as (sieve' & e' & gs' & E & _ & _ & _ & St & A & _).
  exists sieve', e'. split; [exact E|].
  pose proof (Forall2_written_back low sieveSize gs gs' _ A St) as W.
  refine (three_lists _ _ _ _ _ _ _ _ _ F Fp Fr W).
  intros g r r' Sg Pg Rr Wb. cbv beta in *.
  apply (written_back_23_bits low sieveSize g r r'); try assumption; lia.
Qed.

Lemma crossOff_multipleIndex_23_bits_witness :
  exists sieve' e',
    crossOff (Z.to_nat 15360) demo_sieve 512 demo_engine = Ok (sieve', e') /\
    Forall (fun r => 0 <= getMultipleIndex r < 2 ^ 23) (primes_ e').
Proof.
  apply (crossOff_multipleIndex_23_bits (Z.to_nat 15360) 0 512 demo_ghosts
           demo_engine demo_sieve).
  - lia.
  - cbn. lia.
  - exact demo_stored.
  - discriminate.
  - unfold demo_ghosts, demo_engine. cbn [maxPrime_ fst].
    repeat (constructor; [cbn; lia|]). constructor.
  - unfold demo_engine, demo_ghosts. cbn [primes_ map].
    repeat (constructor; [vm_compute; reflexivity|]). constructor.
  - reflexivity.
  - exact demo_fuel.
Defined.

(** X6: [crossOff] leaves the engine ready for the next segment: after a
    call on the segment at [30 * low], a second call on the segment that
    follows returns as well, and each call clears in its own buffer exactly
    the bits of the multiples that the records stood for at the start. *)
Theorem crossOff_next_segment (fuel : nat) (low sieveSize : Z)
    (gs : list (Z * Z)) (e : EratMedium) (sieve1 sieve2 : Sieve) :
  0 < sieveSize <= 2 ^ 32 ->
  Forall2 (stored 210 low) gs (primes_ e) -> primes_ e <> [] ->
  length sieve1 = Z.to_nat sieveSize -> length sieve2 = Z.to_nat sieveSize ->
  30 * sieveSize <= Z.of_nat fuel ->
  exists sieve1' e1 sieve2' e2,
    crossOff fuel sieve1 sieveSize e = Ok (sieve1', e1) /\
    crossOff fuel sieve2 sieveSize e1 = Ok (sieve2', e2) /\
    cleared low (crossed 210 gs) sieve1 sieve1' /\
    cleared (low + sieveSize) (crossed 210 gs) sieve2 sieve2'.
Proof.
  intros Hs F NE Hl1 Hl2 Hfuel.
  destruct (crossOff_spec low sieveSize ltac:(lia) fuel gs e sieve1 F NE Hl1 Hfuel)
    as (sieve1' & e1 & gs' & E1 & _ & _ & _ & St & A & C1).
  assert (NE1 : primes_ e1 <> []).
  { intros Z0. rewrite Z0 in St. inversion St; subst.
    inversion A; subst. inversion F as [|]; subst; congruence. }
  destruct (crossOff_spec (low + sieveSize) sieveSize ltac:(lia) fuel gs' e1 sieve2
              St NE1 Hl2 Hfuel)
    as (sieve2' & e2 & gs'' & E2 & _ & _ & _ & _ & _ & C2).
  exists sieve1', e1, sieve2', e2.
  split; [exact E1|]. split; [exact E2|]. split; [exact C1|].
  pose proof (stored_pos _ _ _ _ F) as P.
  pose proof (Forall2_advanced_moved low sieveSize gs gs' P A) as M.
  eapply cleared_ext; [|exact C2]. intros k b Hk Hb. cbv beta.
  apply (crossed_moved low sieveSize gs gs'); try assumption.
  pose proof (number_in_segment (low + sieveSize) sieveSize Hs k b ltac:(lia) Hb). lia.
Qed.

Lemma crossOff_next_segment_witness :
  exists sieve1' e1 sieve2' e2,
    crossOff (Z.to_nat 15360) demo_sieve 512 demo_engine = Ok (sieve1', e1) /\
    crossOff (Z.to_nat 15360) demo_sieve 512 e1 = Ok (sieve2', e2) /\
    cleared 0 (crossed 210 demo_ghosts) demo_sieve sieve1' /\
    cleared (0 + 512) (crossed 210 demo_ghosts) demo_sieve sieve2'.
Proof.
  apply (crossOff_next_segment (Z.to_nat 15360) 0 512 demo_ghosts demo_engine
           demo_sieve demo_sieve).
  - lia.
  - exact demo_stored.
  - discriminate.
  - reflexivity.
  - reflexivity.
  - exact demo_fuel.
Defined.

(** X8: [crossOff] is safe on every record that fits the packed fields,
    whether or not the record stands for a multiple of its prime.  Take a
    segment of at most 4096 KiB, records with scaled primes from 1 on of
    primes up to [sieveSize * 5] (what the constructor lets in), multiple
    indices below 2^23 and wheel indices inside the table, a buffer of at
    least [sieveSize] bytes and fuel for [sieveSize] steps.  Then the call
    returns (no access outside the buffer or the table, no wrap-around,
    every loop ends), the buffer keeps its length, and the records fit the
    fields again: every multiple index written back is below 2^23. *)
Theorem crossOff_well_formed (fuel : nat) (sieve : Sieve) (sieveSize : Z)
    (e : EratMedium) :
  0 <= sieveSize <= 4096 * 1024 -> sieveSize <= Z.of_nat (length sieve) ->
  sieveSize <= Z.of_nat fuel ->
  primes_ e <> [] -> Forall (well_formed sieveSize) (primes_ e) ->
  exists sieve' e',
    crossOff fuel sieve sieveSize e = Ok (sieve', e') /\
    length sieve' = length sieve /\
    Forall (well_formed sieveSize) (primes_ e').
Proof.
  intros Hs Hlen Hfuel NE F.
  destruct (crossOffLoops_safe fuel sieveSize Hs Hfuel (length (primes_ e))
              (primes_ e) sieve ltac:(lia) Hlen F) as (sieve' & rs' & E & L & F').
  exists sieve', (mkEratMedium (stop_ e) (sieveSize_ e) (maxPrime_ e) rs').
  split; [|split; assumption].
  unfold crossOff. destruct (primes_ e) as [|r rs] eqn:Ep; [congruence|].
  change ((r :: rs) !! 0%nat) with (Some r). cbn [of_option bind].
  destruct (last (r :: rs)) as [x|] eqn:El; [|apply last_None in El; discriminate].
  cbn [of_option bind]. rewrite E. reflexivity.
Qed.

Lemma crossOff_well_formed_witness :
  exists sieve' e',
    crossOff 64 plain_sieve 64 plain_engine = Ok (sieve', e') /\
    length sieve' = length plain_sieve /\
    Forall (well_formed 64) (primes_ e').
Proof.
  apply (crossOff_well_formed 64 plain_sieve 64 plain_engine).
  - lia.
  - cbn. lia.
  - lia.
  - discriminate.
  - unfold plain_engine, well_formed. cbn [primes_].
    repeat (apply List.Forall_cons;
            [cbn [getSievingPrime getMultipleIndex getWheelIndex]; lia|]).
    apply List.Forall_nil.
Defined.

(** X15: the order in which the sieving primes were stored does not
    matter: if [crossOff] returns on an engine, it returns (with twice the
    fuel at most) on an engine that holds the same records in another
    order, with the same buffer and the same records in that order. *)
Theorem crossOff_order_of_records (fuel : nat) (sieve : Sieve) (sieveSize : Z)
    (e e2 : EratMedium) (sieve' : Sieve) (e' : EratMedium) :
  Permutation (primes_ e) (primes_ e2) ->
  crossOff fuel sieve sieveSize e = Ok (sieve', e') ->
  exists e2',
    crossOff (fuel + fuel) sieve sieveSize e2 = Ok (sieve', e2') /\
    Permutation (primes_ e') (primes_ e2').
Proof.
  intros P H. unfold crossOff in H. unbind H. unbind H. unbind H.
  destruct a1 as (s & rs'). injection H as <- <-.
  destruct (OrderFacts.crossOffLoops_permutation _ _ _ _ _ _ _ P E1) as (rs2' & H2 & P').
  exists (mkEratMedium (stop_ e2) (sieveSize_ e2) (maxPrime_ e2) rs2').
  split; [|exact P']. unfold crossOff.
  destruct (primes_ e2) as [|r2 rs2] eqn:E2.
  { apply Permutation_nil_r in P. rewrite P in E. discriminate. }
  change ((r2 :: rs2) !! 0%nat) with (Some r2). cbn [of_option bind].
  destruct (last (r2 :: rs2)) as [x|] eqn:El; [|apply last_None in El; discriminate].
  cbn [of_option bind]. rewrite H2. reflexivity.
Qed.

Lemma crossOff_order_of_records_witness :
  exists sieve' e',
    crossOff 64 plain_sieve 64 plain_engine = Ok (sieve', e') /\
    exists e2',
      crossOff (64 + 64) plain_sieve 64 shuffled_engine = Ok (sieve', e2') /\
      Permutation (primes_ e') (primes_ e2').
Proof.
  eexists. eexists. split; [vm_compute; reflexivity|].
  eapply (crossOff_order_of_records 64 plain_sieve 64 plain_engine shuffled_engine).
  - unfold shuffled_engine. cbn [primes_]. apply Permutation_rev.
  - vm_compute. reflexivity.
Defined.

(** X16: the buffer must hold [sieveSize] bytes: when the first record of
    the engine has its next multiple inside the segment but beyond the end
    of the buffer, the first [unsetBit] of [crossOff] is an access outside
    the buffer. *)
Theorem crossOff_short_buffer (fuel : nat) (sieve : Sieve) (sieveSize : Z)
    (e : EratMedium) (r : SievingPrime) (rs : list SievingPrime) :
  primes_ e = r :: rs ->
  Z.of_nat (length sieve) <= getMultipleIndex r < sieveSize ->
  0 <= getWheelIndex r < 384 ->
  crossOff (S fuel) sieve sieveSize e = Err SieveOutOfBounds.
Proof.
  intros Ep Hm Hw. unfold crossOff. rewrite Ep.
  change ((r :: rs) !! 0%nat) with (Some r). cbn [of_option bind].
  destruct (last (r :: rs)) as [x|] eqn:El; [|apply last_None in El; discriminate].
  cbn [of_option bind].
  now rewrite OrderFacts.crossOffLoops_short_buffer.
Qed.

Lemma crossOff_short_buffer_witness :
  crossOff 1 [] 64 plain_engine = Err SieveOutOfBounds.
Proof.
  apply (crossOff_short_buffer 0 [] 64 plain_engine
           (mkSievingPrime 1 0 0)
           [mkSievingPrime 2 5 100; mkSievingPrime 3 70 383; mkSievingPrime 7 13 48]).
  - reflexivity.
  - cbn. lia.
  - cbn. lia.
Defined.

End CrossOffLaws.

(** ** Laws of the settings of api.cpp *)

Module SettingsLaws.
Import Pmath Api ApiCalls ApiFacts SettingsFacts.

(** X9: as long as no sieve size has been set, [get_sieve_size] returns a
    power of two between 8 and 2048 kilobytes, read off the caches: with a
    private L2 cache at least 32 and at most the L2 size (or 32), otherwise
    at most the L1 size (or 8), and 32 when the L1 size is not detected. *)
Theorem get_sieve_size_default (cpuInfo : CpuInfo) (g : Globals) :
  plausible cpuInfo -> sieve_size g = 0 ->
  exists j, 3 <= j <= 11 /\ get_sieve_size cpuInfo g = 2 ^ j /\
    8 <= get_sieve_size cpuInfo g <= 2048 /\
    (privateL2 cpuInfo = true ->
       32 <= get_sieve_size cpuInfo g <= Z.max 32 (l2CacheSize cpuInfo / 1024)) /\
    (privateL2 cpuInfo = false -> 1024 <= l1CacheSize cpuInfo ->
       get_sieve_size cpuInfo g <= Z.max 8 (l1CacheSize cpuInfo / 1024)) /\
    (privateL2 cpuInfo = false -> l1CacheSize cpuInfo < 1024 ->
       get_sieve_size cpuInfo g = 32).
Proof.
  intros P Hg. destruct (default_size cpuInfo g P Hg) as (j & Hj & E & H1 & H2 & H3).
  exists j. split; [exact Hj|]. split; [exact E|].
  assert (B : 2 ^ 3 <= 2 ^ j <= 2 ^ 11)
    by (split; apply Z.pow_le_mono_r; lia).
  split; [rewrite E; lia|]. split; [|tauto].
  intros L2. destruct (H1 L2) as (J & U). split; [|exact U].
  rewrite E. change 32 with (2 ^ 5). apply Z.pow_le_mono_r; lia.
Qed.

Lemma get_sieve_size_default_witness :
  exists j, 3 <= j <= 11 /\
    get_sieve_size (mkCpuInfo 49152 1310720 8388608) initial = 2 ^ j /\
    8 <= get_sieve_size (mkCpuInfo 49152 1310720 8388608) initial <= 2048 /\
    (privateL2 (mkCpuInfo 49152 1310720 8388608) = true ->
       32 <= get_sieve_size (mkCpuInfo 49152 1310720 8388608) initial
          <= Z.max 32 (l2CacheSize (mkCpuInfo 49152 1310720 8388608) / 1024)) /\
    (privateL2 (mkCpuInfo 49152 1310720 8388608) = false ->
     1024 <= l1CacheSize (mkCpuInfo 49152 1310720 8388608) ->
       get_sieve_size (mkCpuInfo 49152 1310720 8388608) initial
       <= Z.max 8 (l1CacheSize (mkCpuInfo 49152 1310720 8388608) / 1024)) /\
    (privateL2 (mkCpuInfo 49152 1310720 8388608) = false ->
     l1CacheSize (mkCpuInfo 49152 1310720 8388608) < 1024 ->
       get_sieve_size (mkCpuInfo 49152 1310720 8388608) initial = 32).
Proof.
  apply (get_sieve_size_default (mkCpuInfo 49152 1310720 8388608) initial).
  - unfold plausible. cbn. lia.
  - reflexivity.
Defined.

(** X10: setting the sieve size to what [get_sieve_size] returns changes
    nothing for the caller and fixes it: after any sequence of calls of
    the two setters, [set_sieve_size(get_sieve_size())] makes
    [get_sieve_size] return the value it returned before, from then on
    whatever the caches report. *)
Theorem set_sieve_size_of_get (maxThreads : Z) (calls : list Call)
    (cpuInfo cpuInfo' : CpuInfo) :
  plausible cpuInfo ->
  get_sieve_size cpuInfo'
    (set_sieve_size (get_sieve_size cpuInfo (after maxThreads calls))
       (after maxThreads calls))
  = get_sieve_size cpuInfo (after maxThreads calls).
Proof.
  intros P. destruct (get_sieve_size_pow2 maxThreads calls cpuInfo P) as (j & Hj & E).
  rewrite get_after_set, E. pose proof (pow2_range j Hj) as R.
  unfold inBetween.
  destruct (Z.ltb_spec (2 ^ j) 1); [lia|].
  destruct (Z.gtb_spec (2 ^ j) 2048); [lia|].
  apply floorPow2_pow2. lia.
Qed.

Lemma set_sieve_size_of_get_witness :
  get_sieve_size (mkCpuInfo 0 0 0)
    (set_sieve_size
       (get_sieve_size (mkCpuInfo 49152 1310720 8388608)
          (after 8 [SetNumThreads 3; SetSieveSize 100; SetNumThreads 0]))
       (after 8 [SetNumThreads 3; SetSieveSize 100; SetNumThreads 0]))
  = get_sieve_size (mkCpuInfo 49152 1310720 8388608)
      (after 8 [SetNumThreads 3; SetSieveSize 100; SetNumThreads 0]).
Proof.
  apply (set_sieve_size_of_get 8 [SetNumThreads 3; SetSieveSize 100; SetNumThreads 0]
           (mkCpuInfo 49152 1310720 8388608) (mkCpuInfo 0 0 0)).
  unfold plausible. cbn. lia.
Defined.

(** X11: after any sequence of calls of the two setters, [get_num_threads]
    lies between 1 and the number of threads of the machine (taken as at
    least 1), and right after [set_num_threads(t)] it is [t] clamped to
    that range. *)
Theorem get_num_threads_range (maxThreads : Z) (calls : list Call) (t : Z) :
  1 <= get_num_threads maxThreads (after maxThreads calls) <= Z.max 1 maxThreads /\
  get_num_threads maxThreads (set_num_threads maxThreads t (after maxThreads calls))
  = inBetween 1 t (Z.max 1 maxThreads) /\
  1 <= get_num_threads maxThreads (set_num_threads maxThreads t (after maxThreads calls))
    <= Z.max 1 maxThreads.
Proof.
  destruct (after_settled maxThreads calls) as (_ & H).
  pose proof (inBetween_range 1 t (Z.max 1 maxThreads) ltac:(lia)) as R.
  split; [|split].
  - unfold get_num_threads, ParallelPrimeSieve.getMaxThreads.
    destruct (Z.eqb_spec (num_threads (after maxThreads calls)) 0); cbn [negb]; lia.
  - unfold get_num_threads, set_num_threads, ParallelPrimeSieve.getMaxThreads.
    cbn [num_threads].
    destruct (Z.eqb_spec (inBetween 1 t (Z.max 1 maxThreads)) 0); [lia|reflexivity].
  - unfold get_num_threads, set_num_threads, ParallelPrimeSieve.getMaxThreads.
    cbn [num_threads].
    destruct (Z.eqb_spec (inBetween 1 t (Z.max 1 maxThreads)) 0); cbn [negb]; lia.
Qed.

End SettingsLaws.

(** ** Laws of the vectors of primes *)

Module VectorLaws.
Import Oracle StdVector Vectors VectorFacts.
Import SieveFacts PrimeFacts ParallelFacts ShapeFacts.

Lemma model_sieve_ok : sieve_ok model_sieve.
Proof.
  intros start stop H0 Hle Hstop. unfold model_sieve.
  apply DriverFacts.generatePrimes_spec; lia.
Defined.

(** X12: [generatePrimes(start, stop, &vect)] over a sieve that delivers
    the primes of the interval.  A call that returns has kept what the
    vector held and appended the primes of [[start, stop]] in ascending
    order, each cast to the element type: unchanged if the cast keeps the
    numbers up to [stop].  It returns when the allocator refuses nothing
    and neither the reservation nor the primes exceed [max_size()].  It
    throws [std::length_error] when the reservation, the size plus
    [approxPrimeCount(start, stop)], exceeds [max_size()], and
    [std::bad_alloc] when the allocator refuses the reservation.  A null
    pointer is left alone. *)
Theorem generatePrimes_appends (F : Floats) (M : Memory) (cast : Z -> Z)
    (sieve : Z -> Z -> result (list Z)) (start stop : Z) (vect : vector)
    (h : Heap M) :
  sieve_ok sieve -> 0 <= start -> start <= stop -> stop < 2 ^ 64 ->
  (forall vect' h',
     generatePrimes F M cast sieve start stop (Some vect) h = Ok (Some vect', h') ->
     elems vect' = elems vect ++ map cast (primesBetween start stop) /\
     ((forall x, 0 <= x <= stop -> cast x = x) ->
      elems vect' = elems vect ++ primesBetween start stop)) /\
  ((forall n h, alloc M n h <> None) ->
   wrap64 (size vect + PushBackPrimes1.approxPrimeCount F start stop) <= max_size M ->
   size vect + countBetween start stop <= max_size M ->
   exists vect' h',
     generatePrimes F M cast sieve start stop (Some vect) h = Ok (Some vect', h')) /\
  (max_size M < wrap64 (size vect + PushBackPrimes1.approxPrimeCount F start stop) ->
   generatePrimes F M cast sieve start stop (Some vect) h = Err length_error) /\
  (capacity vect < wrap64 (size vect + PushBackPrimes1.approxPrimeCount F start stop)
     <= max_size M ->
   alloc M (wrap64 (size vect + PushBackPrimes1.approxPrimeCount F start stop)) h = None ->
   generatePrimes F M cast sieve start stop (Some vect) h = Err bad_alloc) /\
  generatePrimes F M cast sieve start stop None h = Ok (None, h).
Proof.
  intros Hs H0 Hle Hstop.
  set (wanted := wrap64 (size vect + PushBackPrimes1.approxPrimeCount F start stop)).
  split; [|split; [|split; [|split; [|reflexivity]]]].
  - intros vect' h' E.
    assert (A : elems vect' = elems vect ++ map cast (primesBetween start stop)).
    { unfold generatePrimes, PushBackPrimes1.generatePrimes in E.
      unbind E. destruct a as (v2 & h2). injection E as <- <-.
      unbind E0. rewrite (Hs start stop H0 Hle Hstop) in E0. cbn [bind] in E0.
      destruct (deliver (PushBackPrimes1.callback M cast) (primesBetween start stop) a)
        as (p' & e) eqn:D.
      destruct e; [|discriminate]. injection E0 as ->.
      apply deliver_push in D; [|reflexivity].
      apply reserve_Ok in E. destruct E as (E & _).
      cbn [fst] in *. now rewrite D, E. }
    split; [exact A|].
    intros Hc. rewrite A. f_equal.
    rewrite <- (map_id (primesBetween start stop)) at 2.
    apply map_ext_in. intros x Hx. apply in_primesBetween in Hx. apply Hc. lia.
  - intros G Hw Hc.
    unfold generatePrimes, PushBackPrimes1.generatePrimes. cbn [fst]. fold wanted.
    assert (R : exists p1, reserve M wanted (vect, h) = Ok p1).
    { unfold reserve. destruct (Z.gtb_spec wanted (max_size M)); [lia|].
      destruct (wanted <=? capacity vect); [eauto|].
      destruct (alloc M wanted h) eqn:A; [eauto|]. now apply G in A. }
    destruct R as (p1 & R). rewrite R. cbn [bind].
    rewrite (Hs start stop H0 Hle Hstop). cbn [bind].
    destruct (deliver_push_granted M cast (primesBetween start stop) p1 G) as (p' & D).
    { apply reserve_Ok in R. destruct R as (R & _). unfold size, countBetween in *.
      rewrite R. cbn [fst]. lia. }
    rewrite D. destruct p' as (v' & h'). cbn [bind]. eauto.
  - intros Hw. unfold generatePrimes, PushBackPrimes1.generatePrimes. cbn [fst].
    fold wanted. unfold reserve.
    destruct (Z.gtb_spec wanted (max_size M)); [reflexivity|lia].
  - intros Hw A. unfold generatePrimes, PushBackPrimes1.generatePrimes. cbn [fst].
    fold wanted. unfold reserve.
    destruct (Z.gtb_spec wanted (max_size M)); [lia|].
    destruct (Z.leb_spec wanted (capacity vect)); [lia|].
    now rewrite A.
Qed.

Lemma generatePrimes_appends_witness :
  (forall vect' h',
     generatePrimes coarse_floats plentiful_memory cast32 model_sieve 10 100
       (Some (mkVector [2; 3; 5; 7] 4)) tt = Ok (Some vect', h') ->
     elems vect' = [2; 3; 5; 7] ++ map cast32 (primesBetween 10 100) /\
     ((forall x, 0 <= x <= 100 -> cast32 x = x) ->
      elems vect' = [2; 3; 5; 7] ++ primesBetween 10 100)) /\
  (exists vect' h',
     generatePrimes coarse_floats plentiful_memory cast32 model_sieve 10 100
       (Some (mkVector [2; 3; 5; 7] 4)) tt = Ok (Some vect', h')).
Proof.
  destruct (generatePrimes_appends coarse_floats plentiful_memory cast32 model_sieve
              10 100 (mkVector [2; 3; 5; 7] 4) tt) as (A & B & _).
  - exact model_sieve_ok.
  - lia.
  - lia.
  - lia.
  - split; [exact A|]. apply B.
    + discriminate.
    + vm_compute. discriminate.
    + vm_compute. discriminate.
Defined.

(** X13: [generate_N_Primes(start, n, &vect)] over a sieve that delivers
    the primes of an interval allocates once at most, in its reservation
    of room for [n] more elements.  When the reservation succeeds, the
    call appends exactly the first [n] primes from [start] on, in
    ascending order, after what the vector holds, and leaves the capacity
    and the allocator as the reservation left them: whenever some [q] has
    [n] primes in [[start, q]], no interval end wraps around
    ([q + 50 n + 10000 < 2^64]), the new size is below 2^64 and the fuel
    covers one round per 10001 numbers up to [q].  When the reservation
    throws ([std::length_error] beyond [max_size()], [std::bad_alloc] when
    the allocator refuses), so does the call.  A null pointer is left
    alone. *)
Theorem generate_N_Primes_first_n (M : Memory) (cast : Z -> Z)
    (sieve : Z -> Z -> result (list Z)) (fuel : nat) (start n q : Z)
    (vect : vector) (h : Heap M) :
  sieve_ok sieve -> 0 <= start -> 0 <= n <= countBetween start q ->
  q + 50 * n + 10000 < 2 ^ 64 -> q - start < 10001 * Z.of_nat fuel ->
  size vect + n < 2 ^ 64 ->
  (forall v1 h1,
     reserve M (size vect + n) (vect, h) = Ok (v1, h1) ->
     generate_N_Primes M cast sieve fuel start n (Some vect) h
     = Ok (Some (mkVector
                   (elems vect ++ map cast (take (Z.to_nat n) (primesBetween start q)))
                   (capacity v1)),
           h1)) /\
  (forall e,
     reserve M (size vect + n) (vect, h) = Err e ->
     generate_N_Primes M cast sieve fuel start n (Some vect) h = Err e) /\
  generate_N_Primes M cast sieve fuel start n None h = Ok (None, h).
Proof.
  intros Hs H0 Hn Hq Hf Hsz.
  assert (W : wrap64 (size vect + n) = size vect + n).
  { apply wrap64_small. unfold is_u64, size in *. lia. }
  split; [|split; [|reflexivity]].
  - intros v1 h1 R.
    unfold generate_N_Primes, PushBackPrimes2.generate_N_Primes.
    cbn [PushBackPrimes2.primes_ PushBackPrimes2.n_ fst]. rewrite W, R. cbn [bind].
    rewrite (loop_spec M cast sieve Hs q fuel start
               (PushBackPrimes2.mkState M (v1, h1) n)); try assumption.
    + cbn [bind PushBackPrimes2.primes_ PushBackPrimes2.n_]. unfold pushed. cbn [fst snd].
      apply reserve_Ok in R. destruct R as (R & _). cbn [fst] in R. now rewrite R.
    + unfold PushBackPrimes2.roomy. cbn [PushBackPrimes2.primes_ PushBackPrimes2.n_ fst].
      apply reserve_Ok in R. destruct R as (R1 & R2 & _). cbn [fst] in *.
      unfold size in *. rewrite R1. lia.
  - intros e R.
    unfold generate_N_Primes, PushBackPrimes2.generate_N_Primes.
    cbn [PushBackPrimes2.primes_ PushBackPrimes2.n_ fst]. now rewrite W, R.
Qed.

Lemma generate_N_Primes_first_n_witness :
  (forall v1 h1,
     reserve counted_memory (size (mkVector [2; 3; 5; 7] 4) + 3)
       (mkVector [2; 3; 5; 7] 4, 100) = Ok (v1, h1) ->
     generate_N_Primes counted_memory cast32 model_sieve 1 10 3
       (Some (mkVector [2; 3; 5; 7] 4)) 100
     = Ok (Some (mkVector
                   ([2; 3; 5; 7] ++ map cast32 (take (Z.to_nat 3) (primesBetween 10 100)))
                   (capacity v1)),
           h1)) /\
  (forall e,
     reserve counted_memory (size (mkVector [2; 3; 5; 7] 4) + 3)
       (mkVector [2; 3; 5; 7] 4, 100) = Err e ->
     generate_N_Primes counted_memory cast32 model_sieve 1 10 3
       (Some (mkVector [2; 3; 5; 7] 4)) 100 = Err e) /\
  generate_N_Primes counted_memory cast32 model_sieve 1 10 3 None 100 = Ok (None, 100).
Proof.
  apply (generate_N_Primes_first_n counted_memory cast32 model_sieve 1 10 3 100
           (mkVector [2; 3; 5; 7] 4) 100).
  - exact model_sieve_ok.
  - lia.
  - vm_compute. split; discriminate.
  - lia.
  - lia.
  - vm_compute. reflexivity.
Defined.

(** X14: whatever the sieve delivers and whatever the allocator does, a
    call of [generate_N_Primes(start, n, &vect)] that returns has appended
    exactly [n] elements to the vector and changed none of those it
    held. *)
Theorem generate_N_Primes_exactly_n (M : Memory) (cast : Z -> Z)
    (sieve : Z -> Z -> result (list Z)) (fuel : nat) (start n : Z)
    (vect vect' : vector) (h h' : Heap M) :
  0 <= n < 2 ^ 64 ->
  generate_N_Primes M cast sieve fuel start n (Some vect) h = Ok (Some vect', h') ->
  exists added,
    elems vect' = elems vect ++ added /\ Z.of_nat (length added) = n /\
    Z.of_nat (length (elems vect')) = Z.of_nat (length (elems vect)) + n.
Proof.
  intros Hn H. unfold generate_N_Primes, PushBackPrimes2.generate_N_Primes in H.
  unbind H. destruct a as (v2 & h2). injection H as <- <-.
  unbind E. unbind E. rename a into p1, a0 into st.
  cbn [PushBackPrimes2.primes_ PushBackPrimes2.n_ fst] in E0, E1.
  injection E as E.
  apply reserve_Ok in E0. destruct E0 as (E0 & _). cbn [fst] in E0.
  apply loop_count in E1; [|cbn; lia].
  destruct E1 as (added & E1 & E2 & _).
  cbn [PushBackPrimes2.primes_ PushBackPrimes2.n_] in E1, E2.
  rewrite E in E1. cbn [fst] in E1. rewrite E0 in E1.
  exists added. split; [exact E1|]. split; [exact E2|].
  rewrite E1, length_app. lia.
Qed.

Lemma generate_N_Primes_exactly_n_witness :
  generate_N_Primes counted_memory cast32 model_sieve 1 10 3
    (Some (mkVector [2; 3; 5; 7] 4)) 100
  = Ok (Some (mkVector [2; 3; 5; 7; 11; 13; 17] 7), 93) /\
  exists added,
    [2; 3; 5; 7; 11; 13; 17] = [2; 3; 5; 7] ++ added /\
    Z.of_nat (length added) = 3 /\
    Z.of_nat (length [2; 3; 5; 7; 11; 13; 17]) = Z.of_nat (length [2; 3; 5; 7]) + 3.
Proof.
  split; [vm_compute; reflexivity|].
  apply (generate_N_Primes_exactly_n counted_memory cast32 model_sieve 1 10 3
           (mkVector [2; 3; 5; 7] 4) (mkVector [2; 3; 5; 7; 11; 13; 17] 7) 100 93).
  - lia.
  - vm_compute. reflexivity.
Defined.

End VectorLaws.
